(** * kellner: a shallow embedding of the identity derivation, the directory
    scanner with its worker pool, and the repository HTTP layer.

    Go values are modelled as follows.  A Go [string] is a [string] (a
    sequence of 8-bit characters), a [[]byte] is a [list ascii], an [int] is a
    [Z], a [map[string]T] is a [gmap string T].  A function that can hit a
    run-time panic returns an [option], [None] being the panic. *)

From Stdlib Require Import ZArith NArith Ascii String List Bool Lia.
From stdpp Require Import base tactics option list gmap strings fin_maps.

Open Scope string_scope.
Open Scope list_scope.

(** ** Bytes and strings *)

Abbreviation bytes := (list ascii).

(** [[]byte(s)] and [string(b)]. *)
Definition bytes_of (s : string) : bytes := list_ascii_of_string s.
Definition string_of (b : bytes) : string := string_of_list_ascii b.

(** Comparison of two bytes as unsigned 8-bit numbers. *)
Definition byte_le (a b : ascii) : bool := (N_of_ascii a <=? N_of_ascii b)%N.

(** [b[n:]] on a byte slice: a run-time panic when [n] exceeds the length.
    The result is the pair of the part before [n], which the slice does not
    cover, and the slice itself. *)
Definition slice_from (n : nat) (b : bytes) : option (bytes * bytes) :=
  if (n <=? length b)%nat then Some (firstn n b, skipn n b) else None.

(** ** crypto/x509/pkix: the part of a name the program reads *)

Module pkix.

(** The dynamic value of an attribute ([interface{}]).  A string prints as
    itself under the [%s] verb; any other value carries what [%s] prints
    for it. *)
Inductive AnyValue :=
| VString (s : string)
| VOther (printed : string).

Record AttributeTypeAndValue := {
  Type_ : list Z;          (* asn1.ObjectIdentifier, a []int *)
  Value : AnyValue
}.

Record Name := { Names : list AttributeTypeAndValue }.

End pkix.

(** What [fmt]'s [%s] verb prints for an attribute value. *)
Definition fmt_s (v : pkix.AnyValue) : string :=
  match v with
  | pkix.VString s => s
  | pkix.VOther printed => printed
  end.

(** ** x509.go *)

(** The lookup table [oidToKeys]: a [[4]int] and its key. *)
Definition oidToKeys : list ((Z * Z * Z * Z) * string) :=
  [ ((2, 5, 4, 6)%Z, "C");
    ((2, 5, 4, 10)%Z, "O");
    ((2, 5, 4, 11)%Z, "OU");
    ((2, 5, 4, 3)%Z, "CN");
    ((2, 5, 4, 5)%Z, "SN");
    ((2, 5, 4, 7)%Z, "L");
    ((2, 5, 4, 8)%Z, "P");
    ((2, 5, 4, 9)%Z, "S");
    ((2, 5, 4, 17)%Z, "PC") ].

(** The condition of the inner loop of [typeValsToBytes].  [&&] does not
    evaluate [entry.Type[i]] unless the length is 4, so the default of [nth]
    is never read. *)
Definition oid_matches (ty : list Z) (oid : Z * Z * Z * Z) : bool :=
  let '(o0, o1, o2, o3) := oid in
  (length ty =? 4)%nat
  && (nth 0 ty 0 =? o0)%Z && (nth 1 ty 0 =? o1)%Z
  && (nth 2 ty 0 =? o2)%Z && (nth 3 ty 0 =? o3)%Z.

(** The inner loop: the key of the first table row that matches, or the
    empty string. *)
Fixpoint lookup_key (tbl : list ((Z * Z * Z * Z) * string)) (ty : list Z) : string :=
  match tbl with
  | [] => ""
  | (oid, key) :: tbl' => if oid_matches ty oid then key else lookup_key tbl' ty
  end.

(** One byte of [cleanPkixNameBytes]: the [switch] keeps digits, letters,
    ['_'] and ['-'], and its [default] writes ['_']. *)
Definition clean_byte (c : ascii) : ascii :=
  if byte_le "0" c && byte_le c "9" then c
  else if byte_le "a" c && byte_le c "z" then c
  else if byte_le "A" c && byte_le c "Z" then c
  else if Ascii.eqb c "_" || Ascii.eqb c "-" then c
  else "_"%char.

(** [cleanPkixNameBytes] rewrites its slice in place; the model returns the
    slice's new content and the caller puts it back where the slice lies. *)
Definition cleanPkixNameBytes (inb : bytes) : bytes := map clean_byte inb.

(** One round of the outer loop of [typeValsToBytes] on the buffer [buf]. *)
Definition typeVals_entry (cleanValues : bool) (buf : bytes)
    (entry : pkix.AttributeTypeAndValue) : option bytes :=
  let key := lookup_key oidToKeys (pkix.Type_ entry) in
  if String.eqb key "" then Some buf
  else
    let buf1 := if (0 <? length buf)%nat then buf ++ bytes_of "," else buf in
    let oldLen := length buf1 in
    let buf2 := buf1 ++ bytes_of key ++ bytes_of "=" ++ bytes_of (fmt_s (pkix.Value entry)) in
    if cleanValues then
      match slice_from (oldLen + String.length key + 1) buf2 with
      | Some (before, value) => Some (before ++ cleanPkixNameBytes value)
      | None => None
      end
    else Some buf2.

Fixpoint typeVals_loop (cleanValues : bool) (names : list pkix.AttributeTypeAndValue)
    (buf : bytes) : option bytes :=
  match names with
  | [] => Some buf
  | entry :: names' =>
      match typeVals_entry cleanValues buf entry with
      | Some buf' => typeVals_loop cleanValues names' buf'
      | None => None
      end
  end.

Definition typeValsToBytes (names : list pkix.AttributeTypeAndValue)
    (cleanValues : bool) : option bytes :=
  typeVals_loop cleanValues names [].

Definition clientIdByName (name : pkix.Name) : option string :=
  match typeValsToBytes (pkix.Names name) true with
  | Some nameBytes => Some (string_of nameBytes)
  | None => None
  end.

(** The pairs joined onto a buffer, as the loop builds them. *)
Definition join_onto (buf : bytes) (pairs : list string) : bytes :=
  fold_left
    (fun b p => (match b with [] => [] | _ => b ++ bytes_of "," end) ++ bytes_of p)
    pairs buf.

(** *** printClientIdTo *)

Module pem.

Record Block := {
  Type_ : string;
  Headers : gmap string string;
  Bytes : bytes
}.

End pem.

Module x509.
Record Certificate := { Subject : pkix.Name }.
End x509.

Inductive error :=
| LibraryError (msg : string)       (* an error value of the os, ioutil or x509 package *)
| NoCertificate (certFile : string) (* "cert file %q does not contain a certificate" *)
| OpeningRoot (dir : string) (err : error)          (* "opening -root %q: %v" *)
| ReadingDirEntries (dir : string) (err : error).   (* "reading dir entries from -root %q: %v" *)

(** How the [for] loop of [printClientIdTo] ends. *)
Inductive decode_loop_exit :=
| LoopBreak (cert : option x509.Certificate)   (* [break], with the value of [cert] *)
| LoopReturnNil.                               (* the [return nil] inside the loop *)

Definition newline : string := String (ascii_of_nat 10) "".

Section PrintClientId.

Variable ReadFile : string -> list pem.Block + error.
Variable ParseCertificate : bytes -> x509.Certificate + error.

(** The loop.  [pem.Decode] finds the next PEM block of its input and
    returns it with the rest of the input, or returns no block; the content
    of the file is represented by the sequence of blocks that the successive
    calls find, so each round of the loop takes the head of the list. *)
Fixpoint decode_loop (rawBytes : list pem.Block) : decode_loop_exit :=
  match rawBytes with
  | [] => LoopBreak None
  | block :: rawBytes' =>
      if negb (String.eqb (pem.Type_ block) "CERTIFICATE")
         || negb (size (pem.Headers block) =? 0)%nat
      then decode_loop rawBytes'
      else
        match ParseCertificate (pem.Bytes block) with
        | inr _ => LoopReturnNil
        | inl cert => LoopBreak (Some cert)
        end
  end.

(** [w] is what has been written to the writer so far; the result is the
    writer afterwards and the returned error ([None] is [nil]). *)
Definition printClientIdTo (w : string) (certFile : string)
    : option (string * option error) :=
  match ReadFile certFile with
  | inr err => Some (w, Some err)
  | inl rawBytes =>
      match decode_loop rawBytes with
      | LoopReturnNil => Some (w, None)
      | LoopBreak None => Some (w, Some (NoCertificate certFile))
      | LoopBreak (Some cert) =>
          match clientIdByName (x509.Subject cert) with
          | Some clientId => Some (w +:+ clientId +:+ newline, None)
          | None => None
          end
      end
  end.

End PrintClientId.

(** ** The identity derivation as the specification words it *)

(** The nine recognized object identifiers. *)
Definition recognized_oids : list (list Z) :=
  [ [2; 5; 4; 6]; [2; 5; 4; 10]; [2; 5; 4; 11]; [2; 5; 4; 3]; [2; 5; 4; 5];
    [2; 5; 4; 7]; [2; 5; 4; 8]; [2; 5; 4; 9]; [2; 5; 4; 17] ]%Z.

Definition recognized (a : pkix.AttributeTypeAndValue) : bool :=
  bool_decide (pkix.Type_ a ∈ recognized_oids).

(** A byte of the class [[A-Za-z0-9_-]]. *)
Definition safe_byte (c : ascii) : bool :=
  let n := N_of_ascii c in
  ((65 <=? n) && (n <=? 90) || (97 <=? n) && (n <=? 122)
   || (48 <=? n) && (n <=? 57) || (n =? 95) || (n =? 45))%N.

Definition sanitize (value : string) : string :=
  string_of (map (fun c => if safe_byte c then c else "_"%char) (bytes_of value)).

(** The short key name of a recognized identifier. *)
Definition key_name (oid : list Z) : string :=
  match oid with
  | [2; 5; 4; 6]%Z => "C"
  | [2; 5; 4; 10]%Z => "O"
  | [2; 5; 4; 11]%Z => "OU"
  | [2; 5; 4; 3]%Z => "CN"
  | [2; 5; 4; 5]%Z => "SN"
  | [2; 5; 4; 7]%Z => "L"
  | [2; 5; 4; 8]%Z => "P"
  | [2; 5; 4; 9]%Z => "S"
  | [2; 5; 4; 17]%Z => "PC"
  | _ => ""
  end.

Definition key_value (a : pkix.AttributeTypeAndValue) : string :=
  key_name (pkix.Type_ a) +:+ "=" +:+ sanitize (fmt_s (pkix.Value a)).

Definition DeriveIdentity (subject : pkix.Name) : string :=
  String.concat "," (map key_value (filter (fun a => recognized a = true) (pkix.Names subject))).

(** A byte of the class [[A-Za-z0-9_=,-]]. *)
Definition identity_byte (c : ascii) : bool :=
  safe_byte c || Ascii.eqb c "=" || Ascii.eqb c ",".

(** ** strings and path: the library functions the program calls *)

(** [strings.HasSuffix]. *)
Definition HasSuffix (s suffix : string) : bool :=
  (String.length suffix <=? String.length s)%nat
  && String.eqb
       (substring (String.length s - String.length suffix) (String.length suffix) s)
       suffix.

(** [strings.Contains]. *)
Fixpoint Contains (s substr : string) : bool :=
  String.prefix substr s
  || match s with
     | EmptyString => false
     | String _ s' => Contains s' substr
     end.

(** [path.Ext]: the loop runs [i] from [len(path) - 1] down to 0 and stops
    at a slash; [n] is [i + 1]. *)
Fixpoint Ext_loop (path : string) (n : nat) : string :=
  match n with
  | O => ""
  | S i =>
      match String.get i path with
      | Some c =>
          if Ascii.eqb c "/" then ""
          else if Ascii.eqb c "." then substring i (String.length path - i) path
          else Ext_loop path i
      | None => ""
      end
  end.

Definition Ext (path : string) : string := Ext_loop path (String.length path).

Fixpoint drop_slashes (b : bytes) : bytes :=
  match b with
  | c :: b' => if Ascii.eqb c "/" then drop_slashes b' else b
  | [] => []
  end.

Fixpoint upto_slash (b : bytes) : bytes :=
  match b with
  | c :: b' => if Ascii.eqb c "/" then [] else c :: upto_slash b'
  | [] => []
  end.

(** [path.Base]: strip the trailing slashes, keep what follows the last
    slash; the empty path gives ".", a path of slashes gives "/". *)
Definition Base (path : string) : string :=
  if String.eqb path "" then "."
  else
    let stripped := drop_slashes (rev (bytes_of path)) in
    let last := rev (upto_slash stripped) in
    match last with
    | [] => "/"
    | _ => string_of last
    end.

(** ** main.go: the worker pool *)

(** What one statement of one thread does to the shared state: it completes,
    it cannot proceed now, or it panics. *)
Inductive outcome (A : Type) :=
| Next (a : A)
| Blocked
| Panic.
Arguments Next {A} a.
Arguments Blocked {A}.
Arguments Panic {A}.

Record WorkerPool := {
  WaitGroup : nat;     (* the counter of the embedded sync.WaitGroup *)
  worker_cap : nat;    (* cap(pool.worker) *)
  worker_len : nat     (* len(pool.worker): values sent and not yet received *)
}.

(** [make(chan bool, n)] panics on a negative size. *)
Definition NewWorkerPool (n : Z) : option WorkerPool :=
  if (n <? 0)%Z then None
  else Some {| WaitGroup := 0; worker_cap := Z.to_nat n; worker_len := 0 |}.

(** [pool.worker <- true] on the buffer of the channel. *)
Definition chan_send (pool : WorkerPool) : outcome WorkerPool :=
  if (worker_len pool <? worker_cap pool)%nat
  then Next {| WaitGroup := WaitGroup pool; worker_cap := worker_cap pool;
               worker_len := S (worker_len pool) |}
  else Blocked.

(** [<-pool.worker] on the buffer of the channel. *)
Definition chan_recv (pool : WorkerPool) : outcome WorkerPool :=
  match worker_len pool with
  | S n => Next {| WaitGroup := WaitGroup pool; worker_cap := worker_cap pool;
                   worker_len := n |}
  | O => Blocked
  end.

(** [pool.Add(1)]. *)
Definition wg_Add (pool : WorkerPool) : WorkerPool :=
  {| WaitGroup := S (WaitGroup pool); worker_cap := worker_cap pool;
     worker_len := worker_len pool |}.

(** [pool.Done()]: a negative counter is a panic. *)
Definition wg_Done (pool : WorkerPool) : outcome WorkerPool :=
  match WaitGroup pool with
  | S n => Next {| WaitGroup := n; worker_cap := worker_cap pool;
                   worker_len := worker_len pool |}
  | O => Panic
  end.

(** [pool.Wait()] returns when the counter is zero. *)
Definition Wait (pool : WorkerPool) : outcome WorkerPool :=
  match WaitGroup pool with
  | O => Next pool
  | S _ => Blocked
  end.

(** [Hire] and [Release], each run without another thread in between. *)
Definition Hire (pool : WorkerPool) : outcome WorkerPool :=
  match chan_send pool with
  | Next pool' => Next (wg_Add pool')
  | Blocked => Blocked
  | Panic => Panic
  end.

Definition Release (pool : WorkerPool) : outcome WorkerPool :=
  match wg_Done pool with
  | Next pool' => chan_recv pool'
  | Blocked => Blocked
  | Panic => Panic
  end.

(** *** Tasks that call Hire and Release concurrently *)

(** Where a task stands: [Hire] is the two statements [pool.worker <- true]
    and [pool.Add(1)], [Release] the two statements [pool.Done()] and
    [<-pool.worker]. *)
Inductive task_pc :=
| HireSend      (* in Hire, at the send *)
| HireAdd       (* in Hire, past the send, at Add *)
| Hired         (* Hire has returned; Release not yet called *)
| ReleaseRecv   (* in Release, past Done, at the receive *)
| Released.     (* Release has returned *)

Record pool_state := {
  the_pool : WorkerPool;
  tasks : list task_pc
}.

(** What the scheduler picks: the next statement of task [i], or, on an
    unbuffered channel, the send of task [i] together with the receive of
    task [j]. *)
Inductive pool_choice :=
| RunTask (i : nat)
| Handoff (i j : nat).

Definition task_next (i : nat) (pc : task_pc) (s : pool_state) (pool : outcome WorkerPool)
    : outcome pool_state :=
  match pool with
  | Next p => Next {| the_pool := p; tasks := <[i := pc]> (tasks s) |}
  | Blocked => Blocked
  | Panic => Panic
  end.

Definition pool_step (c : pool_choice) (s : pool_state) : outcome pool_state :=
  match c with
  | RunTask i =>
      match tasks s !! i with
      | Some HireSend => task_next i HireAdd s (chan_send (the_pool s))
      | Some HireAdd => task_next i Hired s (Next (wg_Add (the_pool s)))
      | Some Hired => task_next i ReleaseRecv s (wg_Done (the_pool s))
      | Some ReleaseRecv => task_next i Released s (chan_recv (the_pool s))
      | Some Released | None => Blocked
      end
  | Handoff i j =>
      match worker_cap (the_pool s), tasks s !! i, tasks s !! j with
      | O, Some HireSend, Some ReleaseRecv =>
          Next {| the_pool := the_pool s;
                  tasks := <[i := HireAdd]> (<[j := Released]> (tasks s)) |}
      | _, _, _ => Blocked
      end
  end.

Definition pool_trans (s s' : pool_state) : Prop :=
  exists c, pool_step c s = Next s'.

(** [n] tasks about to call Hire on a fresh pool of limit [k]. *)
Definition pool_init (k n : nat) : pool_state :=
  {| the_pool := {| WaitGroup := 0; worker_cap := k; worker_len := 0 |};
     tasks := replicate n HireSend |}.

Inductive pool_reachable (k n : nat) : pool_state -> Prop :=
| pool_reach_init : pool_reachable k n (pool_init k n)
| pool_reach_step s s' :
    pool_reachable k n s -> pool_trans s s' -> pool_reachable k n s'.

(** A task is unblocked from the moment its send completes until its
    Release has given the slot back. *)
Definition unblocked (pc : task_pc) : bool :=
  match pc with
  | HireAdd | Hired | ReleaseRecv => true
  | HireSend | Released => false
  end.

(** Hire has returned for the task. *)
Definition hired (pc : task_pc) : bool :=
  match pc with
  | Hired | ReleaseRecv | Released => true
  | HireSend | HireAdd => false
  end.

(** The task has called Release (Done has run). *)
Definition called_Release (pc : task_pc) : bool :=
  match pc with
  | ReleaseRecv | Released => true
  | HireSend | HireAdd | Hired => false
  end.

(** Run a schedule; a choice that cannot run is skipped. *)
Fixpoint pool_run (sched : list pool_choice) (s : pool_state) : pool_state :=
  match sched with
  | [] => s
  | c :: sched' =>
      match pool_step c s with
      | Next s' => pool_run sched' s'
      | _ => pool_run sched' s
      end
  end.

(** The number of tasks that are unblocked. *)
Definition count_unblocked (s : pool_state) : nat :=
  length (filter (fun pc => unblocked pc = true) (tasks s)).

(** Two tasks on a pool of limit one; the first runs Hire and Release to the
    end, then the second gets through its send. *)
Definition sample_pool_state : pool_state :=
  pool_run [RunTask 0; RunTask 1; RunTask 0; RunTask 0; RunTask 0; RunTask 1] (pool_init 1 2).

(** *** The invariant of the pool *)

Definition slot_weight (pc : task_pc) : nat :=
  match pc with HireAdd | Hired | ReleaseRecv => 1 | _ => 0 end.
Definition wg_weight (pc : task_pc) : nat :=
  match pc with Hired => 1 | _ => 0 end.

(** The invariant of the pool: the channel holds one value per unblocked
    task, never more than its capacity, and the WaitGroup counts the tasks
    between the end of Hire and the call of Release. *)
Definition pool_inv (k : nat) (s : pool_state) : Prop :=
  worker_cap (the_pool s) = k
  /\ worker_len (the_pool s) = sum_list_with slot_weight (tasks s)
  /\ worker_len (the_pool s) <= k
  /\ WaitGroup (the_pool s) = sum_list_with wg_weight (tasks s).

(** ** main.go: the directory scanner *)

(** Modelled from the spec: the Package Record ([Ipkg], declared in the
    file of the archive parser, which is not modelled): archive filename,
    file size, modification time, raw control text, one-line description and
    the checksums that were computed. *)
Record Ipkg := {
  Filename : string;
  FileInfo_Size : Z;
  FileInfo_ModTime : Z;
  Control : string;
  Description : string;
  Md5 : option string;
  Sha1 : option string
}.

(** The Package Index as the scanner uses it: a mutex and the map
    [Entries]. *)
Record PackageIndex := {
  locked : bool;
  Entries : gmap string Ipkg
}.

(** Where the calling goroutine of [ScanDirectoryForPackages] stands. *)
Inductive main_pc :=
| MRange (entries : list string)               (* at the head of the range loop *)
| MHireSend (entry : string) (rest : list string)   (* workers.Hire(): the send *)
| MHireAdd (entry : string) (rest : list string)    (* workers.Hire(): Add(1) *)
| MGo (entry : string) (rest : list string)         (* the go statement *)
| MWait                                         (* workers.Wait() *)
| MReturned.                                    (* return packages, nil *)

(** Where a goroutine started by the loop stands. *)
Inductive go_pc :=
| GParse                  (* NewIpkgFromFile *)
| GLock (ipkg : Ipkg)     (* packages.Lock() *)
| GStore (ipkg : Ipkg)    (* packages.Entries[name] = ipkg *)
| GUnlock                 (* packages.Unlock() *)
| GDone                   (* deferred workers.Release(): pool.Done() *)
| GRecv                   (* deferred workers.Release(): <-pool.worker *)
| GExit.

Record scan_state := {
  main : main_pc;
  workers : WorkerPool;
  packages : PackageIndex;
  goroutines : list (string * go_pc);
  logged : list error                 (* log.Printf("error: %v\n", err) *)
}.

(** The scheduler's pick: the caller, goroutine [i], or (unbuffered channel)
    the caller's send together with the receive of goroutine [i]. *)
Inductive scan_choice :=
| RunMain
| RunGo (i : nat)
| HandoffTo (i : nat).

(** How a call of [ScanDirectoryForPackages] begins: it returns an error, it
    panics in [NewWorkerPool], or it enters the loop in the given state. *)
Inductive scan_start :=
| ScanError (err : error)
| ScanPanic
| ScanRun (init : scan_state).

Section Scan.

(** The file system and the archive parser, which do not change while a
    scan runs. [os_Open] gives the error of [os.Open], [Readdirnames] the
    pair that [root.Readdirnames(-1)] returns, [NewIpkgFromFile] the record
    or the error of the parser. *)
Variable os_Open : string -> option error.
Variable Readdirnames : string -> list string * option error.
Variable NewIpkgFromFile : string -> string -> bool -> bool -> Ipkg + error.

Variable dir : string.
Variable nworkers : Z.
Variables addMd5 addSha1 : bool.

Definition with_main (pc : main_pc) (s : scan_state) : scan_state :=
  {| main := pc; workers := workers s; packages := packages s;
     goroutines := goroutines s; logged := logged s |}.

Definition with_go (i : nat) (name : string) (pc : go_pc) (s : scan_state) : scan_state :=
  {| main := main s; workers := workers s; packages := packages s;
     goroutines := <[i := (name, pc)]> (goroutines s); logged := logged s |}.

Definition with_workers (pool : WorkerPool) (s : scan_state) : scan_state :=
  {| main := main s; workers := pool; packages := packages s;
     goroutines := goroutines s; logged := logged s |}.

Definition with_packages (p : PackageIndex) (s : scan_state) : scan_state :=
  {| main := main s; workers := workers s; packages := p;
     goroutines := goroutines s; logged := logged s |}.

Definition main_step (s : scan_state) : outcome scan_state :=
  match main s with
  | MRange [] => Next (with_main MWait s)
  | MRange (entry :: rest) =>
      if negb (String.eqb (Ext entry) ".ipk")
      then Next (with_main (MRange rest) s)
      else Next (with_main (MHireSend entry rest) s)
  | MHireSend entry rest =>
      match chan_send (workers s) with
      | Next pool => Next (with_main (MHireAdd entry rest) (with_workers pool s))
      | Blocked => Blocked
      | Panic => Panic
      end
  | MHireAdd entry rest =>
      Next (with_main (MGo entry rest) (with_workers (wg_Add (workers s)) s))
  | MGo entry rest =>
      Next {| main := MRange rest; workers := workers s; packages := packages s;
              goroutines := goroutines s ++ [(entry, GParse)]; logged := logged s |}
  | MWait =>
      match Wait (workers s) with
      | Next _ => Next (with_main MReturned s)
      | Blocked => Blocked
      | Panic => Panic
      end
  | MReturned => Blocked
  end.

Definition go_step (i : nat) (s : scan_state) : outcome scan_state :=
  match goroutines s !! i with
  | None => Blocked
  | Some (name, pc) =>
      match pc with
      | GParse =>
          match NewIpkgFromFile name dir addMd5 addSha1 with
          | inr err =>
              Next {| main := main s; workers := workers s; packages := packages s;
                      goroutines := <[i := (name, GDone)]> (goroutines s);
                      logged := logged s ++ [err] |}
          | inl ipkg => Next (with_go i name (GLock ipkg) s)
          end
      | GLock ipkg =>
          if locked (packages s) then Blocked
          else Next (with_go i name (GStore ipkg)
                       (with_packages {| locked := true; Entries := Entries (packages s) |} s))
      | GStore ipkg =>
          Next (with_go i name GUnlock
                  (with_packages {| locked := locked (packages s);
                                    Entries := <[name := ipkg]> (Entries (packages s)) |} s))
      | GUnlock =>
          if locked (packages s)
          then Next (with_go i name GDone
                       (with_packages {| locked := false; Entries := Entries (packages s) |} s))
          else Panic
      | GDone =>
          match wg_Done (workers s) with
          | Next pool => Next (with_go i name GRecv (with_workers pool s))
          | Blocked => Blocked
          | Panic => Panic
          end
      | GRecv =>
          match chan_recv (workers s) with
          | Next pool => Next (with_go i name GExit (with_workers pool s))
          | Blocked => Blocked
          | Panic => Panic
          end
      | GExit => Blocked
      end
  end.

Definition handoff_step (i : nat) (s : scan_state) : outcome scan_state :=
  match worker_cap (workers s), main s, goroutines s !! i with
  | O, MHireSend entry rest, Some (name, GRecv) =>
      Next (with_go i name GExit (with_main (MHireAdd entry rest) s))
  | _, _, _ => Blocked
  end.

Definition scan_step (c : scan_choice) (s : scan_state) : outcome scan_state :=
  match c with
  | RunMain => main_step s
  | RunGo i => go_step i s
  | HandoffTo i => handoff_step i s
  end.

Definition scan_trans (s s' : scan_state) : Prop :=
  exists c, scan_step c s = Next s'.

Definition scan_panics (s : scan_state) : Prop :=
  exists c, scan_step c s = Panic.

Definition scan_init (entries : list string) (pool : WorkerPool) : scan_state :=
  {| main := MRange entries;
     workers := pool;
     packages := {| locked := false; Entries := ∅ |};
     goroutines := [];
     logged := [] |}.

Definition ScanDirectoryForPackages : scan_start :=
  match os_Open dir with
  | Some err => ScanError (OpeningRoot dir err)
  | None =>
      match Readdirnames dir with
      | (_, Some err) => ScanError (ReadingDirEntries dir err)
      | (entries, None) =>
          match NewWorkerPool nworkers with
          | None => ScanPanic
          | Some pool => ScanRun (scan_init entries pool)
          end
      end
  end.

Inductive scan_reachable (init : scan_state) : scan_state -> Prop :=
| scan_reach_init : scan_reachable init init
| scan_reach_step s s' :
    scan_reachable init s -> scan_trans s s' -> scan_reachable init s'.

(** Whatever the scheduler picks, the run from [s] gets to a state where
    [P] holds: until then no thread panics and some thread can run. *)
Inductive inevitably (P : scan_state -> Prop) : scan_state -> Prop :=
| inev_now s : P s -> inevitably P s
| inev_later s :
    ~ scan_panics s ->
    (exists s', scan_trans s s') ->
    (forall s', scan_trans s s' -> inevitably P s') ->
    inevitably P s.

(** The call returns [(index, err)]. *)
Definition returned (index : gmap string Ipkg) (s : scan_state) : Prop :=
  main s = MReturned /\ Entries (packages s) = index.

(** The package files of a listing, and those of them that parse. *)
Definition is_package_file (entry : string) : bool := String.eqb (Ext entry) ".ipk".

Definition parses (entry : string) : bool :=
  match NewIpkgFromFile entry dir addMd5 addSha1 with
  | inl _ => true
  | inr _ => false
  end.

Definition valid_files (entries : list string) : list string :=
  filter (fun e => parses e = true) (filter (fun e => is_package_file e = true) entries).

Definition invalid_files (entries : list string) : list string :=
  filter (fun e => parses e = false) (filter (fun e => is_package_file e = true) entries).

(** The index with one record per valid file, keyed by filename. *)
Fixpoint index_of (entries : list string) : gmap string Ipkg :=
  match entries with
  | [] => ∅
  | entry :: rest =>
      if is_package_file entry then
        match NewIpkgFromFile entry dir addMd5 addSha1 with
        | inl ipkg => <[entry := ipkg]> (index_of rest)
        | inr _ => index_of rest
        end
      else index_of rest
  end.

(** Run a schedule; a choice that cannot run is skipped. *)
Fixpoint scan_run (sched : list scan_choice) (s : scan_state) : scan_state :=
  match sched with
  | [] => s
  | c :: sched' =>
      match scan_step c s with
      | Next s' => scan_run sched' s'
      | _ => scan_run sched' s
      end
  end.

End Scan.

(** *** The invariant of a scan *)

Definition slot_of (g : string * go_pc) : nat :=
  match g with (_, GExit) => 0 | _ => 1 end.

Definition counted (g : string * go_pc) : nat :=
  match g with (_, (GRecv | GExit)) => 0 | _ => 1 end.

Definition critical (g : string * go_pc) : nat :=
  match g with (_, (GStore _ | GUnlock)) => 1 | _ => 0 end.

Definition go_measure (g : string * go_pc) : nat :=
  match g with
  | (_, GParse) => 6 | (_, GLock _) => 5 | (_, GStore _) => 4 | (_, GUnlock) => 3
  | (_, GDone) => 2 | (_, GRecv) => 1 | (_, GExit) => 0
  end.

Definition main_slot (m : main_pc) : nat :=
  match m with MHireAdd _ _ | MGo _ _ => 1 | _ => 0 end.

Definition main_counted (m : main_pc) : nat :=
  match m with MGo _ _ => 1 | _ => 0 end.

Definition main_measure (m : main_pc) : nat :=
  match m with
  | MRange rest => 2 + 10 * length rest
  | MHireSend _ rest => 11 + 10 * length rest
  | MHireAdd _ rest => 10 + 10 * length rest
  | MGo _ rest => 9 + 10 * length rest
  | MWait => 1
  | MReturned => 0
  end.

Definition scan_measure (s : scan_state) : nat :=
  main_measure (main s) + sum_list_with go_measure (goroutines s).

(** The counters of the pool and the mutex agree with where the threads
    stand. *)
Definition scan_counts (s : scan_state) : Prop :=
  worker_len (workers s) = sum_list_with slot_of (goroutines s) + main_slot (main s)
  /\ worker_len (workers s) <= worker_cap (workers s)
  /\ WaitGroup (workers s) = sum_list_with counted (goroutines s) + main_counted (main s)
  /\ sum_list_with critical (goroutines s) = (if locked (packages s) then 1 else 0)
  /\ (main s = MReturned -> WaitGroup (workers s) = 0).

Definition after_store (pc : go_pc) : bool :=
  match pc with GUnlock | GDone | GRecv | GExit => true | _ => false end.

(** The entries the caller has still to start a goroutine for. *)
Definition pending (m : main_pc) : list string :=
  match m with
  | MRange rest => filter (fun e => is_package_file e = true) rest
  | MHireSend entry rest | MHireAdd entry rest | MGo entry rest =>
      entry :: filter (fun e => is_package_file e = true) rest
  | MWait | MReturned => []
  end.

Section ScanInvariant.

Variable NewIpkgFromFile : string -> string -> bool -> bool -> Ipkg + error.
Variable dir : string.
Variables addMd5 addSha1 : bool.

Local Abbreviation parse name := (NewIpkgFromFile name dir addMd5 addSha1).

(** What the map holds: the record of every goroutine that is past its
    store, and nothing but records of goroutines that parsed their file. *)
Definition entries_inv (gs : list (string * go_pc)) (ents : gmap string Ipkg) : Prop :=
  (forall name ipkg,
      (name, GLock ipkg) ∈ gs \/ (name, GStore ipkg) ∈ gs -> parse name = inl ipkg)
  /\ (forall name pc ipkg,
         (name, pc) ∈ gs -> after_store pc = true -> parse name = inl ipkg ->
         ents !! name = Some ipkg)
  /\ (forall name ipkg,
         ents !! name = Some ipkg -> parse name = inl ipkg /\ name ∈ gs.*1).

(** The goroutines started so far and the entries still to come make up
    the package files of the listing, in order. *)
Definition names_inv (entries : list string) (s : scan_state) : Prop :=
  (goroutines s).*1 ++ pending (main s) = filter (fun e => is_package_file e = true) entries.

(** The invariant of a scan of [entries]. *)
Definition scan_inv (entries : list string) (s : scan_state) : Prop :=
  scan_counts s
  /\ entries_inv (goroutines s) (Entries (packages s))
  /\ names_inv entries s.

End ScanInvariant.

(** ** http.go: the repository HTTP layer *)

Abbreviation Time := Z.

Definition VERSION : string := "kellner-0.2".

Record DirEntry := {
  Name : string;
  ModTime : Time;
  Size : Z;
  RawDescr : string;
  Descr : string
}.

Module RenderCtx.
Record t := {
  Title : string;
  Entries : list DirEntry;
  SumFileSize : Z;
  Date : Time;
  Version : string
}.
End RenderCtx.

(** The part of a request the handlers read: [r.URL.Path] and [r.Header].
    The keys of the header map are in canonical form. *)
Record Request := {
  URL_Path : string;
  Header : gmap string (list string)
}.

(** [r.Header.Get(key)] for a key in canonical form: the first value, or
    the empty string. *)
Definition Header_Get (h : gmap string (list string)) (key : string) : string :=
  match h !! key with
  | Some (v :: _) => v
  | _ => ""
  end.

(** What a handler does to its [http.ResponseWriter], call by call. *)
Inductive response_event :=
| SetHeader (key value : string)       (* w.Header().Set(key, value) *)
| WriteBody (b : bytes)                (* w.Write(b), io.WriteString(w, s) *)
| NotFound                             (* http.NotFound(w, r) *)
| ServeContent (name : string) (modtime : Time) (content : bytes)
                                       (* http.ServeContent(w, r, name, modtime, content) *)
| ServeFile (name : string).           (* http.ServeFile(w, r, name) *)

(** A handler: the file server of the library on a directory, or a function
    of the program, given by the calls it makes on its writer. *)
Inductive Handler :=
| FileServer (root : string)           (* http.FileServer(http.Dir(root)) *)
| HandlerFunc (f : Request -> list response_event).

(** The body a handler supplies: what it writes and the content it hands to
    [http.ServeContent]. *)
Fixpoint response_body (evs : list response_event) : bytes :=
  match evs with
  | [] => []
  | WriteBody b :: evs' => b ++ response_body evs'
  | ServeContent _ _ content :: evs' => content ++ response_body evs'
  | _ :: evs' => response_body evs'
  end.

(** The value a handler leaves in a response header. *)
Fixpoint response_header (evs : list response_event) (key : string) : option string :=
  match evs with
  | [] => None
  | SetHeader k v :: evs' =>
      match response_header evs' key with
      | Some v' => Some v'
      | None => if String.eqb k key then Some v else None
      end
  | _ :: evs' => response_header evs' key
  end.

(** [http.ServeMux]: the registered patterns with their handlers, in the
    order of registration. *)
Abbreviation ServeMux := (list (string * Handler)).

(** [mux.Handle(pattern, handler)] panics on the empty pattern and on a
    pattern that is registered already. *)
Definition Handle (mux : ServeMux) (pattern : string) (handler : Handler) : option ServeMux :=
  if String.eqb pattern "" then None
  else if bool_decide (pattern ∈ mux.*1) then None
  else Some (mux ++ [(pattern, handler)]).

(** Modelled from the spec: the pluggable compressor [Gzipper], declared
    with its two implementations in a file that is not modelled.  It reads
    its reader to the end and writes to its writer; the model is the
    function from the bytes read to the bytes written. *)
Definition Gzipper := bytes -> bytes.

(** [int64] arithmetic wraps around. *)
Definition wrap_int64 (z : Z) : Z := ((z + 2 ^ 63) mod 2 ^ 64 - 2 ^ 63)%Z.

(** The three buffers that [AttachHttpHandler] fills once. *)
Record index_buffers := {
  packages_stamps : bytes;
  packages_content : bytes;
  packages_content_gz : bytes
}.

Section Repository.

(** The methods of the Package Index and of a Package Record that are
    declared elsewhere: what [StringTo] and [StampsTo] write, what
    [SortedNames] and [DirEntry] return. *)
Variable StringTo : PackageIndex -> bytes.
Variable StampsTo : PackageIndex -> bytes.
Variable SortedNames : PackageIndex -> list string.
Variable Ipkg_DirEntry : Ipkg -> DirEntry.

(** The libraries: what [IndexTemplate.Execute] writes for a context, or
    its error; what a [gzip.Writer] has written at [Close]; [path.Join]. *)
Variable template_Execute : RenderCtx.t -> bytes + error.
Variable gzip_Write : bytes -> bytes.
Variable path_Join : string -> string -> string.

Definition fill_buffers (packages : PackageIndex) (gzipper : Gzipper) : index_buffers :=
  let content := [] ++ StringTo packages in
  {| packages_stamps := [] ++ StampsTo packages;
     packages_content := content;
     packages_content_gz := [] ++ gzipper content |}.

Definition accepts_gzip (r : Request) : bool :=
  Contains (Header_Get (Header r) "Accept-Encoding") "gzip".

Definition packages_handler (now : Time) (b : index_buffers) (r : Request)
    : list response_event :=
  if negb (accepts_gzip r)
  then [ServeContent "Packages" now (packages_content b)]
  else [SetHeader "Content-Type" "text/plain";
        SetHeader "Content-Encoding" "gzip";
        ServeContent "Packages" now (packages_content_gz b)].

Definition packages_gz_handler (now : Time) (b : index_buffers) (r : Request)
    : list response_event :=
  [ServeContent "Packages.gz" now (packages_content_gz b)].

Definition packages_stamps_handler (now : Time) (b : index_buffers) (r : Request)
    : list response_event :=
  [ServeContent "Packages.stamps" now (packages_stamps b)].

(** [ctx.render]: the page and its gzip form; an error of the template
    is a panic. *)
Definition render (ctx : RenderCtx.t) : option (bytes * bytes) :=
  match template_Execute ctx with
  | inr _ => None
  | inl index => Some (index, gzip_Write index)
  end.

(** The loop over [names] that fills [ctx.Entries] from index 3 on and
    adds up the sizes.  [packages.Entries[name]] of a name that is not in
    the map is nil, and the method calls on it panic. *)
Fixpoint package_entries (packages : PackageIndex) (names : list string) (sum : Z)
    : option (list DirEntry * Z) :=
  match names with
  | [] => Some ([], sum)
  | name :: names' =>
      match Entries packages !! name with
      | None => None
      | Some ipkg =>
          match package_entries packages names'
                  (wrap_int64 (sum + FileInfo_Size ipkg)) with
          | Some (es, total) => Some (Ipkg_DirEntry ipkg :: es, total)
          | None => None
          end
      end
  end.

(** The first part of the [index_handler] closure: the rendered page. *)
Definition index_page (packages : PackageIndex) (prefix : string) (b : index_buffers)
    (now date : Time) : option (bytes * bytes) :=
  match package_entries packages (SortedNames packages) 0 with
  | None => None
  | Some (es, total) =>
      render
        {| RenderCtx.Title := prefix +:+ " - kellner";
           RenderCtx.Entries :=
             [ {| Name := "Packages"; ModTime := now;
                  Size := Z.of_nat (length (packages_content b));
                  RawDescr := ""; Descr := "" |};
               {| Name := "Packages.gz"; ModTime := now;
                  Size := Z.of_nat (length (packages_content_gz b));
                  RawDescr := ""; Descr := "" |};
               {| Name := "Packages.stamps"; ModTime := now;
                  Size := Z.of_nat (length (packages_stamps b));
                  RawDescr := ""; Descr := "" |} ] ++ es;
           RenderCtx.SumFileSize := total;
           RenderCtx.Date := date;
           RenderCtx.Version := VERSION |}
  end.

(** The actual index handler.  [HasSuffix] makes the slice
    [r.URL.Path[:len(r.URL.Path)-8]] safe. *)
Definition index_handler (packages : PackageIndex) (prefix root : string)
    (page : bytes * bytes) (r : Request) : list response_event :=
  if HasSuffix (URL_Path r) ".control" then
    let ipkg_name := substring 0 (String.length (URL_Path r) - 8) (URL_Path r) in
    match Entries packages !! Base ipkg_name with
    | None => [NotFound]
    | Some ipkg => [WriteBody (bytes_of (Control ipkg))]
    end
  else if String.eqb (URL_Path r) prefix || String.eqb (URL_Path r) (prefix +:+ "/") then
    if negb (accepts_gzip r)
    then [SetHeader "Content-Type" "text/html; charset=utf-8"; WriteBody page.1]
    else [SetHeader "Content-Type" "text/html; charset=utf-8";
          SetHeader "Content-Encoding" "gzip";
          WriteBody page.2]
  else [ServeFile (path_Join root (URL_Path r))].

(** [now] and [date] are the two results of [time.Now()]. *)
Definition AttachHttpHandler (mux : ServeMux) (packages : PackageIndex)
    (prefix root : string) (gzipper : Gzipper) (now date : Time) : option ServeMux :=
  let b := fill_buffers packages gzipper in
  match index_page packages prefix b now date with
  | None => None
  | Some page =>
      match Handle mux (prefix +:+ "/")
              (HandlerFunc (index_handler packages prefix root page)) with
      | None => None
      | Some mux1 =>
          match Handle mux1 (prefix +:+ "/Packages")
                  (HandlerFunc (packages_handler now b)) with
          | None => None
          | Some mux2 =>
              match Handle mux2 (prefix +:+ "/Packages.gz")
                      (HandlerFunc (packages_gz_handler now b)) with
              | None => None
              | Some mux3 =>
                  Handle mux3 (prefix +:+ "/Packages.stamps")
                    (HandlerFunc (packages_stamps_handler now b))
              end
          end
      end
  end.

(** *** main.go: the walk over the repository root *)

Record walk_state := {
  rootMuxer : ServeMux;
  indices : list string
}.

(** [muxPath]: the slice of [path] from the length of the root name on
    (a panic when the path is shorter), with the empty result replaced by
    "/". *)
Definition muxPath_of (rootName path : string) : option string :=
  if (String.length rootName <=? String.length path)%nat then
    let muxPath := substring (String.length rootName)
                     (String.length path - String.length rootName) path in
    Some (if String.eqb muxPath "" then "/" else muxPath)
  else None.

(** One call of the function given to [filepath.Walk].  [fi] is the file
    info ([None] is nil, else whether it is a directory); [scan] is what
    [ScanDirectoryForPackages(path, ...)] returns when it is called. *)
Definition walk_visit (rootName : string) (gzipper : Gzipper) (now date : Time)
    (st : walk_state) (path : string) (fi : option bool)
    (scan : PackageIndex + error) : option walk_state :=
  match fi with
  | None => None
  | Some false => Some st
  | Some true =>
      match scan with
      | inr _ => Some st
      | inl packages =>
          match muxPath_of rootName path with
          | None => None
          | Some muxPath =>
              if (size (Entries packages) =? 0)%nat then
                match Handle (rootMuxer st) muxPath (FileServer path) with
                | None => None
                | Some mux => Some {| rootMuxer := mux; indices := indices st |}
                end
              else
                match AttachHttpHandler (rootMuxer st) packages muxPath rootName
                        gzipper now date with
                | None => None
                | Some mux =>
                    Some {| rootMuxer := mux; indices := indices st ++ [muxPath] |}
                end
          end
      end
  end.

(** The walk: the calls of the function, in the order in which
    [filepath.Walk] presents the paths with their file infos; a panic
    ends it.  [scan_of path] is what the scan of [path] returns. *)
Fixpoint walk (rootName : string) (gzipper : Gzipper) (now date : Time)
    (scan_of : string -> PackageIndex + error)
    (visits : list (string * option bool))
    (st : walk_state) : option walk_state :=
  match visits with
  | [] => Some st
  | (path, fi) :: visits' =>
      match walk_visit rootName gzipper now date st path fi (scan_of path) with
      | None => None
      | Some st' => walk rootName gzipper now date scan_of visits' st'
      end
  end.

(** The four registrations of [AttachHttpHandler] at [prefix]. *)
Definition repository_handlers (packages : PackageIndex) (prefix root : string)
    (gzipper : Gzipper) (now : Time) (page : bytes * bytes) : ServeMux :=
  let b := fill_buffers packages gzipper in
  [ (prefix +:+ "/", HandlerFunc (index_handler packages prefix root page));
    (prefix +:+ "/Packages", HandlerFunc (packages_handler now b));
    (prefix +:+ "/Packages.gz", HandlerFunc (packages_gz_handler now b));
    (prefix +:+ "/Packages.stamps", HandlerFunc (packages_stamps_handler now b)) ].

End Repository.

(** The path of a directory relative to the root of the walk: what follows
    the root name, "/" for the root itself. *)
Definition relative_path (rootName path : string) : string :=
  match substring (String.length rootName)
          (String.length path - String.length rootName) path with
  | EmptyString => "/"
  | rel => rel
  end.

Definition acme : pkix.Name :=
  {| pkix.Names :=
       [ {| pkix.Type_ := [2; 5; 4; 10]%Z; pkix.Value := pkix.VString "Acme Co." |};
         {| pkix.Type_ := [2; 5; 4; 3]%Z; pkix.Value := pkix.VString "test user!" |} ] |}.


(** A subject with no recognized attribute: an e-mail address
    (1.2.840.113549.1.9.1) and a domain component (0.9.2342.19200300.100.1.25). *)
Definition unrecognized_subject : pkix.Name :=
  {| pkix.Names :=
       [ {| pkix.Type_ := [1; 2; 840; 113549; 1; 9; 1]%Z;
            pkix.Value := pkix.VString "ops@example.org" |};
         {| pkix.Type_ := [0; 9; 2342; 19200300; 100; 1; 25]%Z;
            pkix.Value := pkix.VString "example" |} ] |}.

(** The blocks the loop of [printClientIdTo] stops at: type CERTIFICATE and
    no headers. *)
Definition is_certificate_block (block : pem.Block) : bool :=
  String.eqb (pem.Type_ block) "CERTIFICATE" && (size (pem.Headers block) =? 0)%nat.

(** Sample PEM blocks and a sample parser, which accepts the bytes "DER"
    only. *)
Definition sample_parse (der : bytes) : x509.Certificate + error :=
  if String.eqb (string_of der) "DER"
  then inl {| x509.Subject := acme |}
  else inr (LibraryError "asn1: syntax error").

Definition key_block : pem.Block :=
  {| pem.Type_ := "RSA PRIVATE KEY"; pem.Headers := ∅; pem.Bytes := bytes_of "KEY" |}.

Definition good_block : pem.Block :=
  {| pem.Type_ := "CERTIFICATE"; pem.Headers := ∅; pem.Bytes := bytes_of "DER" |}.

Definition bad_block : pem.Block :=
  {| pem.Type_ := "CERTIFICATE"; pem.Headers := ∅; pem.Bytes := bytes_of "garbage" |}.

Definition sample_files (certFile : string) : list pem.Block + error :=
  if String.eqb certFile "bad.pem" then inl [key_block; bad_block; good_block]
  else if String.eqb certFile "good-then-bad.pem" then inl [good_block; bad_block]
  else inr (LibraryError "open: no such file or directory").


(** Opening or listing the directory fails. *)
Definition listing_fails (os_Open : string -> option error)
    (Readdirnames : string -> list string * option error) (dir : string) : Prop :=
  os_Open dir <> None \/ (Readdirnames dir).2 <> None.

(** A sample directory: a valid package, a malformed one, and a file that
    is no package. *)
Definition a_1_0 : Ipkg :=
  {| Filename := "a_1.0.ipk"; FileInfo_Size := 120; FileInfo_ModTime := 1430000000;
     Control := "Package: a"; Description := "a";
     Md5 := Some "d41d8cd98f00b204e9800998ecf8427e"; Sha1 := None |}.

Definition sample_Open (dir : string) : option error := None.

Definition sample_Readdirnames (dir : string) : list string * option error :=
  (["a_1.0.ipk"; "broken.ipk"; "README"], None).

Definition sample_NewIpkgFromFile (name dir : string) (addMd5 addSha1 : bool) : Ipkg + error :=
  if String.eqb name "a_1.0.ipk" then inl a_1_0
  else inr (LibraryError "malformed archive").

(** A sample repository: the index of the sample directory, sample
    serializers, a template that prints the title, and a toy compressor
    that puts the two magic bytes of gzip in front of its input. *)
Definition sample_index : PackageIndex :=
  {| locked := false; Entries := {[ "a_1.0.ipk" := a_1_0 ]} |}.

Definition empty_index : PackageIndex :=
  {| locked := false; Entries := ∅ |}.

Definition sample_StringTo (p : PackageIndex) : bytes :=
  flat_map (fun e => bytes_of (Control e.2 +:+ newline +:+ "Filename: " +:+ e.1 +:+ newline))
    (map_to_list (Entries p)).

Definition sample_StampsTo (p : PackageIndex) : bytes :=
  flat_map (fun e => bytes_of (e.1 +:+ newline)) (map_to_list (Entries p)).

Definition sample_SortedNames (p : PackageIndex) : list string :=
  (map_to_list (Entries p)).*1.

Definition sample_DirEntry (ipkg : Ipkg) : DirEntry :=
  {| Name := Filename ipkg; ModTime := FileInfo_ModTime ipkg; Size := FileInfo_Size ipkg;
     RawDescr := Control ipkg; Descr := Description ipkg |}.

Definition sample_Execute (ctx : RenderCtx.t) : bytes + error :=
  inl (bytes_of (RenderCtx.Title ctx)).

Definition gzip_magic : bytes := [ascii_of_nat 31; ascii_of_nat 139].

Definition sample_gzipper : Gzipper := fun content => gzip_magic ++ content.

Definition sample_gunzip (b : bytes) : option bytes :=
  match b with
  | m1 :: m2 :: content =>
      if Ascii.eqb m1 (ascii_of_nat 31) && Ascii.eqb m2 (ascii_of_nat 139)
      then Some content else None
  | _ => None
  end.

Definition sample_Join (a b : string) : string := a +:+ b.

Definition control_request : Request :=
  {| URL_Path := "/feed/a_1.0.ipk.control"; Header := ∅ |}.

Definition gzip_request : Request :=
  {| URL_Path := "/feed/Packages";
     Header := {[ "Accept-Encoding" := ["deflate, gzip"] ]} |}.


Definition sample_attach :=
  AttachHttpHandler sample_StringTo sample_StampsTo sample_SortedNames sample_DirEntry
    sample_Execute sample_gzipper sample_Join.

Definition sample_visit :=
  walk_visit sample_StringTo sample_StampsTo sample_SortedNames sample_DirEntry
    sample_Execute sample_gzipper sample_Join "/srv/repo" sample_gzipper 1430000100 1430000101.

(** The handlers of the sample repository at "/feed". *)
Definition sample_mux : ServeMux :=
  match sample_attach [] sample_index "/feed" "/srv/repo" sample_gzipper
          1430000100 1430000101 with
  | Some mux => mux
  | None => []
  end.

Definition no_handlers : walk_state := {| rootMuxer := []; indices := [] |}.

(** The walk state after the visit of the sample repository "/srv/repo/feed". *)
Definition feed_visited : walk_state :=
  match sample_visit no_handlers "/srv/repo/feed" (Some true) (inl sample_index) with
  | Some st => st
  | None => no_handlers
  end.

(** A sample tree: the root holds the directory feed, which holds a
    directory named Packages and the package a_1.0.ipk. *)
Definition sample_scan_of (path : string) : PackageIndex + error :=
  if String.eqb path "/srv/repo/feed" then inl sample_index else inl empty_index.

Definition sample_tree : list (string * option bool) :=
  [ ("/srv/repo", Some true);
    ("/srv/repo/feed", Some true);
    ("/srv/repo/feed/Packages", Some true);
    ("/srv/repo/feed/a_1.0.ipk", Some false) ].

Definition sample_walk :=
  walk sample_StringTo sample_StampsTo sample_SortedNames sample_DirEntry
    sample_Execute sample_gzipper sample_Join "/srv/repo" sample_gzipper
    1430000100 1430000101 sample_scan_of.

(** The walk state after the visits of the root and of feed. *)
Definition feed_walked : walk_state :=
  match sample_walk [("/srv/repo", Some true); ("/srv/repo/feed", Some true)] no_handlers with
  | Some st => st
  | None => no_handlers
  end.

(** A template that fails. *)
Definition failing_Execute (ctx : RenderCtx.t) : bytes + error :=
  inr (LibraryError "template: index: error calling html").

(** * Further parts of the program *)

(** ** x509.go: more on the identity derivation *)

(** The pair of an attribute when the values are not cleaned. *)
Definition raw_key_value (a : pkix.AttributeTypeAndValue) : string :=
  key_name (pkix.Type_ a) +:+ "=" +:+ fmt_s (pkix.Value a).

(** How often a byte occurs. *)
Definition count_byte (c : ascii) (b : bytes) : nat :=
  length (filter (fun x => x = c) b).

(** What the identity keeps of an attribute: its identifier and its value
    after cleaning. *)
Definition identity_key (a : pkix.AttributeTypeAndValue) : list Z * string :=
  (pkix.Type_ a, sanitize (fmt_s (pkix.Value a))).

Definition recognized_attributes (subject : pkix.Name) : list pkix.AttributeTypeAndValue :=
  filter (fun a => recognized a = true) (pkix.Names subject).

(** ** main.go: more on the worker pool *)

Definition pool_panics (s : pool_state) : Prop :=
  exists c, pool_step c s = Panic.

(** Whatever the scheduler picks, the tasks get to a state where [P] holds:
    until then no task panics and some task can run. *)
Inductive pool_inevitably (P : pool_state -> Prop) : pool_state -> Prop :=
| pool_inev_now s : P s -> pool_inevitably P s
| pool_inev_later s :
    ~ pool_panics s ->
    (exists s', pool_trans s s') ->
    (forall s', pool_trans s s' -> pool_inevitably P s') ->
    pool_inevitably P s.

(** Every task has run Hire and Release to the end, and the pool is as it
    was made. *)
Definition pool_drained (k : nat) (s : pool_state) : Prop :=
  Forall (fun pc => pc = Released) (tasks s)
  /\ the_pool s = {| WaitGroup := 0; worker_cap := k; worker_len := 0 |}.

Definition task_measure (pc : task_pc) : nat :=
  match pc with
  | HireSend => 4 | HireAdd => 3 | Hired => 2 | ReleaseRecv => 1 | Released => 0
  end.

(** ** main.go: more on the directory scanner *)

(** The goroutine is between [packages.Lock()] and [packages.Unlock()]. *)
Definition in_critical_section (g : string * go_pc) : bool :=
  match g with (_, (GStore _ | GUnlock)) => true | _ => false end.

(** The goroutine has been started and has not exited. *)
Definition alive (g : string * go_pc) : bool :=
  match g with (_, GExit) => false | _ => true end.

Section ScanLog.

Variable NewIpkgFromFile : string -> string -> bool -> bool -> Ipkg + error.
Variable dir : string.
Variables addMd5 addSha1 : bool.

(** The error of the parser on an entry, if it has one. *)
Definition parse_error (entry : string) : list error :=
  match NewIpkgFromFile entry dir addMd5 addSha1 with
  | inr err => [err]
  | inl _ => []
  end.

(** What a goroutine has logged so far. *)
Definition logged_by (g : string * go_pc) : list error :=
  match g with
  | (_, GParse) => []
  | (name, _) => parse_error name
  end.

(** The log holds what the goroutines have logged, in some order. *)
Definition log_inv (s : scan_state) : Prop :=
  logged s ≡ₚ flat_map logged_by (goroutines s).

End ScanLog.


(** One schedule of the sample scan with a single worker, to its end. *)
Definition sample_schedule : list scan_choice :=
  [ RunMain; RunMain; RunMain; RunMain;
    RunMain; RunMain;
    RunGo 0; RunGo 0; RunGo 0; RunGo 0; RunGo 0; RunGo 0;
    RunMain; RunMain; RunMain;
    RunMain; RunMain;
    RunGo 1; RunGo 1; RunGo 1;
    RunMain; RunMain ].

Definition sample_scan_end : scan_state :=
  scan_run sample_NewIpkgFromFile "/srv/repo" true false sample_schedule
    (scan_init ["a_1.0.ipk"; "broken.ipk"; "README"]
       {| WaitGroup := 0; worker_cap := 1; worker_len := 0 |}).

(** ** http.go: the index page and the configuration snippet *)

(** The sizes of the packages of [names], added up without wrap-around. *)
Definition sizes_total (packages : PackageIndex) (names : list string) : Z :=
  foldr (fun name acc => (from_option FileInfo_Size 0 (Entries packages !! name) + acc)%Z)
    0%Z names.

(** [strings.Replace(s, "/", "-", -1)]: every slash becomes a dash. *)
Fixpoint replace_slashes (s : string) : string :=
  match s with
  | EmptyString => EmptyString
  | String c s' => String (if Ascii.eqb c "/" then "-"%char else c) (replace_slashes s')
  end.

(** One round of the loop of the snippet handler: the name of the
    repository, where the slice [mux_path[1:]] panics on the empty path,
    and the line that [fmt.Fprintf] writes. *)
Definition repo_name_of (mux_path : string) : option string :=
  if (1 <=? String.length mux_path)%nat
  then Some (replace_slashes (substring 1 (String.length mux_path - 1) mux_path))
  else None.

Definition snippet_line (scheme host mux_path : string) : option bytes :=
  match repo_name_of mux_path with
  | None => None
  | Some repo_name =>
      Some (bytes_of ("src/gz " +:+ repo_name +:+ "-ipks " +:+ scheme +:+ host
                      +:+ mux_path +:+ newline))
  end.

(** The loop over [feeds]: the calls on the writer, and whether the loop
    ended in a panic (the lines before it are written). *)
Fixpoint snippet_lines (scheme host : string) (feeds : list string)
    : list response_event * bool :=
  match feeds with
  | [] => ([], false)
  | mux_path :: feeds' =>
      match snippet_line scheme host mux_path with
      | None => ([], true)
      | Some line =>
          let (evs, panicked) := snippet_lines scheme host feeds' in
          (WriteBody line :: evs, panicked)
      end
  end.

Section Snippet.

(** The two fields of the request that the snippet handler reads and the
    record [Request] leaves out: [r.URL.Scheme] and [r.Host]. *)
Variable URL_Scheme : Request -> string.
Variable Host : Request -> string.

Definition snippet_scheme (r : Request) : string :=
  if String.eqb (URL_Scheme r) "" then "http://" else URL_Scheme r.

Definition snippet_handler (feeds : list string) (r : Request) : list response_event :=
  (snippet_lines (snippet_scheme r) (Host r) feeds).1.

Definition snippet_handler_panics (feeds : list string) (r : Request) : bool :=
  (snippet_lines (snippet_scheme r) (Host r) feeds).2.

Definition AttachOpkgRepoSnippet (mux : ServeMux) (mount : string) (feeds : list string)
    : option ServeMux :=
  Handle mux mount (HandlerFunc (snippet_handler feeds)).

End Snippet.

(** Whether a call of the function given to [filepath.Walk] gets past its
    two early returns (or panics on a nil file info). *)
Definition visit_registers (scan_of : string -> PackageIndex + error)
    (v : string * option bool) : bool :=
  match v.2 with
  | Some false => false
  | Some true => match scan_of v.1 with inl _ => true | inr _ => false end
  | None => true
  end.

(** The directories of a walk whose scan yields records, and those whose
    scan yields none. *)
Definition is_repository (scan_of : string -> PackageIndex + error)
    (v : string * option bool) : bool :=
  match v.2, scan_of v.1 with
  | Some true, inl packages => negb (size (Entries packages) =? 0)%nat
  | _, _ => false
  end.

Definition is_plain_directory (scan_of : string -> PackageIndex + error)
    (v : string * option bool) : bool :=
  match v.2, scan_of v.1 with
  | Some true, inl packages => (size (Entries packages) =? 0)%nat
  | _, _ => false
  end.

(** The relative paths of the repositories of a walk, in its order. *)
Definition feeds_of (rootName : string) (scan_of : string -> PackageIndex + error)
    (visits : list (string * option bool)) : list string :=
  flat_map (fun v => if is_repository scan_of v then [relative_path rootName v.1] else [])
    visits.

(** The four patterns of a repository. *)
Definition repository_patterns (prefix : string) : list string :=
  [prefix +:+ "/"; prefix +:+ "/Packages"; prefix +:+ "/Packages.gz";
   prefix +:+ "/Packages.stamps"].

(** What a walk has added to the muxer: the four patterns of every
    repository and the relative path of every other directory. *)
Definition walk_added (rootName : string) (scan_of : string -> PackageIndex + error)
    (visits : list (string * option bool)) (added : ServeMux) : Prop :=
  Forall (fun feed => feed <> ""
                      /\ Forall (fun pattern => pattern ∈ added.*1)
                           (repository_patterns feed))
         (feeds_of rootName scan_of visits)
  /\ Forall (fun v => is_plain_directory scan_of v = true ->
                      relative_path rootName v.1 ∈ added.*1) visits.

Section Setup.

Variable StringTo : PackageIndex -> bytes.
Variable StampsTo : PackageIndex -> bytes.
Variable SortedNames : PackageIndex -> list string.
Variable Ipkg_DirEntry : Ipkg -> DirEntry.
Variable template_Execute : RenderCtx.t -> bytes + error.
Variable gzip_Write : bytes -> bytes.
Variable path_Join : string -> string -> string.
Variable URL_Scheme : Request -> string.
Variable Host : Request -> string.

(** The part of [main] that builds the root muxer: the walk from the empty
    muxer, then the snippet at "/opkg.conf" for the feeds of the walk. *)
Definition setup_muxer (rootName : string) (gzipper : Gzipper) (now date : Time)
    (scan_of : string -> PackageIndex + error)
    (visits : list (string * option bool)) : option ServeMux :=
  match walk StringTo StampsTo SortedNames Ipkg_DirEntry template_Execute gzip_Write
          path_Join rootName gzipper now date scan_of visits
          {| rootMuxer := []; indices := [] |} with
  | None => None
  | Some st => AttachOpkgRepoSnippet URL_Scheme Host (rootMuxer st) "/opkg.conf" (indices st)
  end.

End Setup.

(** ** main.go: the flags that end the program early *)

Module Flags.
Record t := {
  showVersion : bool;
  printClientCert : string;
  bind : string;
  rootName : string
}.
End Flags.

(** How the first part of [main] ends: the process exits with a status,
    having written to standard output and to standard error, or it goes on
    to set up the log and the server. *)
Inductive main_outcome :=
| Exit (stdout stderr : string) (status : Z)
| GoesOn
| MainPanic.

Section Main.

Variable ReadFile : string -> list pem.Block + error.
Variable ParseCertificate : bytes -> x509.Certificate + error.

(** [err.Error()], which the verb %v prints. *)
Variable Error : error -> string.

(** [main] from [flag.Parse()] to the check of -root; a return from
    [main] ends the process with status 0. *)
Definition main_flags (flags : Flags.t) : main_outcome :=
  if Flags.showVersion flags then Exit (VERSION +:+ newline) "" 0
  else if negb (String.eqb (Flags.printClientCert flags) "") then
    match printClientIdTo ReadFile ParseCertificate "" (Flags.printClientCert flags) with
    | None => MainPanic
    | Some (out, Some err) => Exit out ("error: " +:+ Error err +:+ newline) 1
    | Some (out, None) => Exit out "" 0
    end
  else if String.eqb (Flags.bind flags) "" then
    Exit "" ("usage error: missing / empty -bind" +:+ newline) 1
  else if String.eqb (Flags.rootName flags) "" then
    Exit "" "usage error: missing / empty -root" 1
  else GoesOn.

End Main.
(** * Theorems *)

(** ** The identity derivation *)

Example clientId_acme : clientIdByName acme = Some "O=Acme_Co_,CN=test_user_".
Proof. reflexivity. Qed.

Example DeriveIdentity_acme : DeriveIdentity acme = "O=Acme_Co_,CN=test_user_".
Proof. vm_compute. reflexivity. Qed.

Lemma bytes_of_app s1 s2 : bytes_of (s1 +:+ s2) = bytes_of s1 ++ bytes_of s2.
Proof.
  unfold bytes_of. induction s1 as [|c s1 IH]; [reflexivity|].
  change (String c s1 +:+ s2) with (String c (s1 +:+ s2)).
  simpl. by rewrite IH.
Qed.

Lemma bytes_of_string_of b : bytes_of (string_of b) = b.
Proof. apply list_ascii_of_string_of_list_ascii. Qed.

Lemma string_of_bytes_of s : string_of (bytes_of s) = s.
Proof. apply string_of_list_ascii_of_string. Qed.

Lemma length_bytes_of s : length (bytes_of s) = String.length s.
Proof. unfold bytes_of. induction s; simpl; congruence. Qed.

Lemma clean_byte_safe c : clean_byte c = if safe_byte c then c else "_"%char.
Proof. destruct c as [[] [] [] [] [] [] [] []]; reflexivity. Qed.

Lemma cleanPkixNameBytes_sanitize v : cleanPkixNameBytes (bytes_of v) = bytes_of (sanitize v).
Proof.
  unfold cleanPkixNameBytes, sanitize. rewrite bytes_of_string_of.
  apply map_ext. intros c. apply clean_byte_safe.
Qed.

Lemma oid_matches_eq ty o0 o1 o2 o3 :
  oid_matches ty (o0, o1, o2, o3) = bool_decide (ty = [o0; o1; o2; o3]).
Proof.
  unfold oid_matches.
  destruct ty as [|a [|b [|c [|d [|e ty]]]]]; simpl; try reflexivity;
    try (symmetry; apply bool_decide_eq_false; congruence).
  destruct (Z.eqb_spec a o0), (Z.eqb_spec b o1), (Z.eqb_spec c o2), (Z.eqb_spec d o3);
    simpl; symmetry;
    first [ apply bool_decide_eq_true; congruence
          | apply bool_decide_eq_false; congruence ].
Qed.

Lemma lookup_key_recognized ty :
  ty ∈ recognized_oids -> lookup_key oidToKeys ty = key_name ty /\ key_name ty <> "".
Proof.
  unfold recognized_oids. intros H.
  repeat (apply elem_of_cons in H as [->|H]; [split; [reflexivity|discriminate]|]).
  by apply elem_of_nil in H.
Qed.

Lemma lookup_key_unrecognized ty :
  ty ∉ recognized_oids -> lookup_key oidToKeys ty = "".
Proof.
  intros H. unfold oidToKeys, lookup_key.
  repeat (rewrite oid_matches_eq; case_bool_decide;
          [exfalso; apply H; subst ty; unfold recognized_oids; set_solver|]).
  reflexivity.
Qed.

Lemma firstn_skipn_at {A} (l1 l2 : list A) n :
  n = length l1 -> firstn n (l1 ++ l2) = l1 /\ skipn n (l1 ++ l2) = l2.
Proof.
  intros ->. split.
  - by rewrite take_app_length.
  - by rewrite drop_app_length.
Qed.

(** One round of the loop, with cleaning: an unrecognized attribute leaves
    the buffer alone, a recognized one appends its pair after a comma if
    the buffer is not empty. *)
Lemma typeVals_entry_clean buf a :
  typeVals_entry true buf a =
  Some (if recognized a
        then (match buf with [] => [] | _ => buf ++ bytes_of "," end) ++ bytes_of (key_value a)
        else buf).
Proof.
  unfold typeVals_entry, recognized. case_bool_decide as Hin.
  - destruct (lookup_key_recognized _ Hin) as [-> Hne].
    destruct (String.eqb_spec (key_name (pkix.Type_ a)) "") as [E|_]; [done|].
    set (buf1 := if (0 <? length buf)%nat then buf ++ bytes_of "," else buf).
    assert (Hb1 : buf1 = match buf with [] => [] | _ => buf ++ bytes_of "," end)
      by (subst buf1; destruct buf; reflexivity).
    unfold slice_from.
    set (key := key_name (pkix.Type_ a)).
    set (v := bytes_of (fmt_s (pkix.Value a))).
    assert (Hlen : length buf1 + String.length key + 1 = length (buf1 ++ bytes_of key ++ bytes_of "=")).
    { rewrite !length_app, length_bytes_of. simpl. lia. }
    replace (buf1 ++ bytes_of key ++ bytes_of "=" ++ v)
      with ((buf1 ++ bytes_of key ++ bytes_of "=") ++ v)
      by (rewrite <- !app_assoc; reflexivity).
    destruct (firstn_skipn_at (buf1 ++ bytes_of key ++ bytes_of "=") v _ Hlen) as [-> ->].
    rewrite Hlen.
    replace (length (buf1 ++ bytes_of key ++ bytes_of "=")
             <=? length ((buf1 ++ bytes_of key ++ bytes_of "=") ++ v))%nat with true
      by (symmetry; apply Nat.leb_le; rewrite (length_app _ v); lia).
    f_equal. rewrite <- Hb1. unfold key_value. fold key.
    rewrite !bytes_of_app. subst v. rewrite cleanPkixNameBytes_sanitize.
    rewrite <- !app_assoc. reflexivity.
  - rewrite (lookup_key_unrecognized _ Hin). reflexivity.
Qed.

Lemma typeVals_loop_clean names buf :
  typeVals_loop true names buf =
  Some (join_onto buf (map key_value (filter (fun a => recognized a = true) names))).
Proof.
  revert buf. induction names as [|a names IH]; intros buf; [reflexivity|].
  simpl. rewrite typeVals_entry_clean. rewrite filter_cons.
  destruct (recognized a) eqn:E.
  - rewrite decide_True by done. rewrite IH. reflexivity.
  - rewrite decide_False by done. rewrite IH. reflexivity.
Qed.

Lemma join_onto_cons buf p pairs :
  join_onto buf (p :: pairs) =
  join_onto ((match buf with [] => [] | _ => buf ++ bytes_of "," end) ++ bytes_of p) pairs.
Proof. reflexivity. Qed.

Lemma join_onto_concat buf pairs :
  Forall (fun p => p <> "") pairs ->
  join_onto buf pairs =
  match buf, pairs with
  | _, [] => buf
  | [], _ => bytes_of (String.concat "," pairs)
  | _, _ => buf ++ bytes_of "," ++ bytes_of (String.concat "," pairs)
  end.
Proof.
  intros Hne. revert buf. induction Hne as [|p pairs Hp Hne IH]; intros buf.
  - by destruct buf.
  - rewrite join_onto_cons, IH.
    assert (Hp' : bytes_of p <> []).
    { intros E. apply Hp. rewrite <- (string_of_bytes_of p), E. reflexivity. }
    destruct pairs as [|q pairs].
    + destruct buf; simpl.
      * destruct (bytes_of p); reflexivity.
      * by rewrite <- app_assoc.
    + set (rest := String.concat "," (q :: pairs)).
      assert (Hc : bytes_of (String.concat "," (p :: q :: pairs))
                   = bytes_of p ++ bytes_of "," ++ bytes_of rest).
      { change (String.concat "," (p :: q :: pairs)) with (p +:+ "," +:+ rest).
        by rewrite !bytes_of_app. }
      rewrite Hc.
      destruct buf as [|c buf].
      * rewrite app_nil_l. destruct (bytes_of p) eqn:E; [done|]. reflexivity.
      * destruct ((c :: buf) ++ bytes_of ",") eqn:E1; [discriminate|].
        rewrite <- E1.
        destruct (((c :: buf) ++ bytes_of ",") ++ bytes_of p) eqn:E2;
          [rewrite E1 in E2; discriminate|].
        rewrite <- E2. rewrite <- !app_assoc. reflexivity.
Qed.

Lemma key_value_nonempty a : recognized a = true -> key_value a <> "".
Proof.
  unfold recognized, key_value. intros H%bool_decide_eq_true.
  destruct (lookup_key_recognized _ H) as [_ Hne].
  destruct (key_name (pkix.Type_ a)); [done|discriminate].
Qed.

(** The code computes what the specification describes. *)
Lemma clientIdByName_DeriveIdentity subject :
  clientIdByName subject = Some (DeriveIdentity subject).
Proof.
  unfold clientIdByName, typeValsToBytes, DeriveIdentity.
  rewrite typeVals_loop_clean, join_onto_concat.
  - destruct (map key_value _); simpl; [reflexivity|].
    by rewrite string_of_bytes_of.
  - apply Forall_forall. intros p Hp.
    apply list_elem_of_fmap in Hp as (a & -> & Ha).
    apply list_elem_of_filter in Ha as [Ha _]. by apply key_value_nonempty.
Qed.

(** C1. For every certificate subject the derived identity is the
    comma-joined sequence of [key=value] pairs of the recognized attributes,
    in stored order, every value byte outside [A-Za-z0-9_-] replaced by an
    underscore; the subject (O = "Acme Co.", CN = "test user!") derives to
    "O=Acme_Co_,CN=test_user_". *)
Theorem identity_string_is_joined_pairs :
  (forall subject : pkix.Name, clientIdByName subject = Some (DeriveIdentity subject))
  /\ clientIdByName acme = Some "O=Acme_Co_,CN=test_user_".
Proof.
  split; [apply clientIdByName_DeriveIdentity|reflexivity].
Qed.

Lemma Forall_bytes_of_app (P : ascii -> Prop) s1 s2 :
  Forall P (bytes_of s1) -> Forall P (bytes_of s2) -> Forall P (bytes_of (s1 +:+ s2)).
Proof. intros H1 H2. rewrite bytes_of_app. by apply Forall_app. Qed.

Lemma Forall_bytes_of_concat (P : ascii -> Prop) sep l :
  Forall P (bytes_of sep) ->
  Forall (fun s => Forall P (bytes_of s)) l ->
  Forall P (bytes_of (String.concat sep l)).
Proof.
  intros Hsep Hl. induction Hl as [|s l Hs Hl IH]; [constructor|].
  destruct l as [|s' l]; [exact Hs|].
  change (String.concat sep (s :: s' :: l)) with (s +:+ sep +:+ String.concat sep (s' :: l)).
  auto using Forall_bytes_of_app.
Qed.

Lemma sanitize_identity_bytes v :
  Forall (fun c => identity_byte c = true) (bytes_of (sanitize v)).
Proof.
  unfold sanitize. rewrite bytes_of_string_of. apply Forall_map, Forall_forall.
  intros c _. simpl. unfold identity_byte. destruct (safe_byte c) eqn:E.
  - by rewrite E.
  - reflexivity.
Qed.

Lemma key_name_identity_bytes ty :
  ty ∈ recognized_oids -> Forall (fun c => identity_byte c = true) (bytes_of (key_name ty)).
Proof.
  unfold recognized_oids. intros H.
  repeat (apply elem_of_cons in H as [->|H];
          [vm_compute; repeat constructor|]).
  by apply elem_of_nil in H.
Qed.

(** C2. Every byte of the identity string that the derivation returns lies
    in [A-Za-z0-9_=,-]. *)
Theorem identity_string_alphabet (subject : pkix.Name) :
  exists id, clientIdByName subject = Some id
             /\ Forall (fun c => identity_byte c = true) (bytes_of id).
Proof.
  exists (DeriveIdentity subject). split; [apply clientIdByName_DeriveIdentity|].
  unfold DeriveIdentity. apply Forall_bytes_of_concat.
  - vm_compute. repeat constructor.
  - apply Forall_forall. intros p Hp.
    apply list_elem_of_fmap in Hp as (a & -> & Ha).
    apply list_elem_of_filter in Ha as [Ha _].
    unfold recognized in Ha. apply bool_decide_eq_true in Ha.
    unfold key_value. repeat apply Forall_bytes_of_app.
    + by apply key_name_identity_bytes.
    + vm_compute. repeat constructor.
    + apply sanitize_identity_bytes.
Qed.

(** C3. A subject without any recognized attribute, the empty attribute
    list included, derives to the empty string, and the derivation does not
    panic. *)
Theorem no_recognized_attribute_empty_identity (subject : pkix.Name) :
  Forall (fun a => recognized a = false) (pkix.Names subject) ->
  clientIdByName subject = Some "".
Proof.
  intros H. rewrite clientIdByName_DeriveIdentity. f_equal.
  unfold DeriveIdentity.
  replace (filter _ (pkix.Names subject)) with (@nil pkix.AttributeTypeAndValue);
    [reflexivity|].
  symmetry. induction H as [|a l Ha H IH]; [reflexivity|].
  rewrite filter_cons, decide_False by congruence. exact IH.
Qed.

Lemma no_recognized_attribute_witness :
  Forall (fun a => recognized a = false) (pkix.Names unrecognized_subject)
  /\ clientIdByName unrecognized_subject = Some "".
Proof.
  assert (H : Forall (fun a => recognized a = false) (pkix.Names unrecognized_subject))
    by (repeat constructor).
  split; [exact H|].
  exact (no_recognized_attribute_empty_identity unrecognized_subject H).
Defined.

Example empty_subject_identity : clientIdByName {| pkix.Names := [] |} = Some "".
Proof. reflexivity. Qed.

(** ** printClientIdTo *)

Section PrintClientIdFacts.

Variable ReadFile : string -> list pem.Block + error.
Variable ParseCertificate : bytes -> x509.Certificate + error.

Lemma decode_loop_skips skipped rest :
  Forall (fun b => is_certificate_block b = false) skipped ->
  decode_loop ParseCertificate (skipped ++ rest) = decode_loop ParseCertificate rest.
Proof.
  induction 1 as [|b skipped Hb _ IH]; [reflexivity|].
  simpl. unfold is_certificate_block in Hb.
  destruct (String.eqb (pem.Type_ b) "CERTIFICATE"); simpl in *; [|exact IH].
  rewrite Hb. simpl. exact IH.
Qed.

(** C10, as amended. When the first block of type CERTIFICATE without
    headers in the file does not parse as a certificate,
    [printClientIdTo] returns nil and writes nothing. *)
Theorem first_certificate_unparsable_is_swallowed
    (w certFile : string) (skipped rest : list pem.Block) (block : pem.Block) (e : error) :
  ReadFile certFile = inl (skipped ++ block :: rest) ->
  Forall (fun b => is_certificate_block b = false) skipped ->
  is_certificate_block block = true ->
  ParseCertificate (pem.Bytes block) = inr e ->
  printClientIdTo ReadFile ParseCertificate w certFile = Some (w, None).
Proof.
  intros Hread Hskip Hblock Hparse. unfold printClientIdTo.
  rewrite Hread, decode_loop_skips by exact Hskip.
  simpl. unfold is_certificate_block in Hblock.
  apply andb_true_iff in Hblock as [-> ->]. simpl. rewrite Hparse. reflexivity.
Qed.

End PrintClientIdFacts.

Lemma first_certificate_unparsable_witness :
  printClientIdTo sample_files sample_parse "" "bad.pem" = Some ("", None).
Proof.
  apply (first_certificate_unparsable_is_swallowed sample_files sample_parse
           "" "bad.pem" [key_block] [good_block] bad_block
           (LibraryError "asn1: syntax error")).
  - reflexivity.
  - repeat constructor.
  - reflexivity.
  - reflexivity.
Defined.

(** C10, as stated, fails: the file below contains a CERTIFICATE block that
    does not parse, after one that does; the identity of the first is
    written. *)
Lemma unparsable_certificate_after_valid_one :
  sample_files "good-then-bad.pem" = inl [good_block; bad_block]
  /\ bad_block ∈ [good_block; bad_block]
  /\ pem.Type_ bad_block = "CERTIFICATE"
  /\ sample_parse (pem.Bytes bad_block) = inr (LibraryError "asn1: syntax error")
  /\ printClientIdTo sample_files sample_parse "" "good-then-bad.pem"
     = Some ("O=Acme_Co_,CN=test_user_" +:+ newline, None)
  /\ printClientIdTo sample_files sample_parse "" "good-then-bad.pem" <> Some ("", None).
Proof.
  repeat split; try reflexivity.
  - set_solver.
  - vm_compute. discriminate.
Qed.

(** ** The worker pool *)

(** A weighted count over the threads, and what an update of one thread
    does to it. *)
Lemma sum_list_with_insert {A} (f : A -> nat) (l : list A) i x y :
  l !! i = Some x ->
  sum_list_with f (<[i := y]> l) + f x = sum_list_with f l + f y.
Proof.
  revert i. induction l as [|a l IH]; intros i Hi; [done|].
  destruct i as [|i]; simpl in *.
  - injection Hi as ->. lia.
  - specialize (IH i Hi). lia.
Qed.

Lemma sum_list_with_pos {A} (f : A -> nat) (l : list A) :
  0 < sum_list_with f l -> exists i x, l !! i = Some x /\ 0 < f x.
Proof.
  induction l as [|a l IH]; simpl; [lia|]. intros H.
  destruct (f a) eqn:E.
  - destruct IH as (i & x & Hi & Hx); [lia|]. by exists (S i), x.
  - exists 0, a. split; [done|lia].
Qed.

Lemma sum_list_with_zero {A} (f : A -> nat) (l : list A) :
  Forall (fun x => f x = 0) l -> sum_list_with f l = 0.
Proof. induction 1 as [|x l Hx _ IH]; simpl; lia. Qed.

Lemma sum_list_with_indicator {A} (p : A -> bool) (l : list A) :
  sum_list_with (fun x => if p x then 1 else 0) l = length (filter (fun x => p x = true) l).
Proof.
  induction l as [|a l IH]; [reflexivity|].
  rewrite filter_cons. simpl. destruct (p a).
  - rewrite decide_True by done. simpl. lia.
  - rewrite decide_False by done. lia.
Qed.

Lemma sum_list_with_replicate {A} (f : A -> nat) n x :
  sum_list_with f (replicate n x) = n * f x.
Proof. induction n; simpl; lia. Qed.

Lemma sum_list_with_ext {A} (f g : A -> nat) (l : list A) :
  (forall x, f x = g x) -> sum_list_with f l = sum_list_with g l.
Proof. intros H. induction l as [|a l IH]; simpl; [reflexivity|]. by rewrite H, IH. Qed.

Lemma pool_inv_init k n : pool_inv k (pool_init k n).
Proof.
  unfold pool_inv, pool_init. simpl.
  rewrite !sum_list_with_replicate. simpl. rewrite Nat.mul_0_r. lia.
Qed.

Lemma pool_inv_step k s s' : pool_inv k s -> pool_trans s s' -> pool_inv k s'.
Proof.
  intros (Hcap & Hlen & Hle & Hwg) [c Hc]. unfold pool_inv.
  destruct s as [[wg cap len] ts]. simpl in *. subst cap.
  destruct c as [i|i j]; simpl in Hc.
  - destruct (ts !! i) as [pc|] eqn:Hi; [|discriminate].
    pose proof (sum_list_with_insert slot_weight ts i pc) as Hs.
    pose proof (sum_list_with_insert wg_weight ts i pc) as Hw.
    destruct pc; unfold task_next, chan_send, chan_recv, wg_Done, wg_Add in Hc; simpl in Hc.
    + destruct (len <? k)%nat eqn:Hlt; [|discriminate]. apply Nat.ltb_lt in Hlt.
      injection Hc as <-. simpl.
      specialize (Hs HireAdd Hi). specialize (Hw HireAdd Hi). simpl in *. lia.
    + injection Hc as <-. simpl.
      specialize (Hs Hired Hi). specialize (Hw Hired Hi). simpl in *. lia.
    + destruct wg as [|wg]; [discriminate|]. injection Hc as <-. simpl.
      specialize (Hs ReleaseRecv Hi). specialize (Hw ReleaseRecv Hi).
      simpl in *. lia.
    + destruct len as [|len]; [discriminate|]. injection Hc as <-. simpl.
      specialize (Hs Released Hi). specialize (Hw Released Hi).
      simpl in *. lia.
    + discriminate.
  - destruct k; [|discriminate].
    destruct (ts !! i) as [[]|] eqn:Hi; try discriminate.
    destruct (ts !! j) as [[]|] eqn:Hj; try discriminate.
    pose proof (sum_list_with_in ReleaseRecv slot_weight ts) as Hin.
    exfalso. assert (ReleaseRecv ∈ ts) by (eapply list_elem_of_lookup_2; eauto).
    specialize (Hin H). simpl in Hin. lia.
Qed.

(** The two statements of Hire, run by task [i] one after the other, are
    Hire on the pool; likewise for Release. *)
Lemma task_runs_Hire i s pool' :
  tasks s !! i = Some HireSend ->
  Hire (the_pool s) = Next pool' ->
  pool_run [RunTask i; RunTask i] s
  = {| the_pool := pool'; tasks := <[i := Hired]> (tasks s) |}.
Proof.
  intros Hi HH. unfold Hire in HH. simpl. rewrite Hi. unfold task_next.
  destruct (chan_send (the_pool s)) as [p| |]; try discriminate.
  injection HH as <-. simpl.
  rewrite list_lookup_insert_eq by (by eapply lookup_lt_Some).
  simpl. by rewrite list_insert_insert_eq.
Qed.

Lemma task_runs_Release i s pool' :
  tasks s !! i = Some Hired ->
  Release (the_pool s) = Next pool' ->
  pool_run [RunTask i; RunTask i] s
  = {| the_pool := pool'; tasks := <[i := Released]> (tasks s) |}.
Proof.
  intros Hi HR. unfold Release in HR. simpl. rewrite Hi. unfold task_next.
  destruct (wg_Done (the_pool s)) as [p| |]; try discriminate. simpl.
  rewrite list_lookup_insert_eq by (by eapply lookup_lt_Some).
  rewrite HR. simpl. by rewrite list_insert_insert_eq.
Qed.

Lemma pool_reachable_inv k n s : pool_reachable k n s -> pool_inv k s.
Proof.
  induction 1 as [|s s' _ IH Hstep]; [apply pool_inv_init|].
  eapply pool_inv_step; eauto.
Qed.

Lemma pool_run_reachable k n sched s :
  pool_reachable k n s -> pool_reachable k n (pool_run sched s).
Proof.
  revert s. induction sched as [|c sched IH]; intros s Hs; [exact Hs|].
  simpl. destruct (pool_step c s) as [s'| |] eqn:E; try (apply IH; exact Hs).
  apply IH. eapply pool_reach_step; [exact Hs|]. by exists c.
Qed.

(** C9. On a pool of limit [k] with [n] tasks calling Hire concurrently,
    [k < n], at most [k] tasks are unblocked in any state the tasks can
    reach; and in a state where every task for which Hire returned has
    called Release, Wait returns. *)
Theorem worker_pool_bound_and_drain (k n : nat) (s : pool_state) :
  k < n ->
  pool_reachable k n s ->
  count_unblocked s <= k
  /\ (Forall (fun pc => hired pc = true -> called_Release pc = true) (tasks s) ->
      Wait (the_pool s) = Next (the_pool s)).
Proof.
  intros _ Hreach. apply pool_reachable_inv in Hreach as (Hcap & Hlen & Hle & Hwg).
  split.
  - unfold count_unblocked. rewrite <- sum_list_with_indicator.
    rewrite (sum_list_with_ext _ slot_weight); [lia|]. by intros [].
  - intros Hall. unfold Wait. rewrite Hwg, sum_list_with_zero; [reflexivity|].
    eapply Forall_impl; [exact Hall|]. intros []; simpl; intros H; try reflexivity.
    specialize (H eq_refl). discriminate.
Qed.

Lemma worker_pool_witness :
  count_unblocked sample_pool_state <= 1
  /\ (Forall (fun pc => hired pc = true -> called_Release pc = true) (tasks sample_pool_state) ->
      Wait (the_pool sample_pool_state) = Next (the_pool sample_pool_state)).
Proof.
  apply (worker_pool_bound_and_drain 1 2 sample_pool_state).
  - lia.
  - apply pool_run_reachable. constructor.
Defined.

Example sample_pool_state_value :
  sample_pool_state
  = {| the_pool := {| WaitGroup := 0; worker_cap := 1; worker_len := 1 |};
       tasks := [Released; HireAdd] |}.
Proof. reflexivity. Qed.

(** ** The directory scanner *)

Ltac use_insert Hi new :=
  match type of Hi with
  | ?gs !! ?i = Some ?old =>
      pose proof (sum_list_with_insert slot_of gs i old new Hi);
      pose proof (sum_list_with_insert counted gs i old new Hi);
      pose proof (sum_list_with_insert critical gs i old new Hi);
      pose proof (sum_list_with_insert go_measure gs i old new Hi);
      pose proof (sum_list_with_in old slot_of gs (list_elem_of_lookup_2 _ _ _ Hi));
      pose proof (sum_list_with_in old counted gs (list_elem_of_lookup_2 _ _ _ Hi));
      pose proof (sum_list_with_in old critical gs (list_elem_of_lookup_2 _ _ _ Hi))
  end.

(** Case analysis on a step: what ran, and on what. *)
Ltac step_cases Hc :=
  match type of Hc with
  | scan_step _ _ _ _ ?c ?s = _ =>
      destruct s as [m [wg cap len] [lk ents] gs lg];
      destruct c as [|i|i]; simpl in Hc;
      [ unfold main_step in Hc; simpl in Hc;
        destruct m as [[|entry rest]|entry rest|entry rest|entry rest| |]; simpl in Hc;
        try discriminate
      | unfold go_step in Hc; simpl in Hc;
        let Hi := fresh "Hi" in
        destruct (gs !! i) as [[name pc]|] eqn:Hi; [|discriminate];
        destruct pc; simpl in Hc
      | unfold handoff_step in Hc; simpl in Hc;
        destruct cap; [|discriminate];
        destruct m; try discriminate;
        let Hi := fresh "Hi" in
        destruct (gs !! i) as [[name []]|] eqn:Hi; try discriminate ]
  end.

Section ScanFacts.

Variable NewIpkgFromFile : string -> string -> bool -> bool -> Ipkg + error.
Variable dir : string.
Variables addMd5 addSha1 : bool.

Local Abbreviation parse name := (NewIpkgFromFile name dir addMd5 addSha1).
Local Abbreviation step := (scan_step NewIpkgFromFile dir addMd5 addSha1).
Local Abbreviation trans := (scan_trans NewIpkgFromFile dir addMd5 addSha1).
Local Abbreviation panics := (scan_panics NewIpkgFromFile dir addMd5 addSha1).
Local Abbreviation reachable := (scan_reachable NewIpkgFromFile dir addMd5 addSha1).

Lemma scan_counts_step s s' : scan_counts s -> trans s s' -> scan_counts s'.
Proof.
  intros (Hlen & Hle & Hwg & Hmx & Hret) [c Hc]. unfold scan_counts.
  step_cases Hc; simpl in *.
  - injection Hc as <-. simpl. repeat split; try lia; try done.
  - destruct (negb _); injection Hc as <-; simpl; repeat split; try lia; try done.
  - unfold chan_send in Hc. simpl in Hc.
    destruct (len <? cap)%nat eqn:Hlt; [|discriminate]. apply Nat.ltb_lt in Hlt.
    injection Hc as <-. simpl. repeat split; try lia; try done.
  - injection Hc as <-. simpl. repeat split; try lia; try done.
  - injection Hc as <-. simpl. rewrite !sum_list_with_app. simpl.
    repeat split; try lia; try done.
  - destruct wg; [|discriminate]. injection Hc as <-. simpl.
    repeat split; try lia; try done.
  - destruct (parse name) as [ipkg|err].
    + injection Hc as <-. simpl. use_insert Hi (name, GLock ipkg). simpl in *.
      repeat split; try lia. intros ->. specialize (Hret eq_refl). lia.
    + injection Hc as <-. simpl. use_insert Hi (name, GDone). simpl in *.
      repeat split; try lia. intros ->. specialize (Hret eq_refl). lia.
  - destruct lk; [discriminate|]. injection Hc as <-. simpl.
    use_insert Hi (name, GStore ipkg). simpl in *.
    repeat split; try lia. intros ->. specialize (Hret eq_refl). lia.
  - injection Hc as <-. simpl. use_insert Hi (name, GUnlock). simpl in *.
    repeat split; try lia. intros ->. specialize (Hret eq_refl). lia.
  - destruct lk; [|discriminate]. injection Hc as <-. simpl.
    use_insert Hi (name, GDone). simpl in *.
    repeat split; try lia. intros ->. specialize (Hret eq_refl). lia.
  - unfold wg_Done in Hc. simpl in Hc. destruct wg; [discriminate|].
    injection Hc as <-. simpl. use_insert Hi (name, GRecv). simpl in *.
    repeat split; try lia. intros ->. specialize (Hret eq_refl). lia.
  - unfold chan_recv in Hc. simpl in Hc. destruct len; [discriminate|].
    injection Hc as <-. simpl. use_insert Hi (name, GExit). simpl in *.
    repeat split; try lia. intros ->. specialize (Hret eq_refl). lia.
  - discriminate.
  - injection Hc as <-. simpl. use_insert Hi (name, GExit). simpl in *.
    repeat split; try lia; try discriminate.
Qed.

Lemma scan_measure_step s s' : trans s s' -> scan_measure s' < scan_measure s.
Proof.
  intros [c Hc]. unfold scan_measure.
  step_cases Hc; simpl in *.
  - injection Hc as <-. simpl. lia.
  - destruct (negb _); injection Hc as <-; simpl; lia.
  - unfold chan_send in Hc. simpl in Hc.
    destruct (len <? cap)%nat; [|discriminate]. injection Hc as <-. simpl. lia.
  - injection Hc as <-. simpl. lia.
  - injection Hc as <-. simpl. rewrite !sum_list_with_app. simpl. lia.
  - destruct wg; [|discriminate]. injection Hc as <-. simpl. lia.
  - destruct (parse name) as [ipkg|err]; injection Hc as <-; simpl.
    + use_insert Hi (name, GLock ipkg). simpl in *. lia.
    + use_insert Hi (name, GDone). simpl in *. lia.
  - destruct lk; [discriminate|]. injection Hc as <-. simpl.
    use_insert Hi (name, GStore ipkg). simpl in *. lia.
  - injection Hc as <-. simpl. use_insert Hi (name, GUnlock). simpl in *. lia.
  - destruct lk; [|discriminate]. injection Hc as <-. simpl.
    use_insert Hi (name, GDone). simpl in *. lia.
  - unfold wg_Done in Hc. simpl in Hc. destruct wg; [discriminate|].
    injection Hc as <-. simpl. use_insert Hi (name, GRecv). simpl in *. lia.
  - unfold chan_recv in Hc. simpl in Hc. destruct len; [discriminate|].
    injection Hc as <-. simpl. use_insert Hi (name, GExit). simpl in *. lia.
  - discriminate.
  - injection Hc as <-. simpl. use_insert Hi (name, GExit). simpl in *. lia.
Qed.

Lemma scan_counts_no_panic s : scan_counts s -> ~ panics s.
Proof.
  intros (Hlen & Hle & Hwg & Hmx & Hret) [c Hc].
  step_cases Hc; simpl in *; try discriminate.
  - destruct (negb _); discriminate.
  - unfold chan_send in Hc. simpl in Hc. destruct (len <? cap)%nat; discriminate.
  - destruct wg; discriminate.
  - destruct (parse name); discriminate.
  - destruct lk; discriminate.
  - destruct lk; [discriminate|]. use_insert Hi (name, GUnlock). simpl in *. lia.
  - destruct wg; [|discriminate]. use_insert Hi (name, GDone). simpl in *. lia.
  - unfold chan_recv in Hc. simpl in Hc. destruct len; discriminate.
Qed.

(** A goroutine that has not exited can run, or the holder of the mutex
    can. *)
Lemma go_progress s i name pc :
  scan_counts s ->
  goroutines s !! i = Some (name, pc) ->
  pc <> GExit ->
  exists s', trans s s'.
Proof.
  intros (Hlen & Hle & Hwg & Hmx & Hret) Hi Hpc.
  destruct s as [m [wg cap len] [lk ents] gs lg]. simpl in *.
  assert (Hrun : forall j n' pc' s',
             gs !! j = Some (n', pc') ->
             (go_step NewIpkgFromFile dir addMd5 addSha1 j
                {| main := m; workers := {| WaitGroup := wg; worker_cap := cap; worker_len := len |};
                   packages := {| locked := lk; Entries := ents |};
                   goroutines := gs; logged := lg |} = Next s') ->
             exists s', trans
                {| main := m; workers := {| WaitGroup := wg; worker_cap := cap; worker_len := len |};
                   packages := {| locked := lk; Entries := ents |};
                   goroutines := gs; logged := lg |} s').
  { intros j n' pc' s' _ Hs. exists s', (RunGo j). exact Hs. }
  use_insert Hi (name, pc).
  destruct pc; try done.
  - destruct (parse name) as [ipkg|err] eqn:E; eapply (Hrun i); eauto;
      unfold go_step; simpl; rewrite Hi, E; reflexivity.
  - destruct lk.
    + destruct (sum_list_with_pos critical gs) as (j & [n' pc'] & Hj & Hcrit); [lia|].
      destruct pc'; simpl in Hcrit; try lia;
        eapply (Hrun j); eauto; unfold go_step; simpl; rewrite Hj; reflexivity.
    + eapply (Hrun i); eauto. unfold go_step. simpl. rewrite Hi. reflexivity.
  - eapply (Hrun i); eauto. unfold go_step. simpl. rewrite Hi. reflexivity.
  - simpl in *. destruct lk; [|lia].
    eapply (Hrun i); eauto. unfold go_step. simpl. rewrite Hi. reflexivity.
  - simpl in *. destruct wg; [lia|].
    eapply (Hrun i); eauto. unfold go_step. simpl. rewrite Hi. reflexivity.
  - simpl in *. destruct len; [lia|].
    eapply (Hrun i); eauto. unfold go_step. simpl. rewrite Hi. reflexivity.
Qed.

(** With room for one worker at least, the scan is never stuck before
    the caller has returned. *)
Lemma scan_progress s :
  scan_counts s ->
  1 <= worker_cap (workers s) ->
  main s <> MReturned ->
  exists s', trans s s'.
Proof.
  intros Hinv Hcap Hmain. pose proof Hinv as (Hlen & Hle & Hwg & Hmx & Hret).
  destruct s as [m [wg cap len] [lk ents] gs lg]. simpl in *.
  destruct m as [[|entry rest]|entry rest|entry rest|entry rest| |]; try done.
  - eexists. exists RunMain. reflexivity.
  - destruct (negb (String.eqb (Ext entry) ".ipk")) eqn:E;
      eexists; exists RunMain; simpl; unfold main_step; simpl; rewrite E; reflexivity.
  - destruct (len <? cap)%nat eqn:Hlt.
    + eexists. exists RunMain. simpl. unfold main_step, chan_send. simpl.
      rewrite Hlt. reflexivity.
    + apply Nat.ltb_ge in Hlt. simpl in *.
      destruct (sum_list_with_pos slot_of gs) as (j & [n' pc'] & Hj & Hslot); [lia|].
      eapply (go_progress _ j n' pc'); eauto.
      intros ->. simpl in Hslot. lia.
  - eexists. exists RunMain. reflexivity.
  - eexists. exists RunMain. reflexivity.
  - destruct wg as [|wg].
    + eexists. exists RunMain. reflexivity.
    + simpl in *.
      destruct (sum_list_with_pos counted gs) as (j & [n' pc'] & Hj & Hcnt); [lia|].
      eapply (go_progress _ j n' pc'); eauto.
      intros ->. simpl in Hcnt. lia.
Qed.

Lemma scan_cap_step s s' : trans s s' -> worker_cap (workers s') = worker_cap (workers s).
Proof.
  intros [c Hc]. step_cases Hc; simpl in *.
  - by injection Hc as <-.
  - destruct (negb _); by injection Hc as <-.
  - unfold chan_send in Hc. simpl in Hc.
    destruct (len <? cap)%nat; [|discriminate]. by injection Hc as <-.
  - by injection Hc as <-.
  - by injection Hc as <-.
  - destruct wg; [|discriminate]. by injection Hc as <-.
  - destruct (parse name); by injection Hc as <-.
  - destruct lk; [discriminate|]. by injection Hc as <-.
  - by injection Hc as <-.
  - destruct lk; [|discriminate]. by injection Hc as <-.
  - destruct wg; [discriminate|]. by injection Hc as <-.
  - unfold chan_recv in Hc. simpl in Hc. destruct len; [discriminate|]. by injection Hc as <-.
  - discriminate.
  - by injection Hc as <-.
Qed.

End ScanFacts.

Lemma elem_of_list_insert_inv {A} (l : list A) i x y :
  x ∈ <[i := y]> l -> x = y \/ x ∈ l.
Proof.
  intros (j & Hj)%list_elem_of_lookup_1.
  apply list_lookup_insert_Some in Hj as [(_ & -> & _)|[_ Hj]]; [by left|].
  right. by eapply list_elem_of_lookup_2.
Qed.

Lemma fst_list_insert {A B} (l : list (A * B)) i a b b' :
  l !! i = Some (a, b) -> (<[i := (a, b')]> l).*1 = l.*1.
Proof.
  intros Hi. rewrite list_fmap_insert. simpl.
  apply list_insert_id. by rewrite list_lookup_fmap, Hi.
Qed.

Section ScanIndex.

Variable NewIpkgFromFile : string -> string -> bool -> bool -> Ipkg + error.
Variable dir : string.
Variables addMd5 addSha1 : bool.

Local Abbreviation parse name := (NewIpkgFromFile name dir addMd5 addSha1).
Local Abbreviation step := (scan_step NewIpkgFromFile dir addMd5 addSha1).
Local Abbreviation trans := (scan_trans NewIpkgFromFile dir addMd5 addSha1).
Local Abbreviation panics := (scan_panics NewIpkgFromFile dir addMd5 addSha1).
Local Abbreviation reachable := (scan_reachable NewIpkgFromFile dir addMd5 addSha1).
Local Abbreviation index_of' := (index_of NewIpkgFromFile dir addMd5 addSha1).
Local Abbreviation valid_files' := (valid_files NewIpkgFromFile dir addMd5 addSha1).
Local Abbreviation entries_inv := (entries_inv NewIpkgFromFile dir addMd5 addSha1).
Local Abbreviation scan_inv := (scan_inv NewIpkgFromFile dir addMd5 addSha1).

Lemma entries_inv_update gs ents ents' i name pc pc' :
  entries_inv gs ents ->
  gs !! i = Some (name, pc) ->
  (forall k, pc' = GLock k \/ pc' = GStore k -> parse name = inl k) ->
  (after_store pc' = true -> forall k, parse name = inl k -> ents' !! name = Some k) ->
  (forall n k, ents !! n = Some k -> ents' !! n = Some k) ->
  (forall n k, ents' !! n = Some k -> ents !! n = Some k \/ (n = name /\ parse name = inl k)) ->
  entries_inv (<[i := (name, pc')]> gs) ents'.
Proof.
  intros (Hpc & Hin & Hout) Hi Hnew Hstored Hmono Honly.
  assert (Hold : (name, pc) ∈ gs) by (by eapply list_elem_of_lookup_2).
  split; [|split].
  - intros n k [H|H]; apply elem_of_list_insert_inv in H as [H|H];
      first [ injection H as -> <-; apply Hnew; eauto | apply Hpc; eauto ].
  - intros n p k H Hafter Hparse.
    apply elem_of_list_insert_inv in H as [H|H].
    + injection H as -> ->. by apply Hstored.
    + apply Hmono. eapply Hin; eauto.
  - intros n k H. rewrite (fst_list_insert _ _ _ _ _ Hi).
    apply Honly in H as [H|[-> H]]; [by apply Hout|].
    split; [done|]. by apply (list_elem_of_fmap_2 fst _ (name, pc)).
Qed.

Lemma entries_inv_step s s' :
  entries_inv (goroutines s) (Entries (packages s)) ->
  trans s s' ->
  entries_inv (goroutines s') (Entries (packages s')).
Proof.
  intros Hinv [c Hc]. pose proof Hinv as (Hpc & Hin & Hout).
  step_cases Hc; simpl in *.
  - by injection Hc as <-.
  - destruct (negb _); by injection Hc as <-.
  - unfold chan_send in Hc. simpl in Hc.
    destruct (len <? cap)%nat; [|discriminate]. by injection Hc as <-.
  - by injection Hc as <-.
  - injection Hc as <-. simpl. split; [|split].
    + intros n k [H|H]; apply elem_of_app in H as [H|H];
        first [ apply list_elem_of_singleton in H; discriminate
              | apply Hpc; solve [eauto] ].
    + intros n p k H Hafter Hparse. apply elem_of_app in H as [H|H]; [eauto|].
      apply list_elem_of_singleton in H. injection H as -> ->. discriminate.
    + intros n k H. destruct (Hout _ _ H) as [Hp Hn]. split; [done|].
      rewrite fmap_app. apply elem_of_app. by left.
  - destruct wg; [|discriminate]. by injection Hc as <-.
  - destruct (parse name) as [ipkg|err] eqn:E; injection Hc as <-; simpl.
    + apply (entries_inv_update _ _ ents _ _ _ (GLock ipkg) Hinv Hi); auto.
      * intros k [H|H]; congruence.
      * discriminate.
    + apply (entries_inv_update _ _ ents _ _ _ GDone Hinv Hi); auto.
      * intros k [H|H]; discriminate.
      * intros _ k Hk. congruence.
  - destruct lk; [discriminate|]. injection Hc as <-. simpl.
    apply (entries_inv_update _ _ ents _ _ _ (GStore ipkg) Hinv Hi); auto.
    + intros k [H|H]; [discriminate|]. injection H as <-.
      apply Hpc. left. by eapply list_elem_of_lookup_2.
    + discriminate.
  - injection Hc as <-. simpl.
    assert (Hp : parse name = inl ipkg)
      by (apply Hpc; right; by eapply list_elem_of_lookup_2).
    apply (entries_inv_update _ _ (<[name := ipkg]> ents) _ _ _ GUnlock Hinv Hi).
    + intros k [H|H]; discriminate.
    + intros _ k Hk. rewrite lookup_insert_eq. congruence.
    + intros n k Hn. destruct (decide (n = name)) as [->|Hne].
      * rewrite lookup_insert_eq. apply Hout in Hn as [Hn _]. congruence.
      * by rewrite lookup_insert_ne.
    + intros n k Hn. destruct (decide (n = name)) as [->|Hne].
      * rewrite lookup_insert_eq in Hn. right. split; congruence.
      * rewrite lookup_insert_ne in Hn by done. by left.
  - destruct lk; [|discriminate]. injection Hc as <-. simpl.
    apply (entries_inv_update _ _ ents _ _ _ GDone Hinv Hi); auto.
    + intros k [H|H]; discriminate.
    + intros _ k Hk.
      eapply Hin; [by eapply list_elem_of_lookup_2|reflexivity|exact Hk].
  - destruct wg; [discriminate|]. injection Hc as <-. simpl.
    apply (entries_inv_update _ _ ents _ _ _ GRecv Hinv Hi); auto.
    + intros k [H|H]; discriminate.
    + intros _ k Hk.
      eapply Hin; [by eapply list_elem_of_lookup_2|reflexivity|exact Hk].
  - unfold chan_recv in Hc. simpl in Hc. destruct len; [discriminate|].
    injection Hc as <-. simpl.
    apply (entries_inv_update _ _ ents _ _ _ GExit Hinv Hi); auto.
    + intros k [H|H]; discriminate.
    + intros _ k Hk.
      eapply Hin; [by eapply list_elem_of_lookup_2|reflexivity|exact Hk].
  - discriminate.
  - injection Hc as <-. simpl.
    apply (entries_inv_update _ _ ents _ _ _ GExit Hinv Hi); auto.
    + intros k [H|H]; discriminate.
    + intros _ k Hk.
      eapply Hin; [by eapply list_elem_of_lookup_2|reflexivity|exact Hk].
Qed.

Lemma names_inv_step entries s s' : names_inv entries s -> trans s s' -> names_inv entries s'.
Proof.
  unfold names_inv. intros Hinv [c Hc].
  step_cases Hc; simpl in *.
  - by injection Hc as <-.
  - rewrite filter_cons in Hinv.
    destruct (decide (is_package_file entry = true)) as [Hp|Hp];
      unfold is_package_file in Hp.
    + rewrite Hp in Hc. simpl in Hc. by injection Hc as <-.
    + apply not_true_is_false in Hp. rewrite Hp in Hc. simpl in Hc.
      by injection Hc as <-.
  - unfold chan_send in Hc. simpl in Hc.
    destruct (len <? cap)%nat; [|discriminate]. by injection Hc as <-.
  - by injection Hc as <-.
  - injection Hc as <-. simpl. rewrite fmap_app, <- app_assoc. exact Hinv.
  - destruct wg; [|discriminate]. by injection Hc as <-.
  - destruct (parse name); injection Hc as <-; simpl;
      by rewrite (fst_list_insert _ _ _ _ _ Hi).
  - destruct lk; [discriminate|]. injection Hc as <-. simpl.
    by rewrite (fst_list_insert _ _ _ _ _ Hi).
  - injection Hc as <-. simpl. by rewrite (fst_list_insert _ _ _ _ _ Hi).
  - destruct lk; [|discriminate]. injection Hc as <-. simpl.
    by rewrite (fst_list_insert _ _ _ _ _ Hi).
  - destruct wg; [discriminate|]. injection Hc as <-. simpl.
    by rewrite (fst_list_insert _ _ _ _ _ Hi).
  - unfold chan_recv in Hc. simpl in Hc. destruct len; [discriminate|].
    injection Hc as <-. simpl. by rewrite (fst_list_insert _ _ _ _ _ Hi).
  - discriminate.
  - injection Hc as <-. simpl. by rewrite (fst_list_insert _ _ _ _ _ Hi).
Qed.

Lemma index_of_lookup entries name :
  index_of' entries !! name =
  if decide (name ∈ filter (fun e => is_package_file e = true) entries)
  then match parse name with inl k => Some k | inr _ => None end
  else None.
Proof.
  induction entries as [|entry rest IH]; simpl.
  - apply lookup_empty.
  - rewrite filter_cons.
    destruct (decide (is_package_file entry = true)) as [Hp|Hp].
    + rewrite Hp. destruct (decide (name = entry)) as [->|Hne].
      * rewrite (decide_True (P := entry ∈ entry :: _)) by (apply elem_of_cons; by left).
        destruct (parse entry) as [k|e] eqn:E; [by rewrite lookup_insert_eq|].
        rewrite IH. by destruct (decide _).
      * assert (Hiff : name ∈ entry :: filter (fun e => is_package_file e = true) rest
                       <-> name ∈ filter (fun e => is_package_file e = true) rest)
          by (rewrite elem_of_cons; split; [intros [?|?]; [congruence|done]|by right]).
        destruct (parse entry) as [k|e]; [rewrite lookup_insert_ne by done|];
          rewrite IH; repeat case_decide; tauto.
    + apply not_true_is_false in Hp. rewrite Hp. exact IH.
Qed.

Lemma index_of_dom entries :
  dom (index_of' entries) = list_to_set (valid_files' entries).
Proof.
  unfold valid_files, parses.
  induction entries as [|entry rest IH]; simpl; [by rewrite dom_empty_L|].
  rewrite filter_cons.
  destruct (decide (is_package_file entry = true)) as [Hp|Hp].
  - rewrite Hp, filter_cons. destruct (parse entry) as [k|e].
    + rewrite decide_True by done. rewrite dom_insert_L, IH. reflexivity.
    + rewrite decide_False by done. exact IH.
  - apply not_true_is_false in Hp. rewrite Hp. exact IH.
Qed.

Lemma index_of_size entries :
  NoDup entries -> size (index_of' entries) = length (valid_files' entries).
Proof.
  unfold valid_files, parses.
  induction 1 as [|entry rest Hnotin Hnd IH]; simpl; [apply map_size_empty|].
  rewrite filter_cons.
  destruct (decide (is_package_file entry = true)) as [Hp|Hp].
  - rewrite Hp, filter_cons. destruct (parse entry) as [k|e].
    + rewrite decide_True by done. simpl. rewrite map_size_insert_None, IH; [done|].
      rewrite index_of_lookup, decide_False; [done|].
      intros [_ H]%list_elem_of_filter. done.
    + rewrite decide_False by done. exact IH.
  - apply not_true_is_false in Hp. rewrite Hp. exact IH.
Qed.

Lemma scan_inv_init entries pool :
  WaitGroup pool = 0 -> worker_len pool = 0 ->
  scan_inv entries (scan_init entries pool).
Proof.
  intros Hwg Hlen. split; [|split].
  - unfold scan_counts. simpl. rewrite Hwg, Hlen. repeat split; lia || discriminate.
  - split; [|split]; simpl.
    + intros n k [H|H]; by apply elem_of_nil in H.
    + intros n p k H. by apply elem_of_nil in H.
    + intros n k H. by rewrite lookup_empty in H.
  - reflexivity.
Qed.

Lemma scan_inv_step entries s s' : scan_inv entries s -> trans s s' -> scan_inv entries s'.
Proof.
  intros (Hc & He & Hn) Hstep. split; [|split];
    eauto using scan_counts_step, entries_inv_step, names_inv_step.
Qed.

Lemma scan_inv_reachable entries init s :
  scan_inv entries init -> reachable init s ->
  scan_inv entries s /\ worker_cap (workers s) = worker_cap (workers init).
Proof.
  intros Hinit. induction 1 as [|s s' _ [IH1 IH2] Hstep]; [done|].
  split; [by eapply scan_inv_step|].
  by rewrite (scan_cap_step _ _ _ _ _ _ Hstep).
Qed.

(** Once the caller has returned, the map is the index of the listing. *)
Lemma scan_inv_returned entries s :
  scan_inv entries s -> main s = MReturned ->
  Entries (packages s) = index_of' entries.
Proof.
  intros ((Hlen & Hle & Hwg & Hmx & Hret) & (Hpc & Hin & Hout) & Hn) Hmain.
  unfold names_inv in Hn. rewrite Hmain in Hn, Hwg. simpl in Hn, Hwg.
  rewrite app_nil_r in Hn. specialize (Hret Hmain).
  apply map_eq. intros name. rewrite index_of_lookup, <- Hn.
  destruct (decide (name ∈ (goroutines s).*1)) as [Hname|Hname].
  - apply list_elem_of_fmap in Hname as ([n pc] & -> & Hg). simpl.
    destruct (parse n) as [k|e] eqn:E.
    + eapply Hin; [exact Hg| |exact E].
      pose proof (sum_list_with_in _ counted _ Hg) as Hcnt.
      destruct pc; simpl in Hcnt; try reflexivity; lia.
    + destruct (Entries (packages s) !! n) as [k|] eqn:Hk; [|done].
      apply Hout in Hk as [Hk _]. congruence.
  - destruct (Entries (packages s) !! name) as [k|] eqn:Hk; [|done].
    apply Hout in Hk as [_ Hk]. done.
Qed.

(** Whatever the scheduler does, a scan with room for a worker returns
    the index of the listing. *)
Lemma main_returned_or_not (m : main_pc) : m = MReturned \/ m <> MReturned.
Proof. destruct m; (by left) || (by right). Qed.

Lemma scan_inevitably_returns entries n s :
  scan_measure s <= n ->
  scan_inv entries s ->
  1 <= worker_cap (workers s) ->
  inevitably NewIpkgFromFile dir addMd5 addSha1 (returned (index_of' entries)) s.
Proof.
  revert s. induction n as [|n IH]; intros s Hn Hinv Hcap.
  - destruct (main_returned_or_not (main s)) as [Hm|Hm].
    + apply inev_now. split; [done|]. by apply scan_inv_returned.
    + destruct (scan_progress NewIpkgFromFile dir addMd5 addSha1 s) as [s' Hs'];
        [apply Hinv|done|done|].
      apply scan_measure_step in Hs'. lia.
  - destruct (main_returned_or_not (main s)) as [Hm|Hm].
    + apply inev_now. split; [done|]. by apply scan_inv_returned.
    + apply inev_later.
      * apply scan_counts_no_panic, Hinv.
      * apply scan_progress; [apply Hinv|done|done].
      * intros s' Hs'. apply IH.
        -- apply scan_measure_step in Hs'. lia.
        -- by eapply scan_inv_step.
        -- by rewrite (scan_cap_step _ _ _ _ _ _ Hs').
Qed.

End ScanIndex.

(** C4, as amended. With a worker limit of at least one: the call returns
    an error exactly when opening or listing the directory fails;
    otherwise, whatever the scheduler does and however many package files
    fail to parse, the call returns, without an error, the index that holds
    one record per package file that parses, keyed by filename.  The index
    is the same in every later state, and has as many records as there are
    valid files (the names of a listing being distinct). *)
Theorem scan_returns_one_record_per_valid_file
    (os_Open : string -> option error)
    (Readdirnames : string -> list string * option error)
    (NewIpkgFromFile : string -> string -> bool -> bool -> Ipkg + error)
    (dir : string) (nworkers : Z) (addMd5 addSha1 : bool) :
  (1 <= nworkers)%Z ->
  match ScanDirectoryForPackages os_Open Readdirnames dir nworkers with
  | ScanError _ => listing_fails os_Open Readdirnames dir
  | ScanPanic => False
  | ScanRun init =>
      ~ listing_fails os_Open Readdirnames dir
      /\ inevitably NewIpkgFromFile dir addMd5 addSha1
           (returned (index_of NewIpkgFromFile dir addMd5 addSha1 (Readdirnames dir).1)) init
      /\ (forall s,
             scan_reachable NewIpkgFromFile dir addMd5 addSha1 init s ->
             main s = MReturned ->
             Entries (packages s)
             = index_of NewIpkgFromFile dir addMd5 addSha1 (Readdirnames dir).1)
      /\ (NoDup (Readdirnames dir).1 ->
          size (index_of NewIpkgFromFile dir addMd5 addSha1 (Readdirnames dir).1)
          = length (valid_files NewIpkgFromFile dir addMd5 addSha1 (Readdirnames dir).1))
      /\ dom (index_of NewIpkgFromFile dir addMd5 addSha1 (Readdirnames dir).1)
         = list_to_set (valid_files NewIpkgFromFile dir addMd5 addSha1 (Readdirnames dir).1)
  end.
Proof.
  intros Hn. unfold ScanDirectoryForPackages, listing_fails.
  destruct (os_Open dir) as [e|] eqn:Hopen; [by left|].
  destruct (Readdirnames dir) as [entries [e|]] eqn:Hread; simpl in *; [by right|].
  unfold NewWorkerPool. destruct (Z.ltb_spec nworkers 0) as [Hneg|_]; [lia|].
  set (pool := {| WaitGroup := 0; worker_cap := Z.to_nat nworkers; worker_len := 0 |}).
  assert (Hinit : scan_inv NewIpkgFromFile dir addMd5 addSha1 entries (scan_init entries pool))
    by (by apply scan_inv_init).
  split; [intros [H|H]; congruence|]. split; [|split; [|split]].
  - eapply scan_inevitably_returns; [reflexivity|exact Hinit|simpl; lia].
  - intros s Hs Hm. eapply scan_inv_returned; [|exact Hm].
    by eapply scan_inv_reachable.
  - apply index_of_size.
  - apply index_of_dom.
Qed.

Lemma scan_sample_directory_witness :
  inevitably sample_NewIpkgFromFile "/srv/repo" true false
    (returned {[ "a_1.0.ipk" := a_1_0 ]})
    (scan_init ["a_1.0.ipk"; "broken.ipk"; "README"]
       {| WaitGroup := 0; worker_cap := 4; worker_len := 0 |})
  /\ size (index_of sample_NewIpkgFromFile "/srv/repo" true false
             ["a_1.0.ipk"; "broken.ipk"; "README"]) = 1.
Proof.
  assert (H4 : (1 <= 4)%Z) by lia.
  assert (Hnd : NoDup (sample_Readdirnames "/srv/repo").1)
    by (apply (bool_decide_unpack _); vm_compute; exact I).
  pose proof (scan_returns_one_record_per_valid_file
                sample_Open sample_Readdirnames sample_NewIpkgFromFile
                "/srv/repo" 4 true false H4) as H.
  simpl in H. destruct H as (_ & Hret & _ & Hsize & _).
  split; [exact Hret|exact (Hsize Hnd)].
Defined.

(** C4, as stated, fails for a worker limit of zero: the caller blocks in
    its first Hire and the call never returns. *)
Lemma scan_with_no_worker_never_returns :
  ScanDirectoryForPackages sample_Open sample_Readdirnames "/srv/repo" 0
  = ScanRun (scan_init ["a_1.0.ipk"; "broken.ipk"; "README"]
               {| WaitGroup := 0; worker_cap := 0; worker_len := 0 |})
  /\ ~ inevitably sample_NewIpkgFromFile "/srv/repo" true false
         (returned {[ "a_1.0.ipk" := a_1_0 ]})
         (scan_init ["a_1.0.ipk"; "broken.ipk"; "README"]
            {| WaitGroup := 0; worker_cap := 0; worker_len := 0 |}).
Proof.
  split; [reflexivity|]. intros H.
  inversion H as [s0 Hnow|s0 Hnp Hex Hall]; subst.
  { destruct Hnow as [Hm _]. discriminate. }
  specialize (Hall _ (ex_intro _ RunMain eq_refl)).
  inversion Hall as [s1 Hnow|s1 Hnp' Hex' Hall']; subst.
  { destruct Hnow as [Hm _]. discriminate. }
  destruct Hex' as [s' [c Hc]].
  destruct c as [|i|i]; [discriminate|destruct i; discriminate|destruct i; discriminate].
Qed.

Example scan_with_negative_limit_panics :
  ScanDirectoryForPackages sample_Open sample_Readdirnames "/srv/repo" (-1) = ScanPanic.
Proof. reflexivity. Qed.

(** One run of the sample scan with a single worker, to its end. *)
Example scan_sample_run :
  let s := scan_run sample_NewIpkgFromFile "/srv/repo" true false
             [ RunMain; RunMain; RunMain; RunMain;        (* start the goroutine of a_1.0.ipk *)
               RunMain; RunMain;                          (* broken.ipk: the send blocks *)
               RunGo 0; RunGo 0; RunGo 0; RunGo 0; RunGo 0; RunGo 0;
               RunMain; RunMain; RunMain;                 (* start the goroutine of broken.ipk *)
               RunMain; RunMain;                          (* README is skipped; Wait blocks *)
               RunGo 1; RunGo 1; RunGo 1;
               RunMain; RunMain ]
             (scan_init ["a_1.0.ipk"; "broken.ipk"; "README"]
                {| WaitGroup := 0; worker_cap := 1; worker_len := 0 |}) in
  main s = MReturned
  /\ Entries (packages s) = {[ "a_1.0.ipk" := a_1_0 ]}
  /\ logged s = [LibraryError "malformed archive"]
  /\ workers s = {| WaitGroup := 0; worker_cap := 1; worker_len := 0 |}.
Proof. vm_compute. repeat split. Qed.

(** ** The repository HTTP layer *)

Lemma Handle_Some mux pattern h mux' :
  Handle mux pattern h = Some mux' ->
  mux' = mux ++ [(pattern, h)] /\ (pattern ∉ mux.*1) /\ pattern <> "".
Proof.
  unfold Handle. destruct (String.eqb_spec pattern ""); [discriminate|].
  case_bool_decide; [discriminate|]. intros [= <-]. done.
Qed.

Lemma Handle_fresh mux pattern h :
  pattern <> "" -> pattern ∉ mux.*1 -> Handle mux pattern h = Some (mux ++ [(pattern, h)]).
Proof.
  intros Hne Hfresh. unfold Handle.
  destruct (String.eqb_spec pattern ""); [done|].
  by rewrite bool_decide_eq_false_2.
Qed.

Lemma string_app_inv_head p a b : p +:+ a = p +:+ b -> a = b.
Proof.
  induction p as [|c p IH]; [done|].
  change (String c p +:+ a) with (String c (p +:+ a)).
  change (String c p +:+ b) with (String c (p +:+ b)).
  intros [= H]. by apply IH.
Qed.

Lemma string_app_nonempty p a : a <> "" -> p +:+ a <> "".
Proof. destruct p; [done|discriminate]. Qed.

Lemma length_string_app a b : String.length (a +:+ b) = String.length a + String.length b.
Proof.
  induction a as [|c a IH]; [done|].
  change (String c a +:+ b) with (String c (a +:+ b)). simpl. by rewrite IH.
Qed.

Lemma substring_app_head a b : substring 0 (String.length a) (a +:+ b) = a.
Proof.
  induction a as [|c a IH]; [by destruct b|].
  change (String c a +:+ b) with (String c (a +:+ b)). simpl. by rewrite IH.
Qed.

Lemma substring_app_tail a b :
  substring (String.length a) (String.length b) (a +:+ b) = b.
Proof.
  induction a as [|c a IH]; simpl.
  - change ("" +:+ b) with b. induction b as [|c b IH]; [done|].
    simpl. by rewrite IH.
  - exact IH.
Qed.

Lemma HasSuffix_app stem suffix : HasSuffix (stem +:+ suffix) suffix = true.
Proof.
  unfold HasSuffix. rewrite length_string_app.
  replace (String.length stem + String.length suffix - String.length suffix)
    with (String.length stem) by lia.
  rewrite substring_app_tail, String.eqb_refl, andb_true_r.
  apply Nat.leb_le. lia.
Qed.

Section RepositoryFacts.

Variable StringTo : PackageIndex -> bytes.
Variable StampsTo : PackageIndex -> bytes.
Variable SortedNames : PackageIndex -> list string.
Variable Ipkg_DirEntry : Ipkg -> DirEntry.
Variable template_Execute : RenderCtx.t -> bytes + error.
Variable gzip_Write : bytes -> bytes.
Variable path_Join : string -> string -> string.

Local Abbreviation buffers := (fill_buffers StringTo StampsTo).
Local Abbreviation page_of :=
  (index_page SortedNames Ipkg_DirEntry template_Execute gzip_Write).
Local Abbreviation attach :=
  (AttachHttpHandler StringTo StampsTo SortedNames Ipkg_DirEntry template_Execute
     gzip_Write path_Join).
Local Abbreviation visit :=
  (walk_visit StringTo StampsTo SortedNames Ipkg_DirEntry template_Execute
     gzip_Write path_Join).

Local Abbreviation handlers :=
  (repository_handlers StringTo StampsTo path_Join).

Lemma AttachHttpHandler_Some mux packages prefix root gzipper now date mux' :
  attach mux packages prefix root gzipper now date = Some mux' ->
  exists page,
    page_of packages prefix (buffers packages gzipper) now date = Some page
    /\ mux' = mux ++ handlers packages prefix root gzipper now page.
Proof.
  unfold AttachHttpHandler. intros H.
  destruct (page_of _ _ _ _ _) as [page|]; [|discriminate].
  destruct (Handle mux _ _) as [mux1|] eqn:H1; [|discriminate].
  destruct (Handle mux1 _ _) as [mux2|] eqn:H2; [|discriminate].
  destruct (Handle mux2 _ _) as [mux3|] eqn:H3; [|discriminate].
  apply Handle_Some in H1 as (-> & _), H2 as (-> & _), H3 as (-> & _), H as (-> & _).
  exists page. split; [done|]. unfold repository_handlers.
  rewrite <- !app_assoc. reflexivity.
Qed.

Lemma AttachHttpHandler_fresh mux packages prefix root gzipper now date page :
  page_of packages prefix (buffers packages gzipper) now date = Some page ->
  Forall (fun pattern => pattern ∉ mux.*1)
    [prefix +:+ "/"; prefix +:+ "/Packages"; prefix +:+ "/Packages.gz";
     prefix +:+ "/Packages.stamps"] ->
  attach mux packages prefix root gzipper now date
  = Some (mux ++ handlers packages prefix root gzipper now page).
Proof.
  intros Hpage Hfresh. unfold AttachHttpHandler. rewrite Hpage.
  apply Forall_cons in Hfresh as [F1 Hfresh]. apply Forall_cons in Hfresh as [F2 Hfresh].
  apply Forall_cons in Hfresh as [F3 Hfresh]. apply Forall_cons in Hfresh as [F4 _].
  assert (Hnew : forall (m : ServeMux) p a b h,
             p +:+ a ∉ m.*1 -> a <> b -> p +:+ a ∉ (m ++ [(p +:+ b, h)]).*1).
  { intros m p a b h Hm Hab. rewrite fmap_app, elem_of_app. intros [H|H]; [done|].
    apply list_elem_of_singleton in H. by apply string_app_inv_head in H. }
  rewrite Handle_fresh; [|by apply string_app_nonempty|done].
  rewrite Handle_fresh; [|by apply string_app_nonempty|by apply Hnew].
  rewrite Handle_fresh; [|by apply string_app_nonempty|by repeat apply Hnew].
  rewrite Handle_fresh; [|by apply string_app_nonempty|by repeat apply Hnew].
  unfold repository_handlers. rewrite <- !app_assoc. reflexivity.
Qed.

(** C5. The handler registered at [prefix/Packages]: for a request whose
    Accept-Encoding names gzip it sets Content-Encoding to gzip and
    supplies the compressed buffer as the body; for any other request it
    supplies the plain buffer, the bytes that the compressed buffer
    decompresses to. *)
Theorem packages_path_negotiates_gzip
    (mux mux' : ServeMux) (packages : PackageIndex) (prefix root : string)
    (gzipper : Gzipper) (gunzip : bytes -> option bytes) (now date : Time) :
  (forall content, gunzip (gzipper content) = Some content) ->
  attach mux packages prefix root gzipper now date = Some mux' ->
  exists f,
    (prefix +:+ "/Packages", HandlerFunc f) ∈ mux'
    /\ forall r,
        (accepts_gzip r = true ->
         f r = [SetHeader "Content-Type" "text/plain";
                SetHeader "Content-Encoding" "gzip";
                ServeContent "Packages" now (gzipper (StringTo packages))]
         /\ response_body (f r) = gzipper (StringTo packages)
         /\ response_header (f r) "Content-Encoding" = Some "gzip")
        /\ (accepts_gzip r = false ->
            f r = [ServeContent "Packages" now (StringTo packages)]
            /\ response_body (f r) = StringTo packages
            /\ response_header (f r) "Content-Encoding" = None
            /\ gunzip (gzipper (StringTo packages)) = Some (response_body (f r))).
Proof.
  intros Hgz Hattach. apply AttachHttpHandler_Some in Hattach as (page & _ & ->).
  exists (packages_handler now (buffers packages gzipper)). split.
  - apply elem_of_app. right. unfold repository_handlers. set_solver.
  - intros r. unfold packages_handler. split; intros ->; simpl.
    + by rewrite app_nil_r.
    + rewrite app_nil_r. by rewrite Hgz.
Qed.

(** C6. Decompressing the compressed buffer, filled once when the
    handlers are attached, gives the bytes of the plain buffer; the
    handler of [Packages.gz] supplies that compressed buffer. *)
Theorem compressed_buffer_round_trip
    (packages : PackageIndex) (gzipper : Gzipper) (gunzip : bytes -> option bytes) :
  (forall content, gunzip (gzipper content) = Some content) ->
  gunzip (packages_content_gz (buffers packages gzipper))
  = Some (packages_content (buffers packages gzipper))
  /\ packages_content (buffers packages gzipper) = StringTo packages
  /\ forall now r,
      gunzip (response_body (packages_gz_handler now (buffers packages gzipper) r))
      = Some (StringTo packages).
Proof.
  intros Hgz. simpl. repeat split; [apply Hgz|].
  intros now r. rewrite app_nil_r. apply Hgz.
Qed.

(** C8. A request whose path is [stem.control]: when the base name of
    [stem] is a package of the index, the body is the raw control stanza
    of that package; when it is none, the handler answers with
    [http.NotFound].  The slice that cuts the suffix off is in range. *)
Theorem control_request_serves_stanza_or_not_found
    (packages : PackageIndex) (prefix root stem : string) (page : bytes * bytes)
    (r : Request) :
  URL_Path r = stem +:+ ".control" ->
  8 <= String.length (URL_Path r)
  /\ match Entries packages !! Base stem with
     | Some ipkg =>
         index_handler path_Join packages prefix root page r
         = [WriteBody (bytes_of (Control ipkg))]
         /\ response_body (index_handler path_Join packages prefix root page r)
            = bytes_of (Control ipkg)
     | None => index_handler path_Join packages prefix root page r = [NotFound]
     end.
Proof.
  intros Hpath. unfold index_handler. rewrite Hpath, HasSuffix_app.
  rewrite length_string_app. simpl String.length.
  split; [lia|].
  replace (String.length stem + 8 - 8) with (String.length stem) by lia.
  rewrite substring_app_head.
  destruct (Entries packages !! Base stem) as [ipkg|]; [|done].
  split; [done|]. simpl. by rewrite app_nil_r.
Qed.

Lemma muxPath_of_relative rootName path :
  String.length rootName <= String.length path ->
  muxPath_of rootName path = Some (relative_path rootName path)
  /\ relative_path rootName path <> "".
Proof.
  intros Hlen. unfold muxPath_of, relative_path.
  rewrite (proj2 (Nat.leb_le _ _) Hlen).
  destruct (substring _ _ path); simpl; split; done.
Qed.

(** C7, as amended. A visit of the walk to a directory whose scan yields
    no record registers the file server of that directory at its relative
    path, when nothing is registered there yet; a visit to a directory
    whose scan yields records registers the four handlers of the
    repository at its relative path and notes the path as an index, when
    these four patterns are not registered yet and the index page
    renders. *)
Theorem walk_registers_directory
    (rootName : string) (gzipper : Gzipper) (now date : Time)
    (st : walk_state) (path : string) (packages : PackageIndex) :
  String.length rootName <= String.length path ->
  (size (Entries packages) = 0 ->
   relative_path rootName path ∉ (rootMuxer st).*1 ->
   visit rootName gzipper now date st path (Some true) (inl packages)
   = Some {| rootMuxer := rootMuxer st ++ [(relative_path rootName path, FileServer path)];
             indices := indices st |})
  /\ (1 <= size (Entries packages) ->
      forall page,
        page_of packages (relative_path rootName path) (buffers packages gzipper) now date
        = Some page ->
        Forall (fun pattern => pattern ∉ (rootMuxer st).*1)
          [relative_path rootName path +:+ "/";
           relative_path rootName path +:+ "/Packages";
           relative_path rootName path +:+ "/Packages.gz";
           relative_path rootName path +:+ "/Packages.stamps"] ->
        visit rootName gzipper now date st path (Some true) (inl packages)
        = Some {| rootMuxer :=
                    rootMuxer st
                    ++ handlers packages (relative_path rootName path) rootName gzipper now page;
                  indices := indices st ++ [relative_path rootName path] |}).
Proof.
  intros Hlen. destruct (muxPath_of_relative _ _ Hlen) as [Hmux Hne].
  unfold walk_visit. rewrite Hmux. split.
  - intros -> Hfresh. simpl. by rewrite Handle_fresh.
  - intros Hsize page Hpage Hfresh.
    destruct (Nat.eqb_spec (size (Entries packages)) 0) as [E|_]; [lia|].
    by rewrite (AttachHttpHandler_fresh _ _ _ _ _ _ _ _ Hpage Hfresh).
Qed.

End RepositoryFacts.

Lemma sample_gunzip_gzipper content : sample_gunzip (sample_gzipper content) = Some content.
Proof. reflexivity. Qed.

Lemma packages_path_witness :
  exists f,
    ("/feed/Packages", HandlerFunc f) ∈ sample_mux
    /\ f gzip_request
       = [SetHeader "Content-Type" "text/plain";
          SetHeader "Content-Encoding" "gzip";
          ServeContent "Packages" 1430000100 (sample_gzipper (sample_StringTo sample_index))]
    /\ sample_gunzip (response_body (f gzip_request)) = Some (sample_StringTo sample_index).
Proof.
  destruct (packages_path_negotiates_gzip
              sample_StringTo sample_StampsTo sample_SortedNames sample_DirEntry
              sample_Execute sample_gzipper sample_Join
              [] sample_mux sample_index "/feed" "/srv/repo"
              sample_gzipper sample_gunzip 1430000100 1430000101
              sample_gunzip_gzipper eq_refl) as (f & Hin & Hf).
  exists f. split; [exact Hin|].
  destruct (Hf gzip_request) as [Hgz _].
  destruct (Hgz eq_refl) as (Hev & Hbody & _).
  split; [exact Hev|]. rewrite Hbody. reflexivity.
Defined.

Lemma compressed_buffer_witness :
  sample_gunzip (packages_content_gz
                   (fill_buffers sample_StringTo sample_StampsTo sample_index sample_gzipper))
  = Some (packages_content
            (fill_buffers sample_StringTo sample_StampsTo sample_index sample_gzipper)).
Proof.
  exact (proj1 (compressed_buffer_round_trip sample_StringTo sample_StampsTo
                  sample_index sample_gzipper sample_gunzip sample_gunzip_gzipper)).
Defined.

Lemma control_request_witness :
  index_handler sample_Join sample_index "/feed" "/srv/repo" ([], []) control_request
  = [WriteBody (bytes_of "Package: a")]
  /\ index_handler sample_Join sample_index "/feed" "/srv/repo" ([], [])
       {| URL_Path := "/feed/b_2.0.ipk.control"; Header := ∅ |}
     = [NotFound].
Proof.
  split.
  - exact (proj1 (proj2 (control_request_serves_stanza_or_not_found
                           sample_Join sample_index "/feed" "/srv/repo" "/feed/a_1.0.ipk"
                           ([], []) control_request eq_refl))).
  - exact (proj2 (control_request_serves_stanza_or_not_found
                    sample_Join sample_index "/feed" "/srv/repo" "/feed/b_2.0.ipk"
                    ([], []) {| URL_Path := "/feed/b_2.0.ipk.control"; Header := ∅ |}
                    eq_refl)).
Defined.

Lemma walk_registers_witness :
  sample_visit no_handlers "/srv/repo/doc" (Some true) (inl empty_index)
  = Some {| rootMuxer := [("/doc", FileServer "/srv/repo/doc")]; indices := [] |}
  /\ (sample_visit no_handlers "/srv/repo/feed" (Some true) (inl sample_index)
      = Some feed_visited
      /\ (rootMuxer feed_visited).*1
         = ["/feed/"; "/feed/Packages"; "/feed/Packages.gz"; "/feed/Packages.stamps"]
      /\ indices feed_visited = ["/feed"]).
Proof.
  split.
  - apply (proj1 (walk_registers_directory
                    sample_StringTo sample_StampsTo sample_SortedNames sample_DirEntry
                    sample_Execute sample_gzipper sample_Join
                    "/srv/repo" sample_gzipper 1430000100 1430000101
                    no_handlers "/srv/repo/doc" empty_index ltac:(simpl; lia))).
    + reflexivity.
    + apply not_elem_of_nil.
  - split; [|split; reflexivity].
    pose proof (proj2 (walk_registers_directory
                    sample_StringTo sample_StampsTo sample_SortedNames sample_DirEntry
                    sample_Execute sample_gzipper sample_Join
                    "/srv/repo" sample_gzipper 1430000100 1430000101
                    no_handlers "/srv/repo/feed" sample_index ltac:(simpl; lia))) as H.
    unfold sample_visit. rewrite (H ltac:(vm_compute; lia) _ eq_refl).
    + reflexivity.
    + repeat constructor; apply not_elem_of_nil.
Defined.

(** C7, as stated, fails: a directory named Packages inside a repository
    directory yields no record, and its visit panics in [mux.Handle], since
    the pattern is taken by the index of the repository: the directory is
    not registered as a file server, and the walk ends there. *)
Lemma directory_named_Packages_is_not_registered :
  sample_walk [("/srv/repo", Some true); ("/srv/repo/feed", Some true)] no_handlers
  = Some feed_walked
  /\ (rootMuxer feed_walked).*1
     = ["/"; "/feed/"; "/feed/Packages"; "/feed/Packages.gz"; "/feed/Packages.stamps"]
  /\ sample_scan_of "/srv/repo/feed/Packages" = inl empty_index
  /\ size (Entries empty_index) = 0
  /\ sample_visit feed_walked "/srv/repo/feed/Packages" (Some true) (inl empty_index) = None
  /\ sample_walk sample_tree no_handlers = None.
Proof. repeat split; vm_compute; reflexivity. Qed.

(** The visit of a repository directory panics when the template fails. *)
Example visit_panics_when_template_fails :
  walk_visit sample_StringTo sample_StampsTo sample_SortedNames sample_DirEntry
    failing_Execute sample_gzipper sample_Join "/srv/repo" sample_gzipper
    1430000100 1430000101 no_handlers "/srv/repo/feed" (Some true) (inl sample_index)
  = None.
Proof. reflexivity. Qed.

(** A file of the walk leaves the handlers alone, and so does a directory
    whose scan returns an error. *)
Example visit_skips_files_and_failed_scans :
  sample_visit feed_visited "/srv/repo/feed/a_1.0.ipk" (Some false) (inl empty_index)
  = Some feed_visited
  /\ sample_visit feed_visited "/srv/repo/private" (Some true)
       (inr (OpeningRoot "/srv/repo/private" (LibraryError "permission denied")))
     = Some feed_visited.
Proof. split; reflexivity. Qed.

(** * Further theorems *)

(** ** x509.go *)

Lemma clean_byte_is_safe c : safe_byte (clean_byte c) = true.
Proof. destruct c as [[] [] [] [] [] [] [] []]; reflexivity. Qed.

Lemma clean_byte_of_safe c : safe_byte c = true -> clean_byte c = c.
Proof. intros H. by rewrite clean_byte_safe, H. Qed.

(** X1. [cleanPkixNameBytes] keeps the length of its slice, leaves only
    bytes of [A-Za-z0-9_-], changes nothing in a slice of such bytes, and
    cleaning twice is cleaning once. *)
Theorem cleanPkixNameBytes_idempotent (b : bytes) :
  length (cleanPkixNameBytes b) = length b
  /\ Forall (fun c => safe_byte c = true) (cleanPkixNameBytes b)
  /\ (Forall (fun c => safe_byte c = true) b -> cleanPkixNameBytes b = b)
  /\ cleanPkixNameBytes (cleanPkixNameBytes b) = cleanPkixNameBytes b.
Proof.
  unfold cleanPkixNameBytes.
  assert (Hsafe : Forall (fun c => safe_byte c = true) (map clean_byte b)).
  { apply Forall_map, Forall_forall. intros c _. apply clean_byte_is_safe. }
  assert (Hfix : forall l, Forall (fun c => safe_byte c = true) l -> map clean_byte l = l).
  { induction 1 as [|c l Hc _ IH]; simpl; [done|]. by rewrite clean_byte_of_safe, IH. }
  repeat split; [apply length_map|exact Hsafe|apply Hfix|by apply Hfix].
Qed.

Lemma typeVals_entry_raw buf a :
  typeVals_entry false buf a =
  Some (if recognized a
        then (match buf with [] => [] | _ => buf ++ bytes_of "," end) ++ bytes_of (raw_key_value a)
        else buf).
Proof.
  unfold typeVals_entry, recognized. case_bool_decide as Hin.
  - destruct (lookup_key_recognized _ Hin) as [-> Hne].
    destruct (String.eqb_spec (key_name (pkix.Type_ a)) "") as [E|_]; [done|].
    f_equal. unfold raw_key_value. rewrite !bytes_of_app.
    destruct buf; simpl; rewrite <- ?app_assoc; reflexivity.
  - by rewrite (lookup_key_unrecognized _ Hin).
Qed.

Lemma typeVals_loop_raw names buf :
  typeVals_loop false names buf =
  Some (join_onto buf (map raw_key_value (filter (fun a => recognized a = true) names))).
Proof.
  revert buf. induction names as [|a names IH]; intros buf; [reflexivity|].
  simpl. rewrite typeVals_entry_raw, filter_cons.
  destruct (recognized a) eqn:E.
  - rewrite decide_True by done. by rewrite IH.
  - rewrite decide_False by done. by rewrite IH.
Qed.

Lemma raw_key_value_nonempty a : recognized a = true -> raw_key_value a <> "".
Proof.
  unfold recognized, raw_key_value. intros H%bool_decide_eq_true.
  destruct (lookup_key_recognized _ H) as [_ Hne].
  destruct (key_name (pkix.Type_ a)); [done|discriminate].
Qed.

Lemma typeValsToBytes_raw_joined names :
  typeValsToBytes names false
  = Some (bytes_of (String.concat ","
            (map raw_key_value (filter (fun a => recognized a = true) names)))).
Proof.
  unfold typeValsToBytes. rewrite typeVals_loop_raw, join_onto_concat.
  - by destruct (map raw_key_value _).
  - apply Forall_forall. intros p Hp.
    apply list_elem_of_fmap in Hp as (a & -> & Ha).
    apply list_elem_of_filter in Ha as [Ha _]. by apply raw_key_value_nonempty.
Qed.

Lemma typeValsToBytes_clean_joined names :
  typeValsToBytes names true
  = Some (bytes_of (String.concat ","
            (map key_value (filter (fun a => recognized a = true) names)))).
Proof.
  pose proof (clientIdByName_DeriveIdentity {| pkix.Names := names |}) as H.
  unfold clientIdByName, DeriveIdentity in H. simpl in H.
  destruct (typeValsToBytes names true) as [b|]; [|discriminate].
  injection H as H. by rewrite <- H, bytes_of_string_of.
Qed.

Lemma length_sanitize v : String.length (sanitize v) = String.length v.
Proof.
  unfold sanitize. rewrite <- !length_bytes_of, bytes_of_string_of. apply length_map.
Qed.

Lemma sanitize_of_safe v :
  Forall (fun c => safe_byte c = true) (bytes_of v) -> sanitize v = v.
Proof.
  intros H. unfold sanitize. rewrite <- (string_of_bytes_of v) at 2. f_equal.
  induction H as [|c l Hc _ IH]; simpl; [done|]. by rewrite Hc, IH.
Qed.

Lemma length_concat_ext (f g : pkix.AttributeTypeAndValue -> string) l :
  (forall a, String.length (f a) = String.length (g a)) ->
  String.length (String.concat "," (map f l)) = String.length (String.concat "," (map g l)).
Proof.
  intros H. induction l as [|a l IH]; [done|].
  destruct l as [|b l]; [apply H|].
  change (String.length (f a +:+ "," +:+ String.concat "," (map f (b :: l)))
          = String.length (g a +:+ "," +:+ String.concat "," (map g (b :: l)))).
  by rewrite !length_string_app, H, IH.
Qed.

(** X2. Without cleaning, [typeValsToBytes] returns the comma-joined
    [key=value] pairs of the recognized attributes with the values as they
    are.  Cleaning changes bytes in place only: both results have the same
    length, and they are equal when every value consists of bytes of
    [A-Za-z0-9_-]. *)
Theorem typeValsToBytes_without_cleaning (names : list pkix.AttributeTypeAndValue) :
  exists raw cleaned,
    typeValsToBytes names false = Some raw
    /\ typeValsToBytes names true = Some cleaned
    /\ raw = bytes_of (String.concat ","
               (map raw_key_value (filter (fun a => recognized a = true) names)))
    /\ length cleaned = length raw
    /\ (Forall (fun a => Forall (fun c => safe_byte c = true) (bytes_of (fmt_s (pkix.Value a))))
          names -> cleaned = raw).
Proof.
  eexists _, _. split; [apply typeValsToBytes_raw_joined|].
  split; [apply typeValsToBytes_clean_joined|]. split; [reflexivity|]. split.
  - rewrite !length_bytes_of. apply length_concat_ext. intros a.
    unfold key_value, raw_key_value. by rewrite !length_string_app, length_sanitize.
  - intros Hsafe. do 2 f_equal. apply map_ext_in. intros a Ha.
    unfold key_value, raw_key_value. rewrite sanitize_of_safe; [done|].
    apply list_elem_of_In, list_elem_of_filter in Ha as [_ Ha].
    by eapply Forall_forall in Hsafe.
Qed.

Lemma count_byte_app c a b : count_byte c (a ++ b) = count_byte c a + count_byte c b.
Proof. unfold count_byte. by rewrite filter_app, length_app. Qed.

Lemma count_byte_cons c x b :
  count_byte c (x :: b) = (if decide (x = c) then 1 else 0) + count_byte c b.
Proof. unfold count_byte. rewrite filter_cons. by destruct (decide (x = c)). Qed.

Lemma count_byte_absent c b : c ∉ b -> count_byte c b = 0.
Proof.
  induction b as [|x b IH]; [done|]. intros H. apply not_elem_of_cons in H as [Hx Hb].
  rewrite count_byte_cons, IH by done. by rewrite decide_False.
Qed.

Lemma unsafe_not_in_safe c b :
  safe_byte c = false -> Forall (fun x => safe_byte x = true) b -> c ∉ b.
Proof.
  intros Hc Hb Hin. eapply Forall_forall in Hb; [|exact Hin]. congruence.
Qed.

Lemma sanitize_safe_bytes v : Forall (fun x => safe_byte x = true) (bytes_of (sanitize v)).
Proof.
  unfold sanitize. rewrite bytes_of_string_of. apply Forall_map, Forall_forall.
  intros c _. simpl. by destruct (safe_byte c) eqn:E.
Qed.

Lemma key_name_safe_bytes ty :
  ty ∈ recognized_oids -> Forall (fun x => safe_byte x = true) (bytes_of (key_name ty)).
Proof.
  unfold recognized_oids. intros H.
  repeat (apply elem_of_cons in H as [->|H]; [vm_compute; repeat constructor|]).
  by apply elem_of_nil in H.
Qed.

Lemma bytes_of_key_value a :
  bytes_of (key_value a)
  = bytes_of (key_name (pkix.Type_ a)) ++ "="%char :: bytes_of (sanitize (fmt_s (pkix.Value a))).
Proof. unfold key_value. by rewrite !bytes_of_app. Qed.

Lemma bytes_of_concat_cons p q l :
  bytes_of (String.concat "," (p :: q :: l))
  = bytes_of p ++ ","%char :: bytes_of (String.concat "," (q :: l)).
Proof.
  change (String.concat "," (p :: q :: l)) with (p +:+ "," +:+ String.concat "," (q :: l)).
  by rewrite !bytes_of_app.
Qed.

Lemma count_byte_key_value c a :
  recognized a = true -> safe_byte c = false ->
  count_byte c (bytes_of (key_value a)) = if decide ("="%char = c) then 1 else 0.
Proof.
  intros Ha%bool_decide_eq_true Hc.
  rewrite bytes_of_key_value, count_byte_app, count_byte_cons.
  rewrite !count_byte_absent; [lia| |].
  - eapply unsafe_not_in_safe; [exact Hc|apply sanitize_safe_bytes].
  - eapply unsafe_not_in_safe; [exact Hc|by apply key_name_safe_bytes].
Qed.

Lemma count_byte_joined c (l : list pkix.AttributeTypeAndValue) :
  Forall (fun a => recognized a = true) l -> safe_byte c = false ->
  count_byte c (bytes_of (String.concat "," (map key_value l)))
  = (if decide ("="%char = c) then length l else 0)
    + (if decide (","%char = c) then pred (length l) else 0).
Proof.
  intros Hl Hc. induction Hl as [|a l Ha Hl IH].
  - simpl. by repeat case_decide.
  - destruct l as [|b l].
    + simpl. rewrite (count_byte_key_value _ _ Ha Hc). repeat case_decide; lia.
    + change (map key_value (a :: b :: l))
        with (key_value a :: key_value b :: map key_value l).
      rewrite bytes_of_concat_cons, count_byte_app, count_byte_cons.
      change (key_value b :: map key_value l) with (map key_value (b :: l)).
      rewrite IH, (count_byte_key_value _ _ Ha Hc). simpl.
      repeat case_decide; subst; try discriminate; lia.
Qed.

(** X3. A value cannot forge a separator: in the identity of a subject
    with [n] recognized attributes the byte ['='] occurs [n] times and the
    byte [','] occurs [n - 1] times (never, when [n] is 0). *)
Theorem identity_separators_count (subject : pkix.Name) :
  exists id,
    clientIdByName subject = Some id
    /\ count_byte "=" (bytes_of id) = length (recognized_attributes subject)
    /\ count_byte "," (bytes_of id) = pred (length (recognized_attributes subject)).
Proof.
  exists (DeriveIdentity subject). split; [apply clientIdByName_DeriveIdentity|].
  unfold DeriveIdentity, recognized_attributes.
  assert (Hrec : Forall (fun a => recognized a = true)
                   (filter (fun a => recognized a = true) (pkix.Names subject))).
  { apply Forall_forall. intros a Ha. by apply list_elem_of_filter in Ha as [Ha _]. }
  split; rewrite (count_byte_joined _ _ Hrec) by reflexivity; simpl; lia.
Qed.

Lemma bytes_of_inj s1 s2 : bytes_of s1 = bytes_of s2 -> s1 = s2.
Proof. intros H. by rewrite <- (string_of_bytes_of s1), H, string_of_bytes_of. Qed.

(** Two byte strings cut at the first occurrence of a byte. *)
Lemma split_at_first (c : ascii) (a b x y : bytes) :
  c ∉ a -> c ∉ b -> a ++ c :: x = b ++ c :: y -> a = b /\ x = y.
Proof.
  revert b. induction a as [|a0 a IH]; intros [|b0 b] Ha Hb H; simpl in H.
  - by injection H.
  - injection H as -> _. exfalso. apply Hb. by left.
  - injection H as <- _. exfalso. apply Ha. by left.
  - injection H as -> H. apply not_elem_of_cons in Ha as [_ Ha].
    apply not_elem_of_cons in Hb as [_ Hb].
    destruct (IH b Ha Hb H) as [-> ->]. done.
Qed.

Lemma concat_comma_inj (l1 l2 : list string) :
  Forall (fun p => p <> "" /\ ","%char ∉ bytes_of p) l1 ->
  Forall (fun p => p <> "" /\ ","%char ∉ bytes_of p) l2 ->
  String.concat "," l1 = String.concat "," l2 -> l1 = l2.
Proof.
  intros H1. revert l2. induction H1 as [|p l1 [Hp Hpc] H1 IH]; intros l2 H2 H.
  - destruct H2 as [|q l2 [Hq _] _]; [done|].
    exfalso. destruct l2; simpl in H; [by apply Hq|].
    destruct q; [by apply Hq|discriminate].
  - destruct H2 as [|q l2 [Hq Hqc] H2].
    { exfalso. destruct l1; simpl in H; [by apply Hp|].
      destruct p; [by apply Hp|discriminate]. }
    destruct l1 as [|p' l1], l2 as [|q' l2].
    + simpl in H. by subst.
    + exfalso. apply (f_equal bytes_of) in H. rewrite bytes_of_concat_cons in H.
      simpl in H. apply Hpc. rewrite H. apply elem_of_app. right. by left.
    + exfalso. apply (f_equal bytes_of) in H. rewrite bytes_of_concat_cons in H.
      simpl in H. apply Hqc. rewrite <- H. apply elem_of_app. right. by left.
    + apply (f_equal bytes_of) in H. rewrite !bytes_of_concat_cons in H.
      apply split_at_first in H as [Hpq H]; [|done|done].
      apply bytes_of_inj in Hpq, H. subst q. f_equal. by apply IH.
Qed.

Lemma key_name_inj t1 t2 :
  t1 ∈ recognized_oids -> t2 ∈ recognized_oids -> key_name t1 = key_name t2 -> t1 = t2.
Proof.
  unfold recognized_oids. intros H1 H2.
  repeat (apply elem_of_cons in H1 as [->|H1]);
    try (by apply elem_of_nil in H1);
    repeat (apply elem_of_cons in H2 as [->|H2]);
    try (by apply elem_of_nil in H2);
    simpl; intros; first [reflexivity|discriminate].
Qed.

Lemma key_value_inj a1 a2 :
  recognized a1 = true -> recognized a2 = true ->
  key_value a1 = key_value a2 -> identity_key a1 = identity_key a2.
Proof.
  intros H1%bool_decide_eq_true H2%bool_decide_eq_true H.
  apply (f_equal bytes_of) in H. rewrite !bytes_of_key_value in H.
  apply split_at_first in H as [Hk Hv].
  - unfold identity_key. apply bytes_of_inj in Hk, Hv.
    by rewrite (key_name_inj _ _ H1 H2 Hk), Hv.
  - eapply unsafe_not_in_safe; [reflexivity|by apply key_name_safe_bytes].
  - eapply unsafe_not_in_safe; [reflexivity|by apply key_name_safe_bytes].
Qed.

(** X4. Two subjects derive the same identity exactly when their
    recognized attributes, in order, have the same identifiers and the same
    values after cleaning.  Unrecognized attributes and the bytes that
    cleaning replaces make no difference; nothing else does. *)
Theorem identity_collisions (s1 s2 : pkix.Name) :
  clientIdByName s1 = clientIdByName s2
  <-> map identity_key (recognized_attributes s1)
      = map identity_key (recognized_attributes s2).
Proof.
  rewrite !clientIdByName_DeriveIdentity. unfold DeriveIdentity, recognized_attributes.
  set (l1 := filter _ (pkix.Names s1)). set (l2 := filter _ (pkix.Names s2)).
  assert (Hrec : forall s, Forall (fun a => recognized a = true)
                   (filter (fun a => recognized a = true) (pkix.Names s))).
  { intros s. apply Forall_forall. intros a Ha. by apply list_elem_of_filter in Ha as [Ha _]. }
  assert (Hgood : forall l, Forall (fun a => recognized a = true) l ->
            Forall (fun p => p <> "" /\ ","%char ∉ bytes_of p) (map key_value l)).
  { intros l Hl. apply Forall_map. eapply Forall_impl; [exact Hl|]. intros a Ha. simpl.
    split; [by apply key_value_nonempty|].
    intros Hin. pose proof (count_byte_key_value "," a Ha eq_refl) as Hc.
    rewrite decide_False in Hc by discriminate.
    unfold count_byte in Hc. apply length_zero_iff_nil in Hc.
    assert (","%char ∈ filter (fun x => x = ","%char) (bytes_of (key_value a)))
      by (by apply list_elem_of_filter).
    rewrite Hc in H. by apply elem_of_nil in H. }
  split.
  - intros [= H]. apply concat_comma_inj in H; [|by apply Hgood, Hrec..].
    pose proof (Hrec s1) as H1. pose proof (Hrec s2) as H2. fold l1 in H1. fold l2 in H2.
    clearbody l1 l2. revert l2 H2 H.
    induction H1 as [|a1 l1 Ha1 H1 IH]; intros [|a2 l2] H2 H; simpl in *; try done.
    injection H as Ha H. apply Forall_cons in H2 as [Ha2 H2].
    f_equal; [by apply key_value_inj|by apply IH].
  - intros H. do 2 f_equal. clearbody l1 l2. revert l2 H.
    induction l1 as [|a1 l1 IH]; intros [|a2 l2] H; simpl in *; try done.
    injection H as Ht Hv H. f_equal; [|by apply IH].
    unfold key_value. by rewrite Ht, Hv.
Qed.

Section PrintClientIdMore.

Variable ReadFile : string -> list pem.Block + error.
Variable ParseCertificate : bytes -> x509.Certificate + error.

(** The loop ends without a block to look at, or at the first block of
    type CERTIFICATE without headers. *)
Lemma decode_loop_cases (blocks : list pem.Block) :
  (Forall (fun b => is_certificate_block b = false) blocks
   /\ decode_loop ParseCertificate blocks = LoopBreak None)
  \/ exists skipped block rest,
       blocks = skipped ++ block :: rest
       /\ Forall (fun b => is_certificate_block b = false) skipped
       /\ is_certificate_block block = true
       /\ decode_loop ParseCertificate blocks
          = match ParseCertificate (pem.Bytes block) with
            | inr _ => LoopReturnNil
            | inl cert => LoopBreak (Some cert)
            end.
Proof.
  induction blocks as [|b blocks IH].
  - left. by split.
  - destruct (is_certificate_block b) eqn:Hb.
    + right. exists [], b, blocks. repeat split; [done..|].
      simpl. unfold is_certificate_block in Hb.
      apply andb_true_iff in Hb as [-> ->]. reflexivity.
    + assert (Hskip : decode_loop ParseCertificate (b :: blocks)
                      = decode_loop ParseCertificate blocks).
      { apply (decode_loop_skips ParseCertificate [b] blocks). by constructor. }
      destruct IH as [[Hall Hres]|(skipped & block & rest & -> & Hsk & Hblock & Hres)].
      * left. split; [by constructor|]. by rewrite Hskip.
      * right. exists (b :: skipped), block, rest.
        repeat split; [by constructor|done|]. by rewrite Hskip.
Qed.

(** X5. When the first block of type CERTIFICATE without headers parses,
    [printClientIdTo] appends one line to the writer, the identity of the
    certificate's subject, and returns nil; later blocks are not looked
    at. *)
Theorem printClientIdTo_prints_first_certificate
    (w certFile : string) (skipped rest : list pem.Block) (block : pem.Block)
    (cert : x509.Certificate) :
  ReadFile certFile = inl (skipped ++ block :: rest) ->
  Forall (fun b => is_certificate_block b = false) skipped ->
  is_certificate_block block = true ->
  ParseCertificate (pem.Bytes block) = inl cert ->
  printClientIdTo ReadFile ParseCertificate w certFile
  = Some (w +:+ DeriveIdentity (x509.Subject cert) +:+ newline, None).
Proof.
  intros Hread Hskip Hblock Hparse. unfold printClientIdTo.
  rewrite Hread, decode_loop_skips by exact Hskip.
  simpl. unfold is_certificate_block in Hblock.
  apply andb_true_iff in Hblock as [-> ->]. simpl.
  by rewrite Hparse, clientIdByName_DeriveIdentity.
Qed.


End PrintClientIdMore.

Lemma printClientIdTo_prints_witness :
  printClientIdTo sample_files sample_parse "" "good-then-bad.pem"
  = Some ("" +:+ DeriveIdentity acme +:+ newline, None).
Proof.
  apply (printClientIdTo_prints_first_certificate sample_files sample_parse
           "" "good-then-bad.pem" [] [bad_block] good_block {| x509.Subject := acme |}).
  - reflexivity.
  - constructor.
  - reflexivity.
  - reflexivity.
Defined.

(** ** main.go: the worker pool *)

(** X7. On a pool with a free slot, Hire followed by Release gives the
    pool back as it was; Hire on a full pool blocks; Release on a pool
    whose WaitGroup counter is zero panics. *)
Theorem Hire_Release_round_trip (pool : WorkerPool) :
  (worker_len pool < worker_cap pool ->
   exists pool', Hire pool = Next pool' /\ Release pool' = Next pool)
  /\ (worker_cap pool <= worker_len pool -> Hire pool = Blocked)
  /\ (WaitGroup pool = 0 -> Release pool = Panic).
Proof.
  destruct pool as [wg cap len]. unfold Hire, Release, chan_send, wg_Done. simpl.
  repeat split.
  - intros Hlt. rewrite (proj2 (Nat.ltb_lt _ _) Hlt). eexists. split; reflexivity.
  - intros Hle. by rewrite (proj2 (Nat.ltb_ge _ _) Hle).
  - by intros ->.
Qed.

Lemma pool_measure_step s s' :
  pool_trans s s' ->
  sum_list_with task_measure (tasks s') < sum_list_with task_measure (tasks s).
Proof.
  intros [c Hc]. destruct s as [[wg cap len] ts]. destruct c as [i|i j]; simpl in Hc.
  - destruct (ts !! i) as [pc|] eqn:Hi; [|discriminate].
    pose proof (sum_list_with_insert task_measure ts i pc) as Hm.
    destruct pc; unfold task_next, chan_send, chan_recv, wg_Done in Hc; simpl in Hc.
    + destruct (len <? cap)%nat; [|discriminate]. injection Hc as <-. simpl.
      specialize (Hm HireAdd Hi). simpl in Hm. lia.
    + injection Hc as <-. simpl. specialize (Hm Hired Hi). simpl in Hm. lia.
    + destruct wg; [discriminate|]. injection Hc as <-. simpl.
      specialize (Hm ReleaseRecv Hi). simpl in Hm. lia.
    + destruct len; [discriminate|]. injection Hc as <-. simpl.
      specialize (Hm Released Hi). simpl in Hm. lia.
    + discriminate.
  - destruct cap; [|discriminate].
    destruct (ts !! i) as [[]|] eqn:Hi; try discriminate.
    destruct (ts !! j) as [[]|] eqn:Hj; try discriminate.
    injection Hc as <-. simpl.
    pose proof (sum_list_with_insert task_measure ts j ReleaseRecv Released Hj) as Hm1.
    assert (Hi' : <[j := Released]> ts !! i = Some HireSend).
    { rewrite list_lookup_insert_ne; [done|]. intros ->. congruence. }
    pose proof (sum_list_with_insert task_measure _ i HireSend HireAdd Hi') as Hm2.
    simpl in *. lia.
Qed.

Lemma pool_inv_no_panic k s : pool_inv k s -> ~ pool_panics s.
Proof.
  intros (Hcap & Hlen & Hle & Hwg) [c Hc].
  destruct s as [[wg cap len] ts]. simpl in *. destruct c as [i|i j]; simpl in Hc.
  - destruct (ts !! i) as [pc|] eqn:Hi; [|discriminate].
    pose proof (sum_list_with_in pc wg_weight ts (list_elem_of_lookup_2 _ _ _ Hi)) as Hin.
    destruct pc; unfold task_next, chan_send, chan_recv, wg_Done in Hc; simpl in *;
      try discriminate.
    + destruct (len <? cap)%nat; discriminate.
    + destruct wg; [lia|discriminate].
    + destruct len; discriminate.
  - destruct cap; [|discriminate].
    destruct (ts !! i) as [[]|]; try discriminate.
    destruct (ts !! j) as [[]|]; discriminate.
Qed.

(** A task that holds a slot can run its next statement. *)
Lemma slot_holder_progress k s i pc :
  pool_inv k s -> tasks s !! i = Some pc -> 0 < slot_weight pc ->
  exists s', pool_trans s s'.
Proof.
  intros (Hcap & Hlen & Hle & Hwg) Hi Hpc.
  destruct s as [[wg cap len] ts]. simpl in *.
  pose proof (sum_list_with_in pc wg_weight ts (list_elem_of_lookup_2 _ _ _ Hi)) as Hw.
  pose proof (sum_list_with_in pc slot_weight ts (list_elem_of_lookup_2 _ _ _ Hi)) as Hs.
  destruct pc; simpl in *; try lia.
  - eexists. exists (RunTask i). simpl. rewrite Hi. reflexivity.
  - destruct wg; [lia|]. eexists. exists (RunTask i). simpl. rewrite Hi. reflexivity.
  - destruct len; [lia|]. eexists. exists (RunTask i). simpl. rewrite Hi. reflexivity.
Qed.

Lemma pool_progress k s :
  pool_inv k s -> 1 <= k -> 0 < sum_list_with task_measure (tasks s) ->
  exists s', pool_trans s s'.
Proof.
  intros Hinv Hk Hm. pose proof Hinv as (Hcap & Hlen & Hle & Hwg).
  destruct (sum_list_with_pos _ _ Hm) as (i & pc & Hi & Hpc).
  destruct pc; simpl in Hpc; try lia;
    try (eapply (slot_holder_progress k s i); [exact Hinv|exact Hi|simpl; lia]).
  destruct s as [[wg cap len] ts]. simpl in *.
  destruct (len <? cap)%nat eqn:Hlt.
  - eexists. exists (RunTask i). simpl. rewrite Hi. unfold task_next, chan_send. simpl.
    rewrite Hlt. reflexivity.
  - apply Nat.ltb_ge in Hlt.
    destruct (sum_list_with_pos slot_weight ts) as (j & pc' & Hj & Hpc'); [lia|].
    by eapply (slot_holder_progress k _ j pc').
Qed.

Lemma pool_inv_drained k s :
  pool_inv k s -> sum_list_with task_measure (tasks s) = 0 -> pool_drained k s.
Proof.
  intros (Hcap & Hlen & Hle & Hwg) Hz.
  assert (Hall : Forall (fun pc => pc = Released) (tasks s)).
  { apply Forall_forall. intros pc Hpc.
    pose proof (sum_list_with_in pc task_measure _ Hpc). destruct pc; simpl in *; (done || lia). }
  split; [exact Hall|].
  destruct s as [[wg cap len] ts]. simpl in *. f_equal; [|done|].
  - rewrite Hwg. apply sum_list_with_zero. eapply Forall_impl; [exact Hall|]. by intros ? ->.
  - rewrite Hlen. apply sum_list_with_zero. eapply Forall_impl; [exact Hall|]. by intros ? ->.
Qed.

Lemma pool_inevitably_drains k n s :
  sum_list_with task_measure (tasks s) <= n ->
  pool_inv k s -> 1 <= k ->
  pool_inevitably (pool_drained k) s.
Proof.
  revert s. induction n as [|n IH]; intros s Hn Hinv Hk.
  - apply pool_inev_now, pool_inv_drained; [done|lia].
  - destruct (Nat.eq_dec (sum_list_with task_measure (tasks s)) 0) as [Hz|Hz].
    + by apply pool_inev_now, pool_inv_drained.
    + apply pool_inev_later.
      * by eapply pool_inv_no_panic.
      * eapply pool_progress; eauto. lia.
      * intros s' Hs'. apply IH; [|by eapply pool_inv_step|done].
        apply pool_measure_step in Hs'. lia.
Qed.

(** X8. With a limit of at least one, [n] tasks that each run Hire and
    then Release all finish, whatever the scheduler does: no state before
    the end is stuck, no task panics, and at the end the pool is as it was
    made. *)
Theorem worker_pool_never_deadlocks (k n : nat) :
  1 <= k -> pool_inevitably (pool_drained k) (pool_init k n).
Proof.
  intros Hk. eapply pool_inevitably_drains; [reflexivity|apply pool_inv_init|exact Hk].
Qed.

Lemma worker_pool_never_deadlocks_witness :
  pool_inevitably (pool_drained 1) (pool_init 1 2).
Proof. apply (worker_pool_never_deadlocks 1 2). lia. Defined.

(** X9. With a limit of zero no Hire ever returns: the tasks stay where
    they started, and no task can run. *)
Theorem zero_limit_pool_is_stuck (n : nat) (s : pool_state) :
  pool_reachable 0 n s ->
  s = pool_init 0 n /\ forall s', ~ pool_trans s s'.
Proof.
  assert (Hstuck : forall s', ~ pool_trans (pool_init 0 n) s').
  { intros s' [c Hc]. destruct c as [i|i j]; simpl in Hc.
    - destruct (replicate n HireSend !! i) as [pc|] eqn:Hi; [|discriminate].
      apply lookup_replicate in Hi as [-> _]. discriminate.
    - destruct (replicate n HireSend !! i) as [pc|] eqn:Hi; [|discriminate].
      apply lookup_replicate in Hi as [-> _].
      destruct (replicate n HireSend !! j) as [pc|] eqn:Hj; [|discriminate].
      apply lookup_replicate in Hj as [-> _]. discriminate. }
  induction 1 as [|s s' _ [-> _] Hstep]; [by split|].
  by apply Hstuck in Hstep.
Qed.

Lemma zero_limit_pool_witness :
  pool_init 0 3 = pool_init 0 3 /\ forall s', ~ pool_trans (pool_init 0 3) s'.
Proof. apply (zero_limit_pool_is_stuck 3). constructor. Defined.

(** ** main.go: the directory scanner *)

Section ScanMore.

Variable NewIpkgFromFile : string -> string -> bool -> bool -> Ipkg + error.
Variable dir : string.
Variables addMd5 addSha1 : bool.

Local Abbreviation parse name := (NewIpkgFromFile name dir addMd5 addSha1).
Local Abbreviation trans := (scan_trans NewIpkgFromFile dir addMd5 addSha1).
Local Abbreviation reachable := (scan_reachable NewIpkgFromFile dir addMd5 addSha1).
Local Abbreviation scan_inv' := (scan_inv NewIpkgFromFile dir addMd5 addSha1).
Local Abbreviation index_of' := (index_of NewIpkgFromFile dir addMd5 addSha1).
Local Abbreviation parse_error' := (parse_error NewIpkgFromFile dir addMd5 addSha1).
Local Abbreviation logged_by' := (logged_by NewIpkgFromFile dir addMd5 addSha1).
Local Abbreviation log_inv' := (log_inv NewIpkgFromFile dir addMd5 addSha1).

Lemma scan_run_reachable init sched s :
  reachable init s ->
  reachable init (scan_run NewIpkgFromFile dir addMd5 addSha1 sched s).
Proof.
  revert s. induction sched as [|c sched IH]; intros s Hs; [exact Hs|].
  simpl. destruct (scan_step _ _ _ _ c s) as [s'| |] eqn:E; try (apply IH; exact Hs).
  apply IH. eapply scan_reach_step; [exact Hs|]. by exists c.
Qed.

(** X10. In every state of a scan at most one goroutine is between Lock
    and Unlock, one is there exactly when the mutex is held, and at most
    [nworkers] goroutines are alive. *)
Theorem scan_mutual_exclusion_and_bound
    (nworkers : Z) (pool : WorkerPool) (entries : list string) (s : scan_state) :
  NewWorkerPool nworkers = Some pool ->
  reachable (scan_init entries pool) s ->
  length (filter (fun g => in_critical_section g = true) (goroutines s)) <= 1
  /\ (locked (packages s) = true
      <-> length (filter (fun g => in_critical_section g = true) (goroutines s)) = 1)
  /\ (Z.of_nat (length (filter (fun g => alive g = true) (goroutines s))) <= nworkers)%Z.
Proof.
  intros Hpool Hreach. unfold NewWorkerPool in Hpool.
  destruct (Z.ltb_spec nworkers 0) as [|Hn]; [discriminate|]. injection Hpool as <-.
  eapply scan_inv_reachable in Hreach as [(Hc & _ & _) Hcap]; [|by apply scan_inv_init].
  destruct Hc as (Hlen & Hle & _ & Hmx & _). simpl in Hcap.
  rewrite <- !sum_list_with_indicator.
  rewrite (sum_list_with_ext _ critical) by (by intros [? []]).
  rewrite (sum_list_with_ext (fun g => if alive g then 1 else 0) slot_of) by (by intros [? []]).
  rewrite Hmx. destruct (locked (packages s)); repeat split; try done; lia.
Qed.

Lemma log_inv_update (gs : list (string * go_pc)) (lg extra : list error) i name pc pc' :
  lg ≡ₚ flat_map logged_by' gs ->
  gs !! i = Some (name, pc) ->
  logged_by' (name, pc') ≡ₚ logged_by' (name, pc) ++ extra ->
  lg ++ extra ≡ₚ flat_map logged_by' (<[i := (name, pc')]> gs).
Proof.
  intros Hlg Hi Hnew.
  rewrite insert_take_drop by (by eapply lookup_lt_Some).
  rewrite <- (take_drop_middle gs i (name, pc) Hi) in Hlg.
  rewrite flat_map_app in Hlg |- *. simpl in Hlg |- *.
  rewrite Hlg, Hnew. rewrite <- !app_assoc.
  apply Permutation_app_head, Permutation_app_head, Permutation_app_comm.
Qed.

Lemma log_inv_step s s' : log_inv' s -> trans s s' -> log_inv' s'.
Proof.
  unfold log_inv. intros Hinv [c Hc].
  assert (Hsame : forall gs lg i name pc pc',
             lg ≡ₚ flat_map logged_by' gs -> gs !! i = Some (name, pc) ->
             logged_by' (name, pc') = logged_by' (name, pc) ->
             lg ≡ₚ flat_map logged_by' (<[i := (name, pc')]> gs)).
  { intros gs0 lg0 i0 n0 p0 p0' H Hi0 Heq. rewrite <- (app_nil_r lg0).
    eapply log_inv_update; eauto. by rewrite Heq, app_nil_r. }
  step_cases Hc; simpl in *.
  - by injection Hc as <-.
  - destruct (negb _); by injection Hc as <-.
  - unfold chan_send in Hc. simpl in Hc.
    destruct (len <? cap)%nat; [|discriminate]. by injection Hc as <-.
  - by injection Hc as <-.
  - injection Hc as <-. simpl. rewrite flat_map_app. simpl. by rewrite app_nil_r.
  - destruct wg; [|discriminate]. by injection Hc as <-.
  - destruct (parse name) as [ipkg|err] eqn:E; injection Hc as <-; simpl.
    + eapply Hsame; eauto. simpl. unfold parse_error. by rewrite E.
    + eapply log_inv_update; eauto. simpl. unfold parse_error. by rewrite E.
  - destruct lk; [discriminate|]. injection Hc as <-. simpl. by eapply Hsame.
  - injection Hc as <-. simpl. by eapply Hsame.
  - destruct lk; [|discriminate]. injection Hc as <-. simpl. by eapply Hsame.
  - destruct wg; [discriminate|]. injection Hc as <-. simpl. by eapply Hsame.
  - unfold chan_recv in Hc. simpl in Hc. destruct len; [discriminate|].
    injection Hc as <-. simpl. by eapply Hsame.
  - discriminate.
  - injection Hc as <-. simpl. by eapply Hsame.
Qed.

Lemma log_inv_reachable init s : log_inv' init -> reachable init s -> log_inv' s.
Proof. intros Hinit. induction 1; [done|]. by eapply log_inv_step. Qed.

Lemma length_parse_errors (names : list string) :
  length (flat_map parse_error' names)
  = length (filter (fun e => parses NewIpkgFromFile dir addMd5 addSha1 e = false) names).
Proof.
  induction names as [|n names IH]; [done|].
  simpl. rewrite filter_cons, length_app, IH.
  destruct (decide (parses NewIpkgFromFile dir addMd5 addSha1 n = false)) as [Hp|Hp];
    unfold parses in Hp; unfold parse_error; destruct (parse n); simpl; done.
Qed.

(** X11. When the call returns, the log holds the parser's error of every
    package file that did not parse, each once, and nothing else: as many
    entries as there are invalid package files. *)
Theorem scan_logs_every_invalid_file
    (entries : list string) (pool : WorkerPool) (s : scan_state) :
  WaitGroup pool = 0 -> worker_len pool = 0 ->
  reachable (scan_init entries pool) s ->
  main s = MReturned ->
  logged s ≡ₚ flat_map parse_error' (filter (fun e => is_package_file e = true) entries)
  /\ length (logged s)
     = length (invalid_files NewIpkgFromFile dir addMd5 addSha1 entries).
Proof.
  intros Hwg Hlen Hreach Hmain.
  assert (Hlog : log_inv' s).
  { eapply log_inv_reachable; [|exact Hreach]. unfold log_inv. simpl. reflexivity. }
  eapply scan_inv_reachable in Hreach as [((_ & _ & Hcnt & _ & Hret) & _ & Hn) _];
    [|by apply scan_inv_init].
  unfold names_inv in Hn. rewrite Hmain in Hn, Hcnt. simpl in Hn, Hcnt.
  rewrite app_nil_r in Hn. rewrite (Hret Hmain) in Hcnt.
  assert (Hperm : logged s
                  ≡ₚ flat_map parse_error' (filter (fun e => is_package_file e = true) entries)).
  { unfold log_inv in Hlog. rewrite Hlog, <- Hn.
    assert (Hpast : Forall (fun g => counted g = 0) (goroutines s)).
    { apply Forall_forall. intros g Hg.
      pose proof (sum_list_with_in g counted _ Hg). lia. }
    clear -Hpast. induction Hpast as [|[n pc] gs Hg _ IH]; [done|].
    simpl. rewrite IH. by destruct pc. }
  split; [exact Hperm|].
  rewrite Hperm. unfold invalid_files. apply length_parse_errors.
Qed.

Local Abbreviation inevitably' := (inevitably NewIpkgFromFile dir addMd5 addSha1).
Local Abbreviation panics := (scan_panics NewIpkgFromFile dir addMd5 addSha1).







End ScanMore.

Lemma scan_mutual_exclusion_witness :
  length (filter (fun g => in_critical_section g = true)
            (goroutines (scan_run sample_NewIpkgFromFile "/srv/repo" true false
                           [RunMain; RunMain; RunMain; RunMain; RunGo 0; RunGo 0]
                           (scan_init ["a_1.0.ipk"; "broken.ipk"; "README"]
                              {| WaitGroup := 0; worker_cap := 4; worker_len := 0 |})))) <= 1.
Proof.
  refine (proj1 (scan_mutual_exclusion_and_bound sample_NewIpkgFromFile "/srv/repo" true false
                   4 _ ["a_1.0.ipk"; "broken.ipk"; "README"] _ eq_refl _)).
  apply scan_run_reachable. constructor.
Defined.

Lemma scan_logs_every_invalid_file_witness :
  logged sample_scan_end ≡ₚ [LibraryError "malformed archive"]
  /\ length (logged sample_scan_end) = 1.
Proof.
  apply (scan_logs_every_invalid_file sample_NewIpkgFromFile "/srv/repo" true false
           ["a_1.0.ipk"; "broken.ipk"; "README"]
           {| WaitGroup := 0; worker_cap := 1; worker_len := 0 |} sample_scan_end).
  - reflexivity.
  - reflexivity.
  - apply scan_run_reachable. constructor.
  - vm_compute. reflexivity.
Defined.

(** ** The package files of a listing *)

Lemma get_app_tail a b k : String.get (String.length a + k) (a +:+ b) = String.get k b.
Proof. induction a as [|c a IH]; simpl; [done|exact IH]. Qed.

Lemma substring_split s i :
  i <= String.length s -> s = substring 0 i s +:+ substring i (String.length s - i) s.
Proof.
  revert i. induction s as [|c s IH]; intros [|i] Hi; simpl in *; try lia.
  - done.
  - change ("" +:+ ?x) with x. f_equal. symmetry. apply (substring_app_tail "" s).
  - change (String c s
            = String c (substring 0 i s +:+ substring i (String.length s - i) s)).
    f_equal. apply IH. lia.
Qed.

Lemma string_app_empty_r s : s = s +:+ "".
Proof. induction s as [|c s IH]; [done|]. change (String c s = String c (s +:+ "")). by f_equal. Qed.

Lemma Ext_loop_suffix path n :
  n <= String.length path ->
  exists stem, path = stem +:+ Ext_loop path n.
Proof.
  induction n as [|i IH]; intros Hn; simpl.
  - exists path. apply string_app_empty_r.
  - destruct (String.get i path) as [c|].
    + destruct (Ascii.eqb c "/").
      * exists path. apply string_app_empty_r.
      * destruct (Ascii.eqb c ".").
        -- eexists. apply substring_split. lia.
        -- apply IH. lia.
    + exists path. apply string_app_empty_r.
Qed.

(** X13. The scan takes an entry for a package file exactly when its name
    ends in ".ipk": the extension that path.Ext finds is ".ipk" for such a
    name, whatever comes before, and for no other. *)
Theorem package_file_iff_ipk_suffix (entry : string) :
  is_package_file entry = true <-> exists stem, entry = stem +:+ ".ipk".
Proof.
  unfold is_package_file, Ext. split.
  - intros H. apply String.eqb_eq in H.
    destruct (Ext_loop_suffix entry (String.length entry)) as [stem Hstem]; [done|].
    exists stem. by rewrite H in Hstem.
  - intros [stem ->]. apply String.eqb_eq.
    rewrite length_string_app. simpl String.length.
    replace (String.length stem + 4) with (S (S (S (S (String.length stem))))) by lia.
    simpl.
    replace (S (S (S (String.length stem)))) with (String.length stem + 3) by lia.
    rewrite get_app_tail. simpl.
    replace (S (S (String.length stem))) with (String.length stem + 2) by lia.
    rewrite get_app_tail. simpl.
    replace (S (String.length stem)) with (String.length stem + 1) by lia.
    rewrite get_app_tail. simpl.
    replace (String.length stem) with (String.length stem + 0) at 1 by lia.
    rewrite get_app_tail. simpl.
    rewrite length_string_app. simpl String.length.
    replace (String.length stem + 4 - String.length stem) with (String.length ".ipk")
      by (simpl; lia).
    apply substring_app_tail.
Qed.

(** ** The index page *)

Lemma wrap_int64_add_l a b : wrap_int64 (wrap_int64 a + b) = wrap_int64 (a + b).
Proof.
  unfold wrap_int64. f_equal.
  replace ((a + 2 ^ 63) mod 2 ^ 64 - 2 ^ 63 + b + 2 ^ 63)%Z
    with ((a + 2 ^ 63) mod 2 ^ 64 + b)%Z by lia.
  rewrite Zplus_mod_idemp_l. f_equal. lia.
Qed.

Lemma wrap_int64_idem a : wrap_int64 (wrap_int64 a) = wrap_int64 a.
Proof.
  pose proof (wrap_int64_add_l a 0) as H. by rewrite !Z.add_0_r in H.
Qed.

Lemma wrap_int64_range a : (- 2 ^ 63 <= wrap_int64 a < 2 ^ 63)%Z.
Proof.
  unfold wrap_int64. pose proof (Z.mod_pos_bound (a + 2 ^ 63) (2 ^ 64)). lia.
Qed.

Section RepositoryMore.

Variable StringTo : PackageIndex -> bytes.
Variable StampsTo : PackageIndex -> bytes.
Variable SortedNames : PackageIndex -> list string.
Variable Ipkg_DirEntry : Ipkg -> DirEntry.
Variable template_Execute : RenderCtx.t -> bytes + error.
Variable gzip_Write : bytes -> bytes.
Variable path_Join : string -> string -> string.

Local Abbreviation buffers := (fill_buffers StringTo StampsTo).
Local Abbreviation entries_of := (package_entries Ipkg_DirEntry).
Local Abbreviation page_of :=
  (index_page SortedNames Ipkg_DirEntry template_Execute gzip_Write).
Local Abbreviation attach :=
  (AttachHttpHandler StringTo StampsTo SortedNames Ipkg_DirEntry template_Execute
     gzip_Write path_Join).
Local Abbreviation visit :=
  (walk_visit StringTo StampsTo SortedNames Ipkg_DirEntry template_Execute
     gzip_Write path_Join).
Local Abbreviation walk_from :=
  (walk StringTo StampsTo SortedNames Ipkg_DirEntry template_Execute
     gzip_Write path_Join).
Local Abbreviation handlers :=
  (repository_handlers StringTo StampsTo path_Join).

Lemma package_entries_Some packages names sum es total :
  entries_of packages names sum = Some (es, total) ->
  Forall2 (fun name e =>
             exists ipkg, Entries packages !! name = Some ipkg /\ e = Ipkg_DirEntry ipkg)
          names es
  /\ (wrap_int64 sum = sum -> total = wrap_int64 (sum + sizes_total packages names)).
Proof.
  revert sum es total. induction names as [|name names IH]; intros sum es total H; simpl in H.
  - injection H as <- <-. split; [constructor|]. intros Hs. simpl. by rewrite Z.add_0_r.
  - destruct (Entries packages !! name) as [ipkg|] eqn:Hname; [|discriminate].
    destruct (entries_of packages names _) as [[es' total']|] eqn:Hrest; [|discriminate].
    injection H as <- <-. apply IH in Hrest as [Hes Htotal]. split.
    + constructor; [by exists ipkg|done].
    + intros _. rewrite Htotal by apply wrap_int64_idem.
      rewrite wrap_int64_add_l. simpl. rewrite Hname. simpl. f_equal. lia.
Qed.

Lemma package_entries_is_Some packages names sum :
  Forall (fun name => is_Some (Entries packages !! name)) names ->
  is_Some (entries_of packages names sum).
Proof.
  intros H. revert sum. induction H as [|name names [ipkg Hname] _ IH]; intros sum; simpl.
  - by eexists.
  - rewrite Hname. destruct (IH (wrap_int64 (sum + FileInfo_Size ipkg))) as [[es total] ->].
    by eexists.
Qed.

(** X14. The loop that fills the entries of the index page: it runs
    through exactly when every sorted name is a key of the index (a name
    that is none makes it panic); it then yields one entry per name, in
    the order of the names, and a size total that is the sum of the file
    sizes of these packages, wrapped around to 64 bits. *)
Theorem index_page_entries_and_total (packages : PackageIndex) (names : list string) :
  (is_Some (entries_of packages names 0)
   <-> Forall (fun name => is_Some (Entries packages !! name)) names)
  /\ forall es total,
      entries_of packages names 0 = Some (es, total) ->
      Forall2 (fun name e =>
                 exists ipkg, Entries packages !! name = Some ipkg /\ e = Ipkg_DirEntry ipkg)
              names es
      /\ length es = length names
      /\ total = wrap_int64 (sizes_total packages names)
      /\ (- 2 ^ 63 <= total < 2 ^ 63)%Z.
Proof.
  split.
  - split; [|apply package_entries_is_Some].
    intros [[es total] H]. apply package_entries_Some in H as [H _].
    clear -H. induction H as [|name e names es (ipkg & Hname & _) _ IH]; constructor; eauto.
  - intros es total H. apply package_entries_Some in H as [Hes Htotal].
    specialize (Htotal eq_refl). simpl in Htotal.
    repeat split; try (rewrite Htotal; apply wrap_int64_range); try done.
    symmetry. by eapply Forall2_length.
Qed.

(** X15. [AttachHttpHandler] returns without a panic exactly when the
    index page renders and none of its four patterns is registered yet. *)
Theorem AttachHttpHandler_succeeds_iff
    (mux : ServeMux) (packages : PackageIndex) (prefix root : string)
    (gzipper : Gzipper) (now date : Time) :
  is_Some (attach mux packages prefix root gzipper now date)
  <-> is_Some (page_of packages prefix (buffers packages gzipper) now date)
      /\ Forall (fun pattern => pattern ∉ mux.*1)
           [prefix +:+ "/"; prefix +:+ "/Packages"; prefix +:+ "/Packages.gz";
            prefix +:+ "/Packages.stamps"].
Proof.
  split.
  - intros [mux' H]. unfold AttachHttpHandler in H.
    destruct (page_of _ _ _ _ _) as [page|]; [|discriminate].
    destruct (Handle mux _ _) as [mux1|] eqn:H1; [|discriminate].
    destruct (Handle mux1 _ _) as [mux2|] eqn:H2; [|discriminate].
    destruct (Handle mux2 _ _) as [mux3|] eqn:H3; [|discriminate].
    apply Handle_Some in H1 as (-> & F1 & _), H2 as (-> & F2 & _),
      H3 as (-> & F3 & _), H as (-> & F4 & _).
    split; [by eexists|].
    repeat apply List.Forall_cons; try (by apply List.Forall_nil); intros Hin;
      [apply F1|apply F2|apply F3|apply F4];
      repeat (rewrite fmap_app, elem_of_app); tauto.
  - intros [[page Hpage] Hfresh]. eexists. by apply AttachHttpHandler_fresh.
Qed.

(** X16. The handler that [AttachHttpHandler] registers at [prefix/], for
    a path that does not end in ".control": at the prefix, with or without
    a slash after it, the response is the rendered page as HTML, in its
    gzip form with Content-Encoding gzip when the request accepts gzip and
    plain otherwise; every other path is handed to the file server under
    the root. *)
Theorem index_path_serves_page_or_file
    (mux mux' : ServeMux) (packages : PackageIndex) (prefix root : string)
    (gzipper : Gzipper) (now date : Time) :
  attach mux packages prefix root gzipper now date = Some mux' ->
  exists f ctx index,
    (prefix +:+ "/", HandlerFunc f) ∈ mux'
    /\ RenderCtx.Title ctx = prefix +:+ " - kellner"
    /\ template_Execute ctx = inl index
    /\ forall r,
        HasSuffix (URL_Path r) ".control" = false ->
        ((URL_Path r = prefix \/ URL_Path r = prefix +:+ "/") ->
         response_header (f r) "Content-Type" = Some "text/html; charset=utf-8"
         /\ (accepts_gzip r = true ->
             response_body (f r) = gzip_Write index
             /\ response_header (f r) "Content-Encoding" = Some "gzip")
         /\ (accepts_gzip r = false ->
             response_body (f r) = index
             /\ response_header (f r) "Content-Encoding" = None))
        /\ (URL_Path r <> prefix -> URL_Path r <> prefix +:+ "/" ->
            f r = [ServeFile (path_Join root (URL_Path r))]).
Proof.
  intros Hattach. apply AttachHttpHandler_Some in Hattach as (page & Hpage & ->).
  unfold index_page in Hpage.
  destruct (package_entries _ _ _ _) as [[es total]|]; [|discriminate].
  unfold render in Hpage.
  match type of Hpage with context [template_Execute ?c] => set (ctx := c) in * end.
  destruct (template_Execute ctx) as [index|] eqn:Hexec; [|discriminate].
  injection Hpage as <-.
  exists (index_handler path_Join packages prefix root (index, gzip_Write index)), ctx, index.
  split; [|split; [done|split; [done|]]].
  - apply elem_of_app. right. unfold repository_handlers. set_solver.
  - intros r Hctl. unfold index_handler. rewrite Hctl. split.
    + intros Hp.
      assert (String.eqb (URL_Path r) prefix || String.eqb (URL_Path r) (prefix +:+ "/")
              = true) as ->.
      { apply orb_true_iff. destruct Hp as [->| ->]; [left|right]; apply String.eqb_refl. }
      split; [by destruct (accepts_gzip r)|].
      split; intros ->; simpl; by rewrite app_nil_r.
    + intros H1 H2. apply String.eqb_neq in H1, H2. by rewrite H1, H2.
Qed.

Lemma string_app_assoc a b c : (a +:+ b) +:+ c = a +:+ b +:+ c.
Proof.
  induction a as [|x a IH]; [done|].
  change (String x ((a +:+ b) +:+ c) = String x (a +:+ b +:+ c)). by f_equal.
Qed.

Lemma drop_slashes_no_slash (c : ascii) (b : bytes) :
  c <> "/"%char -> drop_slashes (c :: b) = c :: b.
Proof. intros Hc. simpl. by destruct (Ascii.eqb_spec c "/"). Qed.

Lemma upto_slash_app (b rest : bytes) :
  "/"%char ∉ b -> upto_slash (b ++ "/"%char :: rest) = b.
Proof.
  induction b as [|c b IH]; intros Hb; simpl; [done|].
  apply not_elem_of_cons in Hb as [Hc Hb].
  destruct (Ascii.eqb_spec c "/"); [congruence|]. by rewrite IH.
Qed.

(** [path.Base] of a path that ends in a slash-free, non-empty name after
    a slash is that name. *)
Lemma last_element_of_joined (dir name : string) :
  name <> "" -> "/"%char ∉ bytes_of name ->
  rev (upto_slash (drop_slashes (rev (bytes_of (dir +:+ "/" +:+ name))))) = bytes_of name.
Proof.
  intros Hne Hslash.
  rewrite !bytes_of_app, rev_app_distr. change (bytes_of "/") with ["/"%char].
  rewrite rev_app_distr. simpl rev at 2. rewrite <- app_assoc. simpl app at 2.
  assert (Hrev : "/"%char ∉ rev (bytes_of name)).
  { intros Hin. apply Hslash. apply list_elem_of_In. apply in_rev.
    by apply list_elem_of_In. }
  destruct (rev (bytes_of name)) as [|c b] eqn:Hb.
  { apply (f_equal (@rev _)) in Hb. rewrite rev_involutive in Hb. simpl in Hb.
    apply (f_equal string_of) in Hb. rewrite string_of_bytes_of in Hb. done. }
  rewrite <- app_comm_cons, drop_slashes_no_slash
    by (intros ->; apply Hrev; apply elem_of_cons; by left).
  rewrite app_comm_cons, upto_slash_app by done.
  by rewrite <- Hb, rev_involutive.
Qed.

(** [path.Base] of a path that ends in a slash-free, non-empty name after
    a slash is that name. *)
Lemma Base_of_joined (dir name : string) :
  name <> "" -> "/"%char ∉ bytes_of name -> Base (dir +:+ "/" +:+ name) = name.
Proof.
  intros Hne Hslash. unfold Base.
  destruct (String.eqb_spec (dir +:+ "/" +:+ name) "") as [E|_].
  { apply (f_equal String.length) in E. rewrite !length_string_app in E.
    simpl in E. lia. }
  cbv zeta. rewrite last_element_of_joined by done.
  destruct (bytes_of name) eqn:Hn.
  - apply (f_equal string_of) in Hn. by rewrite string_of_bytes_of in Hn.
  - by rewrite <- Hn, string_of_bytes_of.
Qed.

(** X17. The control route looks at the last element of the path only: a
    request for [dir/name.control], whatever the directory part (the
    prefix of the repository or not), is answered with the control stanza
    of the package [name] of the index, and with [http.NotFound] when the
    index has no such package. *)
Theorem control_route_ignores_directory
    (packages : PackageIndex) (prefix root dir name : string) (page : bytes * bytes)
    (r : Request) :
  name <> "" ->
  "/"%char ∉ bytes_of name ->
  URL_Path r = dir +:+ "/" +:+ name +:+ ".control" ->
  index_handler path_Join packages prefix root page r
  = match Entries packages !! name with
    | Some ipkg => [WriteBody (bytes_of (Control ipkg))]
    | None => [NotFound]
    end.
Proof.
  intros Hne Hslash Hpath. unfold index_handler.
  assert (Hp : URL_Path r = (dir +:+ "/" +:+ name) +:+ ".control")
    by (by rewrite Hpath, !string_app_assoc).
  rewrite Hp, HasSuffix_app, length_string_app. simpl String.length.
  replace (String.length (dir +:+ "/" +:+ name) + 8 - 8)
    with (String.length (dir +:+ "/" +:+ name)) by lia.
  rewrite substring_app_head, Base_of_joined by done.
  by destruct (Entries packages !! name).
Qed.

(** *** The walk *)

Lemma Handle_NoDup mux pattern h mux' :
  Handle mux pattern h = Some mux' -> NoDup mux.*1 -> NoDup mux'.*1.
Proof.
  intros (-> & Hfresh & _)%Handle_Some Hnd. rewrite fmap_app. apply NoDup_app.
  split; [done|]. split; [|apply NoDup_singleton].
  intros x Hx Hin. apply list_elem_of_singleton in Hin. simpl in Hin. by subst.
Qed.

Lemma AttachHttpHandler_NoDup mux packages prefix root gzipper now date mux' :
  attach mux packages prefix root gzipper now date = Some mux' ->
  NoDup mux.*1 -> NoDup mux'.*1.
Proof.
  unfold AttachHttpHandler. intros H Hnd.
  destruct (page_of _ _ _ _ _) as [page|]; [|discriminate].
  destruct (Handle mux _ _) as [mux1|] eqn:H1; [|discriminate].
  destruct (Handle mux1 _ _) as [mux2|] eqn:H2; [|discriminate].
  destruct (Handle mux2 _ _) as [mux3|] eqn:H3; [|discriminate].
  eauto using Handle_NoDup.
Qed.

Lemma walk_added_mono rootName scan_of visits added before after :
  walk_added rootName scan_of visits added ->
  walk_added rootName scan_of visits (before ++ added ++ after).
Proof.
  intros [Hfeeds Hplain]. split.
  - eapply Forall_impl; [exact Hfeeds|]. intros feed [Hne Hpat]. split; [done|].
    eapply Forall_impl; [exact Hpat|]. intros p Hp. rewrite !fmap_app, !elem_of_app. auto.
  - eapply Forall_impl; [exact Hplain|]. intros v Hv Hpl.
    rewrite !fmap_app, !elem_of_app. auto.
Qed.

Lemma walk_added_app rootName scan_of visits1 visits2 added1 added2 :
  walk_added rootName scan_of visits1 added1 ->
  walk_added rootName scan_of visits2 added2 ->
  walk_added rootName scan_of (visits1 ++ visits2) (added1 ++ added2).
Proof.
  intros H1 H2.
  apply (walk_added_mono _ _ _ _ [] added2) in H1.
  apply (walk_added_mono _ _ _ _ added1 []) in H2.
  rewrite app_nil_r in H2. simpl in H1.
  destruct H1 as [F1 P1], H2 as [F2 P2]. split.
  - unfold feeds_of. rewrite flat_map_app. apply Forall_app. by split.
  - apply Forall_app. by split.
Qed.

Lemma walk_visit_extends rootName gzipper now date scan_of st path fi st' :
  visit rootName gzipper now date st path fi (scan_of path) = Some st' ->
  indices st' = indices st ++ feeds_of rootName scan_of [(path, fi)]
  /\ exists added,
      rootMuxer st' = rootMuxer st ++ added
      /\ (NoDup (rootMuxer st).*1 -> NoDup (rootMuxer st').*1)
      /\ walk_added rootName scan_of [(path, fi)] added.
Proof.
  intros H. unfold walk_visit in H.
  assert (Hskip : is_repository scan_of (path, fi) = false ->
                  is_plain_directory scan_of (path, fi) = false ->
                  st' = st ->
                  indices st' = indices st ++ feeds_of rootName scan_of [(path, fi)]
                  /\ exists added,
                      rootMuxer st' = rootMuxer st ++ added
                      /\ (NoDup (rootMuxer st).*1 -> NoDup (rootMuxer st').*1)
                      /\ walk_added rootName scan_of [(path, fi)] added).
  { intros Hrepo Hplain ->. unfold walk_added, feeds_of. simpl.
    rewrite Hrepo, !app_nil_r. split; [done|]. exists [].
    rewrite app_nil_r. split; [done|]. split; [done|]. split; [constructor|].
    constructor; [|constructor]. by rewrite Hplain. }
  destruct fi as [[|]|]; [| |discriminate].
  2:{ injection H as <-. by apply Hskip. }
  destruct (scan_of path) as [packages|err] eqn:Hscan.
  2:{ injection H as <-.
      apply Hskip; [| |done]; unfold is_repository, is_plain_directory; simpl;
        by rewrite Hscan. }
  clear Hskip.
  destruct (muxPath_of rootName path) as [muxPath|] eqn:Hmux; [|discriminate].
  assert (Hrel : muxPath = relative_path rootName path /\ muxPath <> "").
  { unfold muxPath_of in Hmux.
    destruct (Nat.leb_spec (String.length rootName) (String.length path)) as [Hlen|];
      [|discriminate].
    destruct (muxPath_of_relative _ _ Hlen) as [Hm Hne].
    unfold muxPath_of in Hm. rewrite (proj2 (Nat.leb_le _ _) Hlen) in Hm.
    rewrite Hm in Hmux. by injection Hmux as <-. }
  destruct Hrel as [-> Hne].
  assert (Hrepo : is_repository scan_of (path, Some true)
                  = negb (size (Entries packages) =? 0)%nat)
    by (unfold is_repository; simpl; by rewrite Hscan).
  assert (Hplain : is_plain_directory scan_of (path, Some true)
                   = (size (Entries packages) =? 0)%nat)
    by (unfold is_plain_directory; simpl; by rewrite Hscan).
  unfold feeds_of, walk_added. simpl. rewrite Hrepo. clear Hrepo.
  destruct (size (Entries packages) =? 0)%nat eqn:Hsize; simpl.
  - destruct (Handle _ _ _) as [mux|] eqn:Hh; [|discriminate]. injection H as <-. simpl.
    rewrite app_nil_r. split; [done|]. eexists.
    split; [by apply Handle_Some in Hh as [-> _]|].
    split; [by eapply Handle_NoDup|]. split; [constructor|].
    constructor; [|constructor]. intros _. simpl. set_solver.
  - destruct (attach _ _ _ _ _ _ _) as [mux|] eqn:Ha; [|discriminate]. injection H as <-.
    simpl. split; [done|]. pose proof (AttachHttpHandler_NoDup _ _ _ _ _ _ _ _ Ha) as Hnd.
    apply AttachHttpHandler_Some in Ha as (page & _ & ->).
    eexists. split; [done|]. split; [done|]. split.
    + constructor; [|constructor]. split; [done|].
      unfold repository_patterns, repository_handlers. simpl.
      repeat (apply List.Forall_cons; [set_solver|]). constructor.
    + constructor; [|constructor]. rewrite Hplain. discriminate.
Qed.

Lemma walk_extends rootName gzipper now date scan_of visits st st' :
  walk_from rootName gzipper now date scan_of visits st = Some st' ->
  indices st' = indices st ++ feeds_of rootName scan_of visits
  /\ exists added,
      rootMuxer st' = rootMuxer st ++ added
      /\ (NoDup (rootMuxer st).*1 -> NoDup (rootMuxer st').*1)
      /\ walk_added rootName scan_of visits added.
Proof.
  revert st. induction visits as [|[path fi] visits IH]; intros st H; simpl in H.
  - injection H as <-. rewrite app_nil_r. split; [done|]. exists [].
    rewrite app_nil_r. repeat split; try done; constructor.
  - destruct (visit _ _ _ _ _ _ _ _) as [st1|] eqn:Hv; [|discriminate].
    apply walk_visit_extends in Hv as (Hi1 & added1 & Hm1 & Hn1 & Ha1).
    apply IH in H as (Hi2 & added2 & Hm2 & Hn2 & Ha2).
    split.
    { rewrite Hi2, Hi1, <- app_assoc. unfold feeds_of. simpl. by rewrite app_nil_r. }
    exists (added1 ++ added2). split; [by rewrite Hm2, Hm1, app_assoc|].
    split; [auto|]. by apply (walk_added_app _ _ [(path, fi)] visits).
Qed.

(** X18. A walk that ends without a panic has kept what was registered
    before and has registered no pattern twice; the feeds it has collected
    are the relative paths of the directories whose scan yields records,
    in the order of the walk; each feed is non-empty and has its four
    patterns in the muxer, and every directory whose scan yields no record
    has its relative path there. *)
Theorem walk_collects_feeds
    (rootName : string) (gzipper : Gzipper) (now date : Time)
    (scan_of : string -> PackageIndex + error)
    (visits : list (string * option bool)) (st st' : walk_state) :
  walk_from rootName gzipper now date scan_of visits st = Some st' ->
  indices st' = indices st ++ feeds_of rootName scan_of visits
  /\ exists added,
      rootMuxer st' = rootMuxer st ++ added
      /\ (NoDup (rootMuxer st).*1 -> NoDup (rootMuxer st').*1)
      /\ Forall (fun feed => feed <> ""
                             /\ Forall (fun pattern => pattern ∈ added.*1)
                                  (repository_patterns feed))
                (feeds_of rootName scan_of visits)
      /\ Forall (fun v => is_plain_directory scan_of v = true ->
                          relative_path rootName v.1 ∈ added.*1) visits.
Proof. apply walk_extends. Qed.

(** X19. The regular files of a walk and the directories whose scan fails
    leave no trace: the walk ends as the walk over the other visits (the
    successfully scanned directories, and a visit without file info, which
    panics). *)
Theorem walk_skips_files_and_failed_scans
    (rootName : string) (gzipper : Gzipper) (now date : Time)
    (scan_of : string -> PackageIndex + error)
    (visits : list (string * option bool)) (st : walk_state) :
  walk_from rootName gzipper now date scan_of visits st
  = walk_from rootName gzipper now date scan_of
      (filter (fun v => visit_registers scan_of v = true) visits) st.
Proof.
  revert st. induction visits as [|[path fi] visits IH]; intros st; [done|].
  rewrite filter_cons.
  destruct (decide (visit_registers scan_of (path, fi) = true)) as [Hr|Hr]; simpl.
  - destruct (visit _ _ _ _ _ _ _ _); [apply IH|done].
  - unfold visit_registers in Hr. simpl in Hr. unfold walk_visit.
    destruct fi as [[|]|]; [|apply IH|done].
    destruct (scan_of path); [done|apply IH].
Qed.

End RepositoryMore.

Lemma index_path_witness :
  exists f,
    ("/feed/", HandlerFunc f) ∈ sample_mux
    /\ response_body (f {| URL_Path := "/feed/";
                           Header := {[ "Accept-Encoding" := ["gzip"] ]} |})
       = sample_gzipper (bytes_of "/feed - kellner")
    /\ f {| URL_Path := "/feed/a_1.0.ipk"; Header := ∅ |}
       = [ServeFile "/srv/repo/feed/a_1.0.ipk"].
Proof.
  destruct (index_path_serves_page_or_file
              sample_StringTo sample_StampsTo sample_SortedNames sample_DirEntry
              sample_Execute sample_gzipper sample_Join
              [] sample_mux sample_index "/feed" "/srv/repo"
              sample_gzipper 1430000100 1430000101 eq_refl)
    as (f & ctx & index & Hin & Htitle & Hexec & Hf).
  exists f. split; [exact Hin|].
  unfold sample_Execute in Hexec. injection Hexec as <-. rewrite Htitle in Hf. split.
  - destruct (Hf {| URL_Path := "/feed/";
                    Header := {[ "Accept-Encoding" := ["gzip"] ]} |} eq_refl) as [Hpage _].
    destruct (Hpage (or_intror eq_refl)) as (_ & Hgz & _).
    exact (proj1 (Hgz eq_refl)).
  - destruct (Hf {| URL_Path := "/feed/a_1.0.ipk"; Header := ∅ |} eq_refl) as [_ Hfile].
    apply Hfile; discriminate.
Defined.

Lemma control_route_witness :
  index_handler sample_Join sample_index "/feed" "/srv/repo" ([], [])
    {| URL_Path := "/other/dir/a_1.0.ipk.control"; Header := ∅ |}
  = [WriteBody (bytes_of "Package: a")].
Proof.
  apply (control_route_ignores_directory sample_Join sample_index "/feed" "/srv/repo"
           "/other/dir" "a_1.0.ipk" ([], [])
           {| URL_Path := "/other/dir/a_1.0.ipk.control"; Header := ∅ |}).
  - discriminate.
  - intros Hin. simpl in Hin.
    repeat (apply elem_of_cons in Hin as [Hin|Hin]; [discriminate|]).
    by apply elem_of_nil in Hin.
  - reflexivity.
Defined.

Lemma walk_collects_feeds_witness :
  indices feed_walked = ["/feed"] /\ NoDup (rootMuxer feed_walked).*1.
Proof.
  destruct (walk_collects_feeds
              sample_StringTo sample_StampsTo sample_SortedNames sample_DirEntry
              sample_Execute sample_gzipper sample_Join
              "/srv/repo" sample_gzipper 1430000100 1430000101 sample_scan_of
              [("/srv/repo", Some true); ("/srv/repo/feed", Some true)]
              no_handlers feed_walked eq_refl) as (Hidx & added & Hmux & Hnd & _).
  split; [exact Hidx|]. apply Hnd. constructor.
Defined.

(** ** The configuration snippet and the muxer of [main] *)

Lemma replace_slashes_no_slash s : "/"%char ∉ bytes_of (replace_slashes s).
Proof.
  induction s as [|c s IH]; simpl; [apply not_elem_of_nil|].
  apply not_elem_of_cons. split; [|exact IH].
  destruct (Ascii.eqb_spec c "/"); [discriminate|congruence].
Qed.

Lemma repo_name_of_nonempty feed :
  feed <> "" ->
  exists name, repo_name_of feed = Some name /\ "/"%char ∉ bytes_of name.
Proof.
  intros Hne. unfold repo_name_of. destruct feed as [|c feed]; [done|]. simpl.
  eexists. split; [done|]. apply replace_slashes_no_slash.
Qed.

Lemma snippet_lines_nonempty scheme host feeds :
  Forall (fun feed => feed <> "") feeds ->
  snippet_lines scheme host feeds
  = (omap (fun feed => WriteBody <$> snippet_line scheme host feed) feeds, false)
    /\ length (snippet_lines scheme host feeds).1 = length feeds.
Proof.
  induction 1 as [|feed feeds Hne _ [IH IHlen]]; simpl; [done|].
  destruct (repo_name_of_nonempty feed Hne) as (name & Hname & _).
  unfold snippet_line. rewrite Hname. simpl. rewrite IH. simpl in *.
  rewrite IH in IHlen. simpl in IHlen. by rewrite IHlen.
Qed.

Section SetupFacts.

Variable StringTo : PackageIndex -> bytes.
Variable StampsTo : PackageIndex -> bytes.
Variable SortedNames : PackageIndex -> list string.
Variable Ipkg_DirEntry : Ipkg -> DirEntry.
Variable template_Execute : RenderCtx.t -> bytes + error.
Variable gzip_Write : bytes -> bytes.
Variable path_Join : string -> string -> string.
Variable URL_Scheme : Request -> string.
Variable Host : Request -> string.

Local Abbreviation walk_from :=
  (walk StringTo StampsTo SortedNames Ipkg_DirEntry template_Execute
     gzip_Write path_Join).
Local Abbreviation setup :=
  (setup_muxer StringTo StampsTo SortedNames Ipkg_DirEntry template_Execute
     gzip_Write path_Join URL_Scheme Host).

(** X20. When the set-up of the root muxer ends without a panic, no
    pattern is registered twice, and the handler at "/opkg.conf" answers
    every request, without a panic, with one line per repository of the
    walk, in the order of the walk: "src/gz NAME-ipks" and the URL of the
    feed, where NAME is the relative path without its first byte and with
    a dash for every slash, and the scheme is "http://" when the request
    has none. *)
Theorem opkg_conf_lists_every_feed
    (rootName : string) (gzipper : Gzipper) (now date : Time)
    (scan_of : string -> PackageIndex + error)
    (visits : list (string * option bool)) (mux : ServeMux) :
  setup rootName gzipper now date scan_of visits = Some mux ->
  NoDup mux.*1
  /\ exists f,
      ("/opkg.conf", HandlerFunc f) ∈ mux
      /\ forall r,
          snippet_handler_panics URL_Scheme Host (feeds_of rootName scan_of visits) r = false
          /\ length (f r) = length (feeds_of rootName scan_of visits)
          /\ Forall2 (fun feed ev =>
                        exists name,
                          repo_name_of feed = Some name
                          /\ ("/"%char ∉ bytes_of name)
                          /\ ev = WriteBody
                                    (bytes_of ("src/gz " +:+ name +:+ "-ipks "
                                               +:+ snippet_scheme URL_Scheme r +:+ Host r
                                               +:+ feed +:+ newline)))
                     (feeds_of rootName scan_of visits) (f r).
Proof.
  unfold setup_muxer. intros H.
  destruct (walk_from _ _ _ _ _ _ _) as [st|] eqn:Hwalk; [|discriminate].
  apply walk_extends in Hwalk as (Hidx & added & Hmux & Hnd & Hfeeds & _).
  simpl in Hidx, Hmux, Hnd. rewrite Hidx in H. unfold AttachOpkgRepoSnippet in H.
  split; [eapply Handle_NoDup; [exact H|apply Hnd; constructor]|].
  apply Handle_Some in H as (-> & _ & _).
  exists (snippet_handler URL_Scheme Host (feeds_of rootName scan_of visits)).
  split; [apply elem_of_app; right; apply elem_of_cons; by left|].
  intros r. unfold snippet_handler_panics, snippet_handler.
  assert (Hne : Forall (fun feed => feed <> "") (feeds_of rootName scan_of visits)).
  { eapply Forall_impl; [exact Hfeeds|]. by intros feed [Hne _]. }
  destruct (snippet_lines_nonempty (snippet_scheme URL_Scheme r) (Host r) _ Hne)
    as [Hlines Hlen].
  rewrite Hlines. simpl. split; [done|]. rewrite Hlines in Hlen. split; [exact Hlen|].
  clear -Hne. induction Hne as [|feed feeds Hfeed _ IH]; simpl; [constructor|].
  destruct (repo_name_of_nonempty feed Hfeed) as (name & Hname & Hslash).
  unfold snippet_line at 1. rewrite Hname. simpl. constructor; [|exact IH].
  by exists name.
Qed.

(** X21. A directory named opkg.conf at the repository root whose scan
    yields no record takes the pattern "/opkg.conf" for its file server,
    so that the registration of the snippet panics: the set-up of the root
    muxer does not end. *)
Theorem directory_named_opkg_conf_panics
    (rootName : string) (gzipper : Gzipper) (now date : Time)
    (scan_of : string -> PackageIndex + error)
    (visits : list (string * option bool)) :
  (rootName +:+ "/opkg.conf", Some true) ∈ visits ->
  is_plain_directory scan_of (rootName +:+ "/opkg.conf", Some true) = true ->
  setup rootName gzipper now date scan_of visits = None.
Proof.
  intros Hin Hplain. unfold setup_muxer.
  destruct (walk_from _ _ _ _ _ _ _) as [st|] eqn:Hwalk; [|done].
  apply walk_extends in Hwalk as (_ & added & Hmux & _ & _ & Hdirs).
  rewrite Forall_forall in Hdirs. specialize (Hdirs _ Hin Hplain). simpl in Hdirs, Hmux.
  assert (Hrel : relative_path rootName (rootName +:+ "/opkg.conf") = "/opkg.conf").
  { unfold relative_path. rewrite length_string_app.
    replace (String.length rootName + String.length "/opkg.conf" - String.length rootName)
      with (String.length "/opkg.conf") by lia.
    by rewrite substring_app_tail. }
  rewrite Hrel in Hdirs. unfold AttachOpkgRepoSnippet, Handle. simpl.
  rewrite bool_decide_eq_true_2; [done|]. by rewrite Hmux.
Qed.

End SetupFacts.

Lemma opkg_conf_lists_every_feed_witness :
  exists mux,
    setup_muxer sample_StringTo sample_StampsTo sample_SortedNames sample_DirEntry
      sample_Execute sample_gzipper sample_Join (fun _ => "") (fun _ => "example.org")
      "/srv/repo" sample_gzipper 1430000100 1430000101 sample_scan_of
      [("/srv/repo", Some true); ("/srv/repo/feed", Some true)] = Some mux
    /\ NoDup mux.*1.
Proof.
  eexists. split; [reflexivity|].
  eapply (proj1 (opkg_conf_lists_every_feed
                   sample_StringTo sample_StampsTo sample_SortedNames sample_DirEntry
                   sample_Execute sample_gzipper sample_Join
                   (fun _ => "") (fun _ => "example.org")
                   "/srv/repo" sample_gzipper 1430000100 1430000101 sample_scan_of
                   [("/srv/repo", Some true); ("/srv/repo/feed", Some true)] _ eq_refl)).
Defined.

Lemma directory_named_opkg_conf_witness :
  setup_muxer sample_StringTo sample_StampsTo sample_SortedNames sample_DirEntry
    sample_Execute sample_gzipper sample_Join (fun _ => "") (fun _ => "example.org")
    "/srv/repo" sample_gzipper 1430000100 1430000101 sample_scan_of
    [("/srv/repo", Some true); ("/srv/repo/opkg.conf", Some true)] = None.
Proof.
  apply (directory_named_opkg_conf_panics
           sample_StringTo sample_StampsTo sample_SortedNames sample_DirEntry
           sample_Execute sample_gzipper sample_Join (fun _ => "") (fun _ => "example.org")
           "/srv/repo" sample_gzipper 1430000100 1430000101 sample_scan_of
           [("/srv/repo", Some true); ("/srv/repo/opkg.conf", Some true)]).
  - apply elem_of_cons. right. apply elem_of_cons. by left.
  - reflexivity.
Defined.

(** ** main.go: the flags that end the program early *)

Section MainFacts.

Variable ReadFile : string -> list pem.Block + error.
Variable ParseCertificate : bytes -> x509.Certificate + error.
Variable Error : error -> string.

(** X22. With -client-id-for (and without -version) the program ends
    before it looks at -bind and -root.  Its exit status is 1 exactly when
    the file cannot be read or holds no block of type CERTIFICATE without
    headers; then standard output stays empty and standard error gets the
    message.  In every other case the status is 0, standard error stays
    empty and standard output holds nothing or one line: a certificate
    that does not parse ends the program with status 0 and no output. *)
Theorem client_id_flag_exit_status (flags : Flags.t) :
  Flags.showVersion flags = false ->
  Flags.printClientCert flags <> "" ->
  exists out err status,
    main_flags ReadFile ParseCertificate Error flags = Exit out err status
    /\ (status = 1%Z <->
        (exists e, ReadFile (Flags.printClientCert flags) = inr e)
        \/ (exists blocks, ReadFile (Flags.printClientCert flags) = inl blocks
                           /\ Forall (fun b => is_certificate_block b = false) blocks))
    /\ (status = 1%Z -> out = "" /\ err <> "")
    /\ (status <> 1%Z ->
        status = 0%Z /\ err = ""
        /\ (out = ""
            \/ exists blocks skipped block rest cert,
                 ReadFile (Flags.printClientCert flags) = inl blocks
                 /\ blocks = skipped ++ block :: rest
                 /\ Forall (fun b => is_certificate_block b = false) skipped
                 /\ is_certificate_block block = true
                 /\ ParseCertificate (pem.Bytes block) = inl cert
                 /\ out = DeriveIdentity (x509.Subject cert) +:+ newline)).
Proof.
  intros Hversion Hcert. unfold main_flags. rewrite Hversion.
  apply String.eqb_neq in Hcert. rewrite Hcert. simpl. unfold printClientIdTo.
  destruct (ReadFile (Flags.printClientCert flags)) as [blocks|e] eqn:Hread.
  - destruct (decode_loop_cases ParseCertificate blocks)
      as [[Hall ->]|(skipped & block & rest & -> & Hsk & Hblock & ->)].
    + eexists _, _, _. split; [reflexivity|]. split; [|split]; [|done|done].
      split; [|done]. intros _. right. by exists blocks.
    + assert (Hno : ~ ((exists e, @inl (list pem.Block) error (skipped ++ block :: rest)
                                  = inr e)
                       \/ (exists blocks,
                              @inl (list pem.Block) error (skipped ++ block :: rest)
                              = inl blocks
                              /\ Forall (fun b => is_certificate_block b = false) blocks))).
      { intros [[e He]|(blocks & [= <-] & Hall)]; [discriminate|].
        apply Forall_app in Hall as [_ Hall]. apply Forall_cons in Hall as [Hb _].
        congruence. }
      destruct (ParseCertificate (pem.Bytes block)) as [cert|e] eqn:Hparse.
      * rewrite clientIdByName_DeriveIdentity.
        eexists _, _, _. split; [reflexivity|]. split; [|split]; [split| |]; try done.
        intros _. split; [done|]. split; [done|]. right.
        by exists (skipped ++ block :: rest), skipped, block, rest, cert.
      * eexists _, _, _. split; [reflexivity|]. split; [|split]; [split| |]; try done.
        intros _. split; [done|]. split; [done|]. by left.
  - eexists _, _, _. split; [reflexivity|]. split; [|split]; [|done|done].
    split; [|done]. intros _. left. by exists e.
Qed.

End MainFacts.

Lemma client_id_flag_witness :
  exists out err status,
    main_flags sample_files sample_parse (fun _ => "failed")
      {| Flags.showVersion := false; Flags.printClientCert := "bad.pem";
         Flags.bind := ""; Flags.rootName := "" |}
    = Exit out err status.
Proof.
  destruct (client_id_flag_exit_status sample_files sample_parse (fun _ => "failed")
              {| Flags.showVersion := false; Flags.printClientCert := "bad.pem";
                 Flags.bind := ""; Flags.rootName := "" |} eq_refl ltac:(discriminate))
    as (out & err & status & H & _).
  by exists out, err, status.
Defined.
